(** * Validation and summary functions of the support-ticket pipeline

    A shallow embedding of [m1-02-summary-functions.py] and the proofs of
    its specification.

    The Python functions work on a list of tickets, each a [dict] from
    field names to values.  Tickets are finite maps from strings to
    Python values; the dictionaries the functions build ([temp_stats],
    [category_counts], [averages], [by_category]) keep Python's
    insertion order and are association lists whose keys are compared
    the way Python's [dict] compares them.  A Python exception
    ([OverflowError], [ZeroDivisionError], [TypeError], [KeyError]) is
    the result [None].

    The data model has text for ['ticket_id'], ['category'] and
    ['priority'] and any value for ['resolution_minutes']; here every
    field holds any scalar ([None], a bool, an int, a float or a
    string). *)

From Stdlib Require Import ZArith QArith Qabs Lia Floats.
From stdpp Require Import gmap strings list sorting.

Local Open Scope Z_scope.

(** ** The numbers of the Python runtime

    A Python [int] is an unbounded integer ([Z]); a Python [float] is an
    IEEE 754 binary64 number, for which the Standard Library's
    [spec_float] is used.  Every arithmetic operation on floats is the
    exact rational result rounded to the nearest binary64 number, ties to
    even; the conversion of an int to a float and the true division of
    two ints round the same way, and raise [OverflowError] where a float
    operation returns an infinity.  The module [Rounding] below proves
    that the rounding is the one of IEEE 754. *)

Module PyFloat.

(** [n / d] rounded to the nearest integer, ties to the even one
    ([d > 0]). *)
Definition round_half_even (n d : Z) : Z :=
  let q := n / d in
  let r := n mod d in
  match 2 * r ?= d with
  | Lt => q
  | Gt => q + 1
  | Eq => if Z.even q then q else q + 1
  end.

(** The integer [l] with [2 ^ l <= n / d < 2 ^ (l + 1)], for positive
    [n] and [d]. *)
Definition log2_ratio (n d : Z) : Z :=
  let l := Z.log2 n - Z.log2 d in
  if (if 0 <=? l then d * 2 ^ l <=? n else d <=? n * 2 ^ (- l))
  then l else l - 1.

(** The outcome of rounding a positive rational to binary64. *)
Variant rounded :=
  | Rzero
  | Rfinite (m : positive) (e : Z)
  | Roverflow.

(** Binary64: 53 bits of precision, exponents of the mantissa's last bit
    from -1074 to 971. *)
Definition round_pos (n d : Z) : rounded :=
  let e := Z.max (log2_ratio n d - 52) (-1074) in
  let m := if 0 <=? e then round_half_even n (d * 2 ^ e)
           else round_half_even (n * 2 ^ (- e)) d in
  let '(m, e) := if m =? 2 ^ 53 then (2 ^ 52, e + 1) else (m, e) in
  if m =? 0 then Rzero
  else if 971 <? e then Roverflow
  else Rfinite (Z.to_pos m) e.

Definition of_rounded (s : bool) (r : rounded) : spec_float :=
  match r with
  | Rzero => S754_zero s
  | Rfinite m e => S754_finite s m e
  | Roverflow => S754_infinity s
  end.

(** The float nearest to the rational [q]; an exact zero takes the sign
    [zero_sign], an overflow is an infinity. *)
Definition round_Q (zero_sign : bool) (q : Q) : spec_float :=
  match Qnum q with
  | Z0 => S754_zero zero_sign
  | Zpos n => of_rounded false (round_pos (Zpos n) (Zpos (Qden q)))
  | Zneg n => of_rounded true (round_pos (Zpos n) (Zpos (Qden q)))
  end.

(** The exact value of a finite float. *)
Definition finite_value (s : bool) (m : positive) (e : Z) : Q :=
  let n := if s then Zneg m else Zpos m in
  match e with
  | Z0 => n # 1
  | Zpos p => (n * 2 ^ Zpos p) # 1
  | Zneg p => n # (2 ^ p)
  end.

Definition value (f : spec_float) : option Q :=
  match f with
  | S754_zero _ => Some 0%Q
  | S754_finite s m e => Some (finite_value s m e)
  | S754_infinity _ | S754_nan => None
  end.

Definition sign (f : spec_float) : bool :=
  match f with
  | S754_zero s | S754_infinity s | S754_finite s _ _ => s
  | S754_nan => false
  end.

Definition is_infinity (f : spec_float) : bool :=
  match f with S754_infinity _ => true | _ => false end.

(** [x + y] *)
Definition add (x y : spec_float) : spec_float :=
  match x, y with
  | S754_nan, _ | _, S754_nan => S754_nan
  | S754_infinity sx, S754_infinity sy =>
      if Bool.eqb sx sy then x else S754_nan
  | S754_infinity _, _ => x
  | _, S754_infinity _ => y
  | S754_zero sx, S754_zero sy => S754_zero (sx && sy)
  | S754_zero _, S754_finite s m e => round_Q false (finite_value s m e)
  | S754_finite s m e, S754_zero _ => round_Q false (finite_value s m e)
  | S754_finite sx mx ex, S754_finite sy my ey =>
      round_Q false (finite_value sx mx ex + finite_value sy my ey)
  end.

(** [x * y] *)
Definition mul (x y : spec_float) : spec_float :=
  match x, y with
  | S754_nan, _ | _, S754_nan => S754_nan
  | S754_infinity sx, S754_zero _ | S754_zero sx, S754_infinity _ => S754_nan
  | S754_infinity sx, _ => S754_infinity (xorb sx (sign y))
  | _, S754_infinity sy => S754_infinity (xorb (sign x) sy)
  | S754_zero sx, _ => S754_zero (xorb sx (sign y))
  | _, S754_zero sy => S754_zero (xorb (sign x) sy)
  | S754_finite sx mx ex, S754_finite sy my ey =>
      round_Q false (finite_value sx mx ex * finite_value sy my ey)
  end.

(** [x / y]: Python raises [ZeroDivisionError] when [y] is a zero. *)
Definition div (x y : spec_float) : option spec_float :=
  match x, y with
  | _, S754_zero _ => None
  | S754_nan, _ | _, S754_nan => Some S754_nan
  | S754_infinity sx, S754_infinity _ => Some S754_nan
  | S754_infinity sx, S754_finite sy _ _ => Some (S754_infinity (xorb sx sy))
  | _, S754_infinity sy => Some (S754_zero (xorb (sign x) sy))
  | S754_zero sx, S754_finite sy _ _ => Some (S754_zero (xorb sx sy))
  | S754_finite sx mx ex, S754_finite sy my ey =>
      Some (round_Q false (finite_value sx mx ex / finite_value sy my ey))
  end.

(** [float(z)]: [OverflowError] when [z] rounds beyond the largest
    float. *)
Definition of_int (z : Z) : option spec_float :=
  let f := round_Q false (inject_Z z) in
  if is_infinity f then None else Some f.

(** [a / b] on two ints, [b] not zero: the quotient correctly rounded,
    a zero quotient signed by the operands, [OverflowError] when the
    quotient is too large for a float. *)
Definition int_truediv (a b : Z) : option spec_float :=
  let s := xorb (a <? 0) (b <? 0) in
  let f := of_rounded s (round_pos (Z.abs a) (Z.abs b)) in
  if a =? 0 then Some (S754_zero s)
  else if is_infinity f then None else Some f.

(** [round(x, 2)]: the decimal with two digits after the point nearest
    to the exact value of [x] (ties to even), converted back to the
    nearest float; infinities and NaN round to themselves. *)
Definition round2 (x : spec_float) : spec_float :=
  match x with
  | S754_finite s m e =>
      let v := finite_value s m e in
      let k := round_half_even (Qnum v * 100) (Zpos (Qden v)) in
      round_Q s (k # 100)
  | _ => x
  end.

End PyFloat.

(** ** Python values

    The values a ticket field can hold: [None], [bool], [int], [float]
    and [str], the scalars of a ticket record.  (All of them are
    hashable: looking one up in a [dict] raises no [TypeError].) *)

Inductive pyval :=
  | VNone
  | VBool (b : bool)
  | VInt (z : Z)
  | VFloat (f : spec_float)
  | VStr (s : string).

Definition float_zero : spec_float := S754_zero false.

(** [isinstance(v, int)]: [bool] is a subclass of [int]. *)
Definition isinstance_int (v : pyval) : bool :=
  match v with
  | VInt _ | VBool _ => true
  | _ => false
  end.

(** [isinstance(v, (int, float))] *)
Definition isinstance_int_float (v : pyval) : bool :=
  match v with
  | VInt _ | VBool _ | VFloat _ => true
  | _ => false
  end.

(** [v is None] *)
Definition is_None (v : pyval) : bool :=
  match v with VNone => true | _ => false end.

(** The integer an [int] or [bool] stands for. *)
Definition as_int (v : pyval) : option Z :=
  match v with
  | VInt z => Some z
  | VBool b => Some (if b then 1 else 0)
  | _ => None
  end.

(** The float an arithmetic operation on a float and [v] converts [v]
    to. *)
Definition as_float (v : pyval) : option spec_float :=
  match v with
  | VFloat f => Some f
  | VInt z => PyFloat.of_int z
  | VBool b => PyFloat.of_int (if b then 1 else 0)
  | _ => None
  end.

(** [a + b] on numbers.  (The functions below add, multiply, divide and
    round numbers only; on other operands the operations are [None].) *)
Definition py_add (a b : pyval) : option pyval :=
  match as_int a, as_int b with
  | Some x, Some y => Some (VInt (x + y))
  | _, _ =>
      x ← as_float a; y ← as_float b; Some (VFloat (PyFloat.add x y))
  end.

(** [a * b] on numbers *)
Definition py_mul (a b : pyval) : option pyval :=
  match as_int a, as_int b with
  | Some x, Some y => Some (VInt (x * y))
  | _, _ =>
      x ← as_float a; y ← as_float b; Some (VFloat (PyFloat.mul x y))
  end.

(** [a / b]: true division, always a float. *)
Definition py_truediv (a b : pyval) : option pyval :=
  match as_int a, as_int b with
  | Some x, Some y =>
      if y =? 0 then None else VFloat <$> PyFloat.int_truediv x y
  | _, _ =>
      x ← as_float a; y ← as_float b; VFloat <$> PyFloat.div x y
  end.

(** [round(v, 2)]: a float rounds to a float, an int to itself. *)
Definition py_round2 (v : pyval) : option pyval :=
  match v with
  | VFloat f => Some (VFloat (PyFloat.round2 f))
  | VInt z => Some (VInt z)
  | VBool b => Some (VInt (if b then 1 else 0))
  | _ => None
  end.

(** *** Dictionary keys

    A [dict] finds a key by hash and [==]: [1], [1.0] and [True] are one
    key, as are [0.0] and [-0.0].  [dict_key] maps a value to a canonical
    representative of its class of equal keys.  (A NaN is equal to no
    value, itself included, and a [dict] finds it by identity only; the
    embedding has no object identity and takes all NaN keys for one
    object, as they are when the tickets share one NaN object.  Two
    distinct NaN objects are two keys of a [dict]: the theorems on the
    keys themselves, their order and their number, are stated for tickets
    whose category is no NaN.) *)

Variant pykey :=
  | KNone
  | KStr (s : string)
  | KNum (n : Z) (d : positive)
  | KInf (s : bool)
  | KNan.

Global Instance pykey_eq_dec : EqDecision pykey.
Proof. solve_decision. Defined.

Definition dict_key (v : pyval) : pykey :=
  match v with
  | VNone => KNone
  | VStr s => KStr s
  | VBool b => KNum (if b then 1 else 0) 1
  | VInt z => KNum z 1
  | VFloat (S754_zero _) => KNum 0 1
  | VFloat (S754_infinity s) => KInf s
  | VFloat S754_nan => KNan
  | VFloat (S754_finite s m e) =>
      let q := Qred (PyFloat.finite_value s m e) in KNum (Qnum q) (Qden q)
  end.

Definition key_eqb (a b : pyval) : bool :=
  bool_decide (dict_key a = dict_key b).

(** [a == b] *)
Definition py_eq (a b : pyval) : bool :=
  match dict_key a with
  | KNan => false
  | _ => key_eqb a b
  end.

(** *** Insertion-ordered dictionaries *)

Definition pydict (V : Type) : Type := list (pyval * V).

(** [d[k]], [None] for a [KeyError] *)
Fixpoint dict_get {V} (d : pydict V) (k : pyval) : option V :=
  match d with
  | [] => None
  | (k', v) :: d' => if key_eqb k' k then Some v else dict_get d' k
  end.

(** [k in d] *)
Definition dict_contains {V} (d : pydict V) (k : pyval) : bool :=
  bool_decide (is_Some (dict_get d k)).

(** [d[k] = v]: an existing key keeps its place and its key object, a
    new key goes last. *)
Fixpoint dict_set {V} (d : pydict V) (k : pyval) (v : V) : pydict V :=
  match d with
  | [] => [(k, v)]
  | (k', v') :: d' =>
      if key_eqb k' k then (k', v) :: d' else (k', v') :: dict_set d' k v
  end.

(** ** Tickets *)

Abbreviation ticket := (gmap string pyval).

(** [t.get(key, default)] *)
Definition get (t : ticket) (key : string) (default_value : pyval) : pyval :=
  default default_value (t !! key).

(** [enumerate(l)] *)
Fixpoint enumerate_from {A} (start : nat) (l : list A) : list (nat * A) :=
  match l with
  | [] => []
  | x :: l' => (start, x) :: enumerate_from (S start) l'
  end.

Definition enumerate {A} (l : list A) : list (nat * A) := enumerate_from 0 l.

(** A [for] loop whose body can raise: the state after the last
    iteration, or [None] as soon as an iteration raises. *)
Fixpoint for_each {S A} (body : S → A → option S) (s : S) (l : list A)
  : option S :=
  match l with
  | [] => Some s
  | x :: l' => s' ← body s x; for_each body s' l'
  end.

(** ** Validator *)

(** [set(required_keys).issubset(ticket.keys())] *)
Definition issubset (required_keys : list string) (t : ticket) : bool :=
  bool_decide ((list_to_set required_keys : gset string) ⊆ dom t).

(** [validate_keys] (lines 8-19): the indices, in input order, of the
    tickets that lack a required key.
<<
    for index, ticket in enumerate(tickets):
        if not set(required_keys).issubset(ticket.keys()):
            missing_key_indices.append(index)
>> *)
Definition validate_keys (tickets : list ticket) (required_keys : list string)
  : list nat :=
  foldl (fun missing_key_indices '(index, t) =>
           if negb (issubset required_keys t)
           then missing_key_indices ++ [index]
           else missing_key_indices)
        [] (enumerate tickets).

(** An entry of the result of [find_invalid_resolutions]. *)
Record invalid_record := InvalidRecord {
  index : nat;
  ticket_id : pyval;
  invalid_value : pyval;
  issue_type : string
}.

(** [find_invalid_resolutions] (lines 21-40).
<<
    for index, ticket in enumerate(tickets):
        val = ticket.get('resolution_minutes')
        if val is None or not isinstance(val, int):
            invalid_records.append({...})
>> *)
Definition find_invalid_resolutions (tickets : list ticket)
  : list invalid_record :=
  foldl (fun invalid_records '(index, t) =>
           let val := get t "resolution_minutes" VNone in
           if is_None val || negb (isinstance_int val)
           then invalid_records ++
                  [ {| index := index;
                       ticket_id := get t "ticket_id" (VStr "UNKNOWN");
                       invalid_value := val;
                       issue_type := if is_None val then "Missing"
                                     else "Wrong Type" |} ]
           else invalid_records)
        [] (enumerate tickets).

(** ** Aggregator *)

(** The value [{'total': ..., 'count': ...}] of [temp_stats]. *)
Record stats := Stats { total : pyval; count : Z }.

(** One iteration of the first loop of
    [get_average_resolution_by_category] (lines 49-61).  The two
    statements [temp_stats[cat]['total'] += mins] and
    [temp_stats[cat]['count'] += 1] update the value of [cat] in place.
<<
    for t in tickets:
        cat = t.get('category', 'Unknown')
        mins = t.get('resolution_minutes', 0)
        if not isinstance(mins, (int, float)):
            continue
        if cat not in temp_stats:
            temp_stats[cat] = {'total': 0, 'count': 0}
        temp_stats[cat]['total'] += mins
        temp_stats[cat]['count'] += 1
>> *)
Definition average_step (temp_stats : pydict stats) (t : ticket)
  : option (pydict stats) :=
  let cat := get t "category" (VStr "Unknown") in
  let mins := get t "resolution_minutes" (VInt 0) in
  if negb (isinstance_int_float mins) then Some temp_stats
  else
    let temp_stats :=
      if negb (dict_contains temp_stats cat)
      then dict_set temp_stats cat {| total := VInt 0; count := 0 |}
      else temp_stats in
    data ← dict_get temp_stats cat;
    total' ← py_add (total data) mins;
    let temp_stats :=
      dict_set temp_stats cat {| total := total'; count := count data |} in
    data ← dict_get temp_stats cat;
    Some (dict_set temp_stats cat
            {| total := total data; count := count data + 1 |}).

(** One iteration of the second loop (lines 64-68).
<<
    for cat, data in temp_stats.items():
        if data['count'] > 0:
            averages[cat] = round(data['total'] / data['count'], 2)
        else:
            averages[cat] = 0
>> *)
Definition average_entry (averages : pydict pyval) (item : pyval * stats)
  : option (pydict pyval) :=
  let '(cat, data) := item in
  if 0 <? count data
  then
    quotient ← py_truediv (total data) (VInt (count data));
    rounded ← py_round2 quotient;
    Some (dict_set averages cat rounded)
  else Some (dict_set averages cat (VInt 0)).

(** [get_average_resolution_by_category] (lines 42-70). *)
Definition get_average_resolution_by_category (tickets : list ticket)
  : option (pydict pyval) :=
  temp_stats ← for_each average_step [] tickets;
  for_each average_entry [] temp_stats.

(** The value [{'total': ..., 'critical': ...}] of [category_counts]. *)
Record counts := Counts { tickets_total : Z; critical : Z }.

(** The loop state of [get_escalation_rates]. *)
Record escalation_state := EscalationState {
  category_counts : pydict counts;
  total_tickets : Z;
  total_critical : Z
}.

(** One iteration of the first loop of [get_escalation_rates]
    (lines 81-94).
<<
    for t in tickets:
        cat = t.get('category', 'Unknown')
        priority = t.get('priority', 'Low')
        is_critical = 1 if priority == 'Critical' else 0
        total_tickets += 1
        total_critical += is_critical
        if cat not in category_counts:
            category_counts[cat] = {'total': 0, 'critical': 0}
        category_counts[cat]['total'] += 1
        category_counts[cat]['critical'] += is_critical
>> *)
Definition escalation_step (st : escalation_state) (t : ticket)
  : option escalation_state :=
  let cat := get t "category" (VStr "Unknown") in
  let priority := get t "priority" (VStr "Low") in
  let is_critical := if py_eq priority (VStr "Critical") then 1 else 0 in
  let total_tickets := total_tickets st + 1 in
  let total_critical := total_critical st + is_critical in
  let category_counts :=
    if negb (dict_contains (category_counts st) cat)
    then dict_set (category_counts st) cat
           {| tickets_total := 0; critical := 0 |}
    else category_counts st in
  data ← dict_get category_counts cat;
  let category_counts :=
    dict_set category_counts cat
      {| tickets_total := tickets_total data + 1; critical := critical data |} in
  data ← dict_get category_counts cat;
  let category_counts :=
    dict_set category_counts cat
      {| tickets_total := tickets_total data;
         critical := critical data + is_critical |} in
  Some {| category_counts := category_counts;
          total_tickets := total_tickets;
          total_critical := total_critical |}.

(** The result [{'overall_rate': ..., 'by_category': ...}]. *)
Record rates := Rates { overall_rate : pyval; by_category : pydict pyval }.

(** [round((critical / total) * 100, 2)], the expression of lines 102
    and 106-107. *)
Definition percentage (critical total : Z) : option pyval :=
  quotient ← py_truediv (VInt critical) (VInt total);
  pct ← py_mul quotient (VInt 100);
  py_round2 pct.

(** One iteration of the second loop (lines 104-107).
<<
    for cat, data in category_counts.items():
        if data['total'] > 0:
            pct = (data['critical'] / data['total']) * 100
            rates['by_category'][cat] = round(pct, 2)
>> *)
Definition escalation_entry (r : rates) (item : pyval * counts)
  : option rates :=
  let '(cat, data) := item in
  if 0 <? tickets_total data
  then
    pct ← percentage (critical data) (tickets_total data);
    Some {| overall_rate := overall_rate r;
            by_category := dict_set (by_category r) cat pct |}
  else Some r.

(** [get_escalation_rates] (lines 72-109).
<<
    rates = {'overall_rate': 0.0, 'by_category': {}}
    if total_tickets > 0:
        rates['overall_rate'] = round((total_critical / total_tickets) * 100, 2)
>> *)
Definition get_escalation_rates (tickets : list ticket) : option rates :=
  st ← for_each escalation_step
         {| category_counts := []; total_tickets := 0; total_critical := 0 |}
         tickets;
  let r := {| overall_rate := VFloat float_zero; by_category := [] |} in
  r ← (if 0 <? total_tickets st
       then
         pct ← percentage (total_critical st) (total_tickets st);
         Some {| overall_rate := pct; by_category := by_category r |}
       else Some r);
  for_each escalation_entry r (category_counts st).

(** ** Reporter *)

(** The value of ['meta'] and the report. *)
Record report_meta := ReportMeta { total_records : nat; status : string }.

Record report := Report {
  meta : report_meta;
  averages : pydict pyval;
  escalations : rates
}.

(** [generate_final_report] (lines 111-124): the three entries of the
    report are evaluated in the order they are written.
<<
    report = {
        "meta": {"total_records": len(tickets), "status": "Success"},
        "averages": get_average_resolution_by_category(tickets),
        "escalations": get_escalation_rates(tickets)
    }
>> *)
Definition generate_final_report (tickets : list ticket) : option report :=
  let meta := {| total_records := length tickets; status := "Success" |} in
  averages ← get_average_resolution_by_category tickets;
  escalations ← get_escalation_rates tickets;
  Some {| meta := meta; averages := averages; escalations := escalations |}.

(** * The specification

    The definitions the statements are written with: what the
    specification says of a ticket, a group or a rate. *)

(** ** Validator *)

(** The ticket's ['resolution_minutes'] is null: the key is absent, or
    holds [None]. *)
Definition resolution_null (t : ticket) : Prop :=
  t !! "resolution_minutes" = None ∨ t !! "resolution_minutes" = Some VNone.

(** The ticket's ['resolution_minutes'] is an integer, a boolean
    included. *)
Definition resolution_integer (t : ticket) : Prop :=
  (∃ z, t !! "resolution_minutes" = Some (VInt z)) ∨
  (∃ b, t !! "resolution_minutes" = Some (VBool b)).

(** ** Averages *)

(** The category of a ticket: its ['category'] field, ['Unknown'] when
    the field is absent. *)
Definition category (t : ticket) : pyval :=
  default (VStr "Unknown") (t !! "category").

(** What a ticket adds to the sum of its group: [0] when
    ['resolution_minutes'] is absent, its value when that is an int, a
    bool or a float, and nothing (the ticket is not counted) when it is
    present with any other value. *)
Definition contribution (t : ticket) : option pyval :=
  match t !! "resolution_minutes" with
  | None => Some (VInt 0)
  | Some (VInt z) => Some (VInt z)
  | Some (VBool b) => Some (VBool b)
  | Some (VFloat f) => Some (VFloat f)
  | Some _ => None
  end.

(** The contributions of the counted tickets of a category, in input
    order.  A category is given by the class [κ] of its keys. *)
Definition group_contributions (tickets : list ticket) (κ : pykey)
  : list pyval :=
  omap contribution (filter (λ t, dict_key (category t) = κ) tickets).

(** The sum of a group: Python's [sum], from [0], left to right. *)
Definition group_sum (tickets : list ticket) (c : pyval) : option pyval :=
  for_each py_add (VInt 0) (group_contributions tickets (dict_key c)).

(** The number of counted tickets of a group. *)
Definition group_count (tickets : list ticket) (c : pyval) : Z :=
  Z.of_nat (length (group_contributions tickets (dict_key c))).

(** ** Escalation rates *)

(** A ticket is critical: its ['priority'] field is the string
    ['Critical']. *)
Definition is_critical (t : ticket) : bool :=
  match t !! "priority" with
  | Some (VStr s) => bool_decide (s = "Critical")
  | _ => false
  end.

(** The number of critical tickets of a list. *)
Definition critical_count (l : list ticket) : Z :=
  Z.of_nat (length (filter (λ t, is_critical t = true) l)).

(** The tickets of a category, in input order. *)
Definition category_group (tickets : list ticket) (κ : pykey) : list ticket :=
  filter (λ t, dict_key (category t) = κ) tickets.

(** A float has a value between 0 and the integer [B]. *)
Definition float_in (f : spec_float) (B : Z) : Prop :=
  ∃ q, PyFloat.value f = Some q ∧ (0 <= q)%Q ∧ (q <= inject_Z B)%Q.

(** ** Scenarios *)

(** Some floats: [10.0], [15.0], [50.0], [100.0], [2.5] and [6.25]. *)
Definition float_10 : spec_float := S754_finite false 5629499534213120 (-49).
Definition float_15 : spec_float := S754_finite false 8444249301319680 (-49).
Definition float_50 : spec_float := S754_finite false 7036874417766400 (-47).
Definition float_100 : spec_float := S754_finite false 7036874417766400 (-46).
Definition float_2_5 : spec_float := S754_finite false 5629499534213120 (-51).
Definition float_6_25 : spec_float := S754_finite false 7036874417766400 (-50).

(** The rate of [critical] tickets among [total], as the specification
    words it: the quotient [critical / total] of the two integers,
    multiplied by [100] and rounded to two decimals, each of the three
    operations being the one of the Python runtime on floats; [0.0] when
    there is no ticket.  (It is written with the operations of [PyFloat],
    not with the function [percentage] of the code.) *)
Definition rate (critical total : Z) : option pyval :=
  if total =? 0 then Some (VFloat float_zero)
  else
    quotient ← PyFloat.int_truediv critical total;
    Some (VFloat (PyFloat.round2 (PyFloat.mul quotient float_100))).

(** Scenario B: two tickets of category ['A'], resolved in 10 and 20
    minutes. *)
Definition scenario_B : list ticket :=
  [ {[ "category" := VStr "A"; "resolution_minutes" := VInt 10 ]};
    {[ "category" := VStr "A"; "resolution_minutes" := VInt 20 ]} ].

(** Scenario C: a critical and a low-priority ticket of category ['X']. *)
Definition scenario_C : list ticket :=
  [ {[ "priority" := VStr "Critical"; "category" := VStr "X" ]};
    {[ "priority" := VStr "Low"; "category" := VStr "X" ]} ].

(** Scenario D: one ticket, whose ['resolution_minutes'] is the string
    ['bad'], and the entry [find_invalid_resolutions] returns for it. *)
Definition scenario_D : list ticket :=
  [ {[ "resolution_minutes" := VStr "bad" ]} ].

Definition scenario_D_record : invalid_record :=
  {| index := 0; ticket_id := VStr "UNKNOWN"; invalid_value := VStr "bad";
     issue_type := "Wrong Type" |}.

(** A ticket of category ['A'] resolved in 10 minutes, and a ticket of
    category ['B'] whose ['resolution_minutes'] is a string. *)
Definition scenario_mixed : list ticket :=
  [ {[ "category" := VStr "A"; "resolution_minutes" := VInt 10 ]};
    {[ "category" := VStr "B"; "resolution_minutes" := VStr "bad" ]} ].

(** A ticket resolved in 10 minutes and one resolved in 2.5 minutes, both
    of category ['A']. *)
Definition ticket_with_float : ticket :=
  {[ "category" := VStr "A"; "ticket_id" := VStr "T2";
     "resolution_minutes" := VFloat float_2_5 ]}.

Definition scenario_float : list ticket :=
  [ {[ "category" := VStr "A"; "resolution_minutes" := VInt 10 ]};
    ticket_with_float ].

(** A ticket whose ['resolution_minutes'] is [True]. *)
Definition ticket_with_bool : ticket :=
  {[ "ticket_id" := VStr "T1"; "resolution_minutes" := VBool true ]}.

(** One ticket whose ['resolution_minutes'] is the integer [10 ** 400],
    too large for a float. *)
Definition scenario_overflow : list ticket :=
  [ {[ "resolution_minutes" := VInt (10 ^ 400) ]} ].

(** A ticket whose ['resolution_minutes'] is [10 ** 400] followed by a
    ticket resolved in 2.5 minutes, both without category. *)
Definition ticket_float_only : ticket :=
  {[ "resolution_minutes" := VFloat float_2_5 ]}.

Definition scenario_float_overflow : list ticket :=
  [ {[ "resolution_minutes" := VInt (10 ^ 400) ]}; ticket_float_only ].

(** * Definitions of the proofs *)

(** The check of one ticket, as the loop body of [validate_keys] makes
    it. *)
Definition keep_missing (required_keys : list string) (it : nat * ticket)
  : option nat :=
  if negb (issubset required_keys it.2) then Some it.1 else None.

(** The check of one ticket, as the loop body of
    [find_invalid_resolutions] makes it. *)
Definition keep_invalid (it : nat * ticket) : option invalid_record :=
  let val := get it.2 "resolution_minutes" VNone in
  if is_None val || negb (isinstance_int val)
  then Some {| index := it.1;
               ticket_id := get it.2 "ticket_id" (VStr "UNKNOWN");
               invalid_value := val;
               issue_type := if is_None val then "Missing" else "Wrong Type" |}
  else None.

(** The value a dictionary holds for the keys of class [κ]. *)
Fixpoint lookup_key {V} (d : pydict V) (κ : pykey) : option V :=
  match d with
  | [] => None
  | (k, v) :: d' => if decide (dict_key k = κ) then Some v else lookup_key d' κ
  end.

(** The key classes of a dictionary's keys, in insertion order. *)
Definition key_classes {V} (d : pydict V) : list pykey :=
  (λ item, dict_key item.1) <$> d.

(** The statistics and the counts of a category not yet in [temp_stats]
    or [category_counts]. *)
Definition no_stats : stats := {| total := VInt 0; count := 0 |}.
Definition no_counts : counts := {| tickets_total := 0; critical := 0 |}.

(** The average [average_entry] stores for one item of [temp_stats]. *)
Definition entry_average (data : stats) : option pyval :=
  if 0 <? count data
  then quotient ← py_truediv (total data) (VInt (count data));
       py_round2 quotient
  else Some (VInt 0).

(** A rounding of a positive rational ended at or below the integer
    [B]. *)
Definition rounded_le (r : PyFloat.rounded) (B : Z) : Prop :=
  match r with
  | PyFloat.Rzero => True
  | PyFloat.Rfinite m e => (PyFloat.finite_value false m e <= inject_Z B)%Q
  | PyFloat.Roverflow => False
  end.

(** A mantissa and an exponent of a binary64 number, as the Standard
    Library defines them: at most 53 bits, exactly 53 unless the exponent
    is the least one, and an exponent from -1074 to 971. *)
Definition binary64 (m : positive) (e : Z) : bool := bounded 53 1024 m e.

(** A binary64 number, zero included, as a multiple of [2 ^ (-1074)]. *)
Definition float_units (f : spec_float) : option Z :=
  match f with
  | S754_zero _ => Some 0
  | S754_finite s m e =>
      Some ((if s then Zneg m else Zpos m) * 2 ^ (e + 1074))
  | _ => None
  end.

(** [P] is the power [2 ^ k]. *)
Definition pow2_is (k P : Z) : Prop := P = 2 ^ k.

(** * Definitions of the further properties *)

(** An entry of [find_invalid_resolutions] with its index moved [n]
    places up. *)
Definition reindex (n : nat) (r : invalid_record) : invalid_record :=
  {| index := n + index r;
     ticket_id := ticket_id r;
     invalid_value := invalid_value r;
     issue_type := issue_type r |}.

(** The test [isinstance(mins, (int, float))] of line 54 on a ticket:
    the ticket is counted by [get_average_resolution_by_category]. *)
Definition counted (t : ticket) : bool :=
  isinstance_int_float (get t "resolution_minutes" (VInt 0)).

(** The keys of a dictionary after [key] is set in it: a key of a new
    class goes last, a key of a class already there changes nothing. *)
Definition add_key (keys : list pyval) (key : pyval) : list pyval :=
  if decide (dict_key key ∈ dict_key <$> keys) then keys else keys ++ [key].

(** The first key of every class of equal keys, in the order of the
    list. *)
Definition first_keys (l : list pyval) : list pyval := foldl add_key [] l.

(** The exact sum of the integers of a group. *)
Definition group_int_sum (tickets : list ticket) (c : pyval) : Z :=
  foldr Z.add 0 (omap as_int (group_contributions tickets (dict_key c))).

(** The average of the contributions of a group, as the two loops of
    [get_average_resolution_by_category] compute it: the sum from [0],
    left to right, divided by the number of contributions and rounded. *)
Definition group_average (l : list pyval) : option pyval :=
  s ← for_each py_add (VInt 0) l;
  q ← py_truediv s (VInt (Z.of_nat (length l)));
  py_round2 q.

(** * Proofs *)

(** ** Loops that collect *)

Section collect.
Context {A B : Type}.

(** A loop that appends at most one element per iteration is a
    filtering map. *)
Lemma foldl_collect (body : list B → A → list B) (keep : A → option B) :
  (∀ acc x, body acc x = match keep x with
                         | Some y => acc ++ [y]
                         | None => acc
                         end) →
  ∀ l acc, foldl body acc l = acc ++ omap keep l.
Proof.
  intros Hbody l. induction l as [|x l IH]; intros acc; simpl.
  - by rewrite app_nil_r.
  - rewrite IH, Hbody. destruct (keep x); [|done].
    by rewrite <- app_assoc.
Qed.

Lemma elem_of_enumerate_from (l : list A) (start i : nat) (x : A) :
  (i, x) ∈ enumerate_from start l ↔
  (start ≤ i)%nat ∧ l !! (i - start)%nat = Some x.
Proof.
  revert start. induction l as [|y l IH]; intros start; simpl.
  - rewrite elem_of_nil. split; [done|]. intros [_ Hx]. by rewrite lookup_nil in Hx.
  - rewrite elem_of_cons, IH. split.
    + intros [[= -> ->]|[Hle Hx]].
      * split; [lia|]. by replace (start - start)%nat with 0%nat by lia.
      * split; [lia|].
        by replace (i - start)%nat with (S (i - S start)) by lia.
    + intros [Hle Hx]. destruct (decide (i = start)) as [->|Hne].
      * left. replace (start - start)%nat with 0%nat in Hx by lia.
        simpl in Hx. congruence.
      * right. split; [lia|].
        by replace (i - start)%nat with (S (i - S start)) in Hx by lia.
Qed.

Lemma elem_of_enumerate (l : list A) (i : nat) (x : A) :
  (i, x) ∈ enumerate l ↔ l !! i = Some x.
Proof.
  unfold enumerate. rewrite elem_of_enumerate_from.
  replace (i - 0)%nat with i by lia. intuition lia.
Qed.

(** What is collected from an enumeration comes out in the order of the
    positions. *)
Lemma omap_enumerate_sorted (keep : nat * A → option B) (pos : B → nat) :
  (∀ i x y, keep (i, x) = Some y → pos y = i) →
  ∀ l start,
    StronglySorted lt (pos <$> omap keep (enumerate_from start l)) ∧
    Forall (λ y, (start ≤ pos y)%nat) (omap keep (enumerate_from start l)).
Proof.
  intros Hpos l. induction l as [|x l IH]; intros start; simpl.
  - split; constructor.
  - destruct (IH (S start)) as [Hsorted Hall].
    destruct (keep (start, x)) as [y|] eqn:Hkeep; simpl.
    + apply Hpos in Hkeep. split.
      * constructor; [done|]. rewrite Forall_fmap.
        eapply Forall_impl; [exact Hall|]. simpl. intros; lia.
      * constructor; [lia|].
        eapply Forall_impl; [exact Hall|]. simpl. intros; lia.
    + split; [done|].
      eapply Forall_impl; [exact Hall|]. simpl. intros; lia.
Qed.
End collect.

(** ** Validator *)

Lemma validate_keys_omap tickets required_keys :
  validate_keys tickets required_keys =
  omap (keep_missing required_keys) (enumerate tickets).
Proof.
  unfold validate_keys.
  rewrite (foldl_collect _ (keep_missing required_keys)); [done|].
  intros acc [i t]. unfold keep_missing. simpl.
  by destruct (negb (issubset required_keys t)).
Qed.

Lemma issubset_false required_keys (t : ticket) :
  issubset required_keys t = false ↔
  ∃ k, k ∈ required_keys ∧ t !! k = None.
Proof.
  unfold issubset. rewrite bool_decide_eq_false. split.
  - intros Hsub.
    destruct (decide (Forall (λ k, k ∈ dom t) required_keys)) as [Hall|Hex].
    + exfalso. apply Hsub. intros k Hk. rewrite elem_of_list_to_set in Hk.
      rewrite Forall_forall in Hall. by apply Hall.
    + apply not_Forall_Exists in Hex; [|intros k; apply _].
      apply Exists_exists in Hex as (k & Hk & Hdom).
      exists k. split; [done|]. by apply not_elem_of_dom.
  - intros (k & Hk & Hnone) Hsub.
    apply not_elem_of_dom in Hnone. apply Hnone, Hsub.
    by apply elem_of_list_to_set.
Qed.

Lemma elem_of_validate_keys tickets required_keys i :
  i ∈ validate_keys tickets required_keys ↔
  ∃ t, tickets !! i = Some t ∧ ∃ k, k ∈ required_keys ∧ t !! k = None.
Proof.
  rewrite validate_keys_omap, list_elem_of_omap. split.
  - intros ([j t] & Hin & Hkeep). unfold keep_missing in Hkeep.
    simpl in Hkeep.
    destruct (issubset required_keys t) eqn:Hsub; simplify_eq/=.
    apply elem_of_enumerate in Hin. exists t. split; [done|].
    by apply issubset_false.
  - intros (t & Hlook & Hmiss). exists (i, t). split.
    + by apply elem_of_enumerate.
    + unfold keep_missing. simpl.
      apply issubset_false in Hmiss. by rewrite Hmiss.
Qed.

(** C5: [validate_keys] returns strictly ascending indices, each less
    than the number of tickets, and an index is returned exactly when
    its ticket lacks at least one of the required keys; only the
    presence of a key counts, whatever its value. *)
Theorem validate_keys_spec (tickets : list ticket)
    (required_keys : list string) :
  StronglySorted lt (validate_keys tickets required_keys) ∧
  (∀ i, i ∈ validate_keys tickets required_keys →
        (i < length tickets)%nat) ∧
  (∀ i, i ∈ validate_keys tickets required_keys ↔
        ∃ t, tickets !! i = Some t ∧
             ∃ k, k ∈ required_keys ∧ t !! k = None).
Proof.
  split; [|split].
  - rewrite validate_keys_omap.
    destruct (omap_enumerate_sorted (keep_missing required_keys) id)
      with (l := tickets) (start := 0%nat) as [Hsorted _].
    + intros i x y. unfold keep_missing. simpl.
      destruct (negb _); naive_solver.
    + by rewrite list_fmap_id in Hsorted.
  - intros i (t & Hlook & _)%elem_of_validate_keys.
    by eapply lookup_lt_Some.
  - apply elem_of_validate_keys.
Qed.

Lemma find_invalid_resolutions_omap tickets :
  find_invalid_resolutions tickets = omap keep_invalid (enumerate tickets).
Proof.
  unfold find_invalid_resolutions.
  rewrite (foldl_collect _ keep_invalid); [done|].
  intros acc [i t]. unfold keep_invalid. simpl.
  by destruct (is_None _ || negb _).
Qed.

Lemma keep_invalid_index i t r : keep_invalid (i, t) = Some r → index r = i.
Proof.
  unfold keep_invalid. simpl. destruct (is_None _ || negb _); [|done].
  by intros [= <-].
Qed.

Lemma elem_of_find_invalid_resolutions tickets r :
  r ∈ find_invalid_resolutions tickets ↔
  ∃ t, tickets !! index r = Some t ∧ keep_invalid (index r, t) = Some r.
Proof.
  rewrite find_invalid_resolutions_omap, list_elem_of_omap. split.
  - intros ([i t] & Hin & Hkeep). apply elem_of_enumerate in Hin.
    rewrite (keep_invalid_index _ _ _ Hkeep). eauto.
  - intros (t & Hlook & Hkeep). exists (index r, t).
    split; [by apply elem_of_enumerate|done].
Qed.

(** The loop's test, read on the ticket. *)
Lemma keep_invalid_Some i t :
  is_Some (keep_invalid (i, t)) ↔ resolution_null t ∨ ¬ resolution_integer t.
Proof.
  unfold keep_invalid, resolution_null, resolution_integer, get. simpl.
  destruct (t !! "resolution_minutes") as [[]|]; simpl; split;
    try (intros; by eexists); try (intros [? ?]; discriminate);
    try (intros _; right; intros [[? [=]]|[? [=]]]);
    try (intros _; by left); try (intros _; by (left; right)).
  - intros [[[=]|[=]]|Hno]. destruct Hno. right. by eexists.
  - intros [[[=]|[=]]|Hno]. destruct Hno. left. by eexists.
Qed.

Lemma keep_invalid_issue_type i t r :
  keep_invalid (i, t) = Some r →
  (issue_type r = "Missing" ↔ resolution_null t) ∧
  (issue_type r = "Wrong Type" ↔ ¬ resolution_null t).
Proof.
  unfold keep_invalid, resolution_null, get. simpl.
  destruct (t !! "resolution_minutes") as [[]|]; simpl; intros [= <-]; simpl;
    (split; split; [..|]);
    try done; try (intros _; by left); try (intros _; by right);
    try (intros [[=]|[=]]); try (intros _ [[=]|[=]]);
    try (intros Hno; destruct Hno; by left);
    try (intros Hno; destruct Hno; by right).
Qed.

(** C4: [find_invalid_resolutions] returns, in input order, exactly one
    entry per ticket whose [resolution_minutes] is null (absent included)
    or not an integer; the entry holds the ticket's index, its
    [ticket_id] or ['UNKNOWN'], the raw value, and the issue type
    ['Missing'] exactly for a null value and ['Wrong Type'] otherwise. *)
Theorem find_invalid_resolutions_spec (tickets : list ticket) :
  StronglySorted lt (index <$> find_invalid_resolutions tickets) ∧
  (∀ i, (∃ r, r ∈ find_invalid_resolutions tickets ∧ index r = i) ↔
        ∃ t, tickets !! i = Some t ∧
             (resolution_null t ∨ ¬ resolution_integer t)) ∧
  (∀ r, r ∈ find_invalid_resolutions tickets →
        ∃ t, tickets !! index r = Some t ∧
             ticket_id r = default (VStr "UNKNOWN") (t !! "ticket_id") ∧
             invalid_value r = default VNone (t !! "resolution_minutes") ∧
             (issue_type r = "Missing" ↔ resolution_null t) ∧
             (issue_type r = "Wrong Type" ↔ ¬ resolution_null t)).
Proof.
  split; [|split].
  - rewrite find_invalid_resolutions_omap.
    by destruct (omap_enumerate_sorted keep_invalid index keep_invalid_index
                   tickets 0%nat).
  - intros i. split.
    + intros (r & (t & Hlook & Hkeep)%elem_of_find_invalid_resolutions & <-).
      exists t. split; [done|]. apply (keep_invalid_Some (index r)). eauto.
    + intros (t & Hlook & Hbad).
      apply (keep_invalid_Some i) in Hbad as [r Hkeep]. exists r.
      pose proof (keep_invalid_index _ _ _ Hkeep) as Hi. split; [|done].
      apply elem_of_find_invalid_resolutions. rewrite Hi. eauto.
  - intros r (t & Hlook & Hkeep)%elem_of_find_invalid_resolutions.
    exists t. split; [done|].
    destruct (keep_invalid_issue_type _ _ _ Hkeep) as [Hmissing Hwrong].
    split; [|split; [|done]].
    + unfold keep_invalid in Hkeep. simpl in Hkeep.
      destruct (is_None _ || negb _); [|done]. by injection Hkeep as <-.
    + unfold keep_invalid in Hkeep. simpl in Hkeep.
      destruct (is_None _ || negb _); [|done]. by injection Hkeep as <-.
Qed.

(** C6: a ticket whose [resolution_minutes] is a boolean is not reported
    by [find_invalid_resolutions]. *)
Theorem find_invalid_resolutions_bool (tickets : list ticket) (i : nat)
    (t : ticket) (b : bool) :
  tickets !! i = Some t →
  t !! "resolution_minutes" = Some (VBool b) →
  ∀ r, r ∈ find_invalid_resolutions tickets → index r ≠ i.
Proof.
  intros Hlook Hbool r (t' & Hlook' & Hkeep)%elem_of_find_invalid_resolutions
    Hi.
  rewrite Hi, Hlook in Hlook'. injection Hlook' as <-.
  unfold keep_invalid, get in Hkeep. simpl in Hkeep.
  by rewrite Hbool in Hkeep.
Qed.

Lemma find_invalid_resolutions_bool_witness :
  [ticket_with_bool] !! 0%nat = Some ticket_with_bool ∧
  ticket_with_bool !! "resolution_minutes" = Some (VBool true) ∧
  ∀ r, r ∈ find_invalid_resolutions [ticket_with_bool] → index r ≠ 0%nat.
Proof.
  assert (ticket_with_bool !! "resolution_minutes" = Some (VBool true))
    as Hbool by (vm_compute; reflexivity).
  split; [reflexivity|]. split; [exact Hbool|].
  exact (find_invalid_resolutions_bool [ticket_with_bool] 0%nat
           ticket_with_bool true eq_refl Hbool).
Defined.

(** ** Dictionaries *)

(** [1], [1.0] and [True] are one key, [0.0] and [-0.0] are one key, and
    a string is a key of its own. *)
Lemma dict_key_examples :
  dict_key (VFloat (Prim2SF 1%float)) = dict_key (VInt 1) ∧
  dict_key (VBool true) = dict_key (VInt 1) ∧
  dict_key (VFloat (S754_zero true)) = dict_key (VFloat float_zero) ∧
  dict_key (VFloat (Prim2SF 0x1p+60%float)) = dict_key (VInt (2 ^ 60)) ∧
  dict_key (VStr "1") ≠ dict_key (VInt 1) ∧
  dict_key (VFloat float_2_5) ≠ dict_key (VInt 2) ∧
  py_eq (VFloat S754_nan) (VFloat S754_nan) = false.
Proof. repeat split; try (vm_compute; reflexivity); by vm_compute. Qed.

Section dict.
Context {V : Type}.
Implicit Types (d : pydict V) (k : pyval) (κ : pykey) (v : V).

Lemma key_eqb_true k k' : key_eqb k k' = true ↔ dict_key k = dict_key k'.
Proof. unfold key_eqb. apply bool_decide_eq_true. Qed.

Lemma dict_get_lookup_key d k : dict_get d k = lookup_key d (dict_key k).
Proof.
  induction d as [|[k' v] d IH]; simpl; [done|].
  unfold key_eqb. rewrite IH. destruct (decide _) as [Heq|Hne].
  - by rewrite bool_decide_eq_true_2.
  - by rewrite bool_decide_eq_false_2.
Qed.

Lemma dict_contains_lookup_key d k :
  dict_contains d k = true ↔ is_Some (lookup_key d (dict_key k)).
Proof.
  unfold dict_contains. by rewrite bool_decide_eq_true, dict_get_lookup_key.
Qed.

Lemma lookup_key_dict_set d k v κ :
  lookup_key (dict_set d k v) κ =
  if decide (dict_key k = κ) then Some v else lookup_key d κ.
Proof.
  induction d as [|[k' v'] d IH]; simpl.
  - done.
  - unfold key_eqb. destruct (decide (dict_key k' = dict_key k)) as [Heq|Hne].
    + rewrite bool_decide_eq_true_2 by done. simpl. rewrite Heq.
      by destruct (decide (dict_key k = κ)).
    + rewrite bool_decide_eq_false_2 by done. simpl. rewrite IH.
      destruct (decide (dict_key k' = κ)) as [<-|]; [|done].
      by rewrite decide_False by done.
Qed.

Lemma lookup_key_Some d κ :
  is_Some (lookup_key d κ) ↔ κ ∈ key_classes d.
Proof.
  unfold key_classes. induction d as [|[k v] d IH]; simpl.
  - rewrite elem_of_nil. split; [by intros [? ?]|done].
  - rewrite elem_of_cons, <- IH. destruct (decide (dict_key k = κ)).
    + split; [by left|by eexists].
    + split; [by right|]. by intros [?|?].
Qed.

Lemma lookup_key_elem_of d κ v :
  lookup_key d κ = Some v → ∃ k, (k, v) ∈ d ∧ dict_key k = κ.
Proof.
  induction d as [|[k v'] d IH]; simpl; [done|].
  destruct (decide (dict_key k = κ)).
  - intros [= ->]. exists k. split; [by left|done].
  - intros (k' & Hin & Hk)%IH. exists k'. split; [by right|done].
Qed.

Lemma elem_of_lookup_key d k v :
  NoDup (key_classes d) → (k, v) ∈ d → lookup_key d (dict_key k) = Some v.
Proof.
  unfold key_classes. induction d as [|[k' v'] d IH]; simpl.
  - by intros _ ?%elem_of_nil.
  - intros [Hnotin Hnodup]%NoDup_cons [[= -> ->]|Hin]%elem_of_cons.
    + by rewrite decide_True.
    + rewrite decide_False; [by apply IH|].
      intros Heq. apply Hnotin. rewrite Heq.
      apply list_elem_of_fmap. by exists (k, v).
Qed.

Lemma key_classes_cons d k v :
  key_classes ((k, v) :: d) = dict_key k :: key_classes d.
Proof. done. Qed.

Lemma key_classes_dict_set d k v :
  key_classes (dict_set d k v) =
  if decide (dict_key k ∈ key_classes d) then key_classes d
  else key_classes d ++ [dict_key k].
Proof.
  induction d as [|[k' v'] d IH].
  - case_decide as Hin; [by apply elem_of_nil in Hin|done].
  - simpl dict_set. unfold key_eqb.
    destruct (decide (dict_key k' = dict_key k)) as [Heq|Hne].
    + rewrite bool_decide_eq_true_2 by done. rewrite !key_classes_cons.
      rewrite decide_True; [done|]. rewrite Heq. by left.
    + rewrite bool_decide_eq_false_2 by done. rewrite !key_classes_cons, IH.
      destruct (decide (dict_key k ∈ key_classes d)) as [Hin|Hnotin].
      * rewrite decide_True; [done|]. by right.
      * rewrite decide_False; [done|].
        intros [?|?]%elem_of_cons; [congruence|done].
Qed.

Lemma NoDup_key_classes_dict_set d k v :
  NoDup (key_classes d) → NoDup (key_classes (dict_set d k v)).
Proof.
  intros Hnodup. rewrite key_classes_dict_set.
  destruct (decide _) as [|Hnotin]; [done|].
  apply NoDup_app. split; [done|]. split; [|apply NoDup_singleton].
  intros κ Hin ->%list_elem_of_singleton. done.
Qed.
End dict.

(** ** Aggregator: the averages *)

Lemma contribution_get (t : ticket) :
  contribution t =
  (if isinstance_int_float (get t "resolution_minutes" (VInt 0))
   then Some (get t "resolution_minutes" (VInt 0)) else None).
Proof.
  unfold contribution, get. by destruct (t !! "resolution_minutes") as [[]|].
Qed.

Lemma average_step_skipped st t :
  contribution t = None → average_step st t = Some st.
Proof.
  rewrite contribution_get. unfold average_step.
  by destruct (isinstance_int_float _).
Qed.

(** One iteration on a counted ticket: the statistics of the ticket's
    category gain the ticket's value and one count, all others stay. *)
Lemma average_step_counted st t v :
  contribution t = Some v →
  let base := default no_stats (lookup_key st (dict_key (category t))) in
  match py_add (total base) v with
  | None => average_step st t = None
  | Some tot =>
      ∃ st', average_step st t = Some st' ∧
        (∀ κ, lookup_key st' κ =
              if decide (dict_key (category t) = κ)
              then Some {| total := tot; count := count base + 1 |}
              else lookup_key st κ) ∧
        (NoDup (key_classes st) → NoDup (key_classes st'))
  end.
Proof.
  rewrite contribution_get. unfold average_step.
  change (get t "category" (VStr "Unknown")) with (category t).
  set (cat := category t).
  set (mins := get t "resolution_minutes" (VInt 0)).
  destruct (isinstance_int_float mins); [|done]. intros [= <-].
  cbn [negb]. cbv zeta.
  set (st0 := if negb (dict_contains st cat)
              then dict_set st cat {| total := VInt 0; count := 0 |} else st).
  assert (lookup_key st0 (dict_key cat) =
          Some (default no_stats (lookup_key st (dict_key cat)))) as Hst0.
  { unfold st0. destruct (dict_contains st cat) eqn:Hin; simpl.
    - apply dict_contains_lookup_key in Hin as [data Hdata].
      by rewrite Hdata.
    - rewrite lookup_key_dict_set, decide_True by done.
      destruct (lookup_key st (dict_key cat)) as [data|] eqn:Hdata; [|done].
      assert (dict_contains st cat = true) as Hyes
        by (apply dict_contains_lookup_key; eauto).
      congruence. }
  assert (∀ κ, dict_key cat ≠ κ → lookup_key st0 κ = lookup_key st κ) as Hother.
  { intros κ Hne. unfold st0. destruct (negb _); [|done].
    by rewrite lookup_key_dict_set, decide_False. }
  assert (NoDup (key_classes st) → NoDup (key_classes st0)) as Hnodup.
  { unfold st0. destruct (negb _); [|done].
    apply NoDup_key_classes_dict_set. }
  rewrite dict_get_lookup_key, Hst0. simpl.
  destruct (py_add _ mins) as [tot|]; [|done]. simpl.
  rewrite dict_get_lookup_key, lookup_key_dict_set, decide_True by done.
  simpl. eexists. split; [done|]. split.
  - intros κ. rewrite !lookup_key_dict_set.
    destruct (decide (dict_key cat = κ)); [done|]. by apply Hother.
  - intros Hnd. do 2 apply NoDup_key_classes_dict_set. by apply Hnodup.
Qed.

Lemma group_contributions_cons t tickets κ :
  group_contributions (t :: tickets) κ =
  match contribution t with
  | Some v => if decide (dict_key (category t) = κ)
              then v :: group_contributions tickets κ
              else group_contributions tickets κ
  | None => group_contributions tickets κ
  end.
Proof.
  unfold group_contributions. rewrite filter_cons.
  destruct (decide (dict_key (category t) = κ)); simpl;
    by destruct (contribution t).
Qed.

(** The first loop: the statistics of a category after the loop are
    those before it, plus the sum and the number of the contributions of
    the category's counted tickets. *)
Lemma average_loop_spec tickets : ∀ st st',
  for_each average_step st tickets = Some st' →
  (NoDup (key_classes st) → NoDup (key_classes st')) ∧
  ∀ κ,
    let base := default no_stats (lookup_key st κ) in
    match group_contributions tickets κ with
    | [] => lookup_key st' κ = lookup_key st κ
    | l => ∃ s, for_each py_add (total base) l = Some s ∧
                lookup_key st' κ =
                Some {| total := s;
                        count := count base + Z.of_nat (length l) |}
    end.
Proof.
  induction tickets as [|t tickets IH]; intros st st' Hloop.
  - simpl in Hloop. injection Hloop as <-. done.
  - simpl in Hloop.
    destruct (average_step st t) as [st1|] eqn:Hstep; [|done].
    simpl in Hloop. destruct (IH _ _ Hloop) as [Hnodup IHκ].
    destruct (contribution t) as [v|] eqn:Hcontrib.
    + pose proof (average_step_counted st t v Hcontrib) as Hcounted.
      simpl in Hcounted.
      destruct (py_add _ v) as [tot|] eqn:Hadd; [|congruence].
      destruct Hcounted as (st1' & Hst1' & Hlook & Hnd).
      assert (st1' = st1) as -> by congruence.
      split; [by intros ?%Hnd%Hnodup|].
      intros κ. specialize (IHκ κ). simpl in IHκ. simpl.
      rewrite group_contributions_cons, Hcontrib. rewrite Hlook in IHκ.
      destruct (decide (dict_key (category t) = κ)) as [<-|Hne].
      * simpl in IHκ. simpl. rewrite Hadd. simpl.
        destruct (group_contributions tickets _) as [|w l].
        -- exists tot. split; [done|]. by rewrite IHκ.
        -- destruct IHκ as (s & Hs & ->). exists s. split; [done|].
           f_equal. f_equal. simpl length. lia.
      * done.
    + rewrite average_step_skipped in Hstep by done.
      injection Hstep as <-. split; [done|]. intros κ.
      rewrite group_contributions_cons, Hcontrib. apply IHκ.
Qed.

Lemma average_entry_entry_average acc k data :
  average_entry acc (k, data) =
  (v ← entry_average data; Some (dict_set acc k v)).
Proof.
  unfold average_entry, entry_average. destruct (0 <? count data); [|done].
  destruct (py_truediv _ _) as [q|]; [|done]. simpl.
  by destruct (py_round2 q).
Qed.

(** The second loop: every category of [temp_stats] gets its average. *)
Lemma average_entries_spec st : ∀ acc averages,
  for_each average_entry acc st = Some averages →
  NoDup (key_classes st) →
  ∀ κ, match lookup_key st κ with
       | Some data => ∃ v, entry_average data = Some v ∧
                           lookup_key averages κ = Some v
       | None => lookup_key averages κ = lookup_key acc κ
       end.
Proof.
  induction st as [|[k data] st IH]; intros acc averages Hloop Hnodup κ.
  - simpl in Hloop. by injection Hloop as <-.
  - cbn [for_each] in Hloop. rewrite average_entry_entry_average in Hloop.
    destruct (entry_average data) as [v|] eqn:Hv; [|done]. simpl in Hloop.
    rewrite key_classes_cons in Hnodup.
    apply NoDup_cons in Hnodup as [Hnotin Hnodup].
    specialize (IH _ _ Hloop Hnodup κ). simpl.
    destruct (decide (dict_key k = κ)) as [<-|Hne].
    + destruct (lookup_key st (dict_key k)) eqn:Hlook.
      * destruct Hnotin. apply lookup_key_Some. eauto.
      * exists v. split; [done|].
        by rewrite IH, lookup_key_dict_set, decide_True.
    + destruct (lookup_key st κ); [done|].
      by rewrite IH, lookup_key_dict_set, decide_False.
Qed.

Lemma group_contributions_not_nil tickets κ :
  group_contributions tickets κ ≠ [] ↔
  ∃ t, t ∈ tickets ∧ dict_key (category t) = κ ∧ is_Some (contribution t).
Proof.
  induction tickets as [|t tickets IH].
  - split; [done|]. by intros (t & ?%elem_of_nil & _).
  - rewrite group_contributions_cons. split.
    + intros Hne. destruct (contribution t) as [v|] eqn:Hc;
        [destruct (decide (dict_key (category t) = κ))|].
      * exists t. split; [by left|]. split; [done|]. rewrite Hc. by eexists.
      * apply IH in Hne as (t' & ? & ? & ?). exists t'.
        split; [by right|done].
      * apply IH in Hne as (t' & ? & ? & ?). exists t'.
        split; [by right|done].
    + intros (t' & [->|Hin]%elem_of_cons & Hcat & [v Hv]).
      * by rewrite Hv, decide_True.
      * assert (group_contributions tickets κ ≠ []) as Hne
          by (apply IH; exists t'; eauto).
        destruct (contribution t); [|done]. by destruct (decide _).
Qed.

(** What [temp_stats] holds after the first loop. *)
Lemma temp_stats_spec tickets st :
  for_each average_step [] tickets = Some st →
  NoDup (key_classes st) ∧
  ∀ κ, match group_contributions tickets κ with
       | [] => lookup_key st κ = None
       | l => ∃ s, for_each py_add (VInt 0) l = Some s ∧
                   lookup_key st κ =
                   Some {| total := s; count := Z.of_nat (length l) |}
       end.
Proof.
  intros Hloop. destruct (average_loop_spec _ _ _ Hloop) as [Hnodup Hκ].
  split; [apply Hnodup; constructor|]. intros κ. apply (Hκ κ).
Qed.

(** The first loop raises only when a sum does. *)
Lemma average_loop_defined tickets : ∀ st,
  (∀ κ, is_Some (for_each py_add
                   (total (default no_stats (lookup_key st κ)))
                   (group_contributions tickets κ))) →
  is_Some (for_each average_step st tickets).
Proof.
  induction tickets as [|t tickets IH]; intros st Hsums; [by eexists|].
  cbn [for_each]. destruct (contribution t) as [v|] eqn:Hcontrib.
  - pose proof (average_step_counted st t v Hcontrib) as Hstep.
    simpl in Hstep. pose proof (Hsums (dict_key (category t))) as Hsum.
    rewrite group_contributions_cons, Hcontrib, decide_True in Hsum by done.
    cbn [for_each] in Hsum.
    destruct (py_add _ v) as [tot|] eqn:Hadd; [|by destruct Hsum].
    destruct Hstep as (st1 & -> & Hlook & _). simpl. apply IH.
    intros κ. rewrite Hlook.
    destruct (decide (dict_key (category t) = κ)) as [<-|Hne]; [done|].
    specialize (Hsums κ).
    by rewrite group_contributions_cons, Hcontrib, decide_False in Hsums.
  - rewrite average_step_skipped by done. simpl. apply IH.
    intros κ. specialize (Hsums κ).
    by rewrite group_contributions_cons, Hcontrib in Hsums.
Qed.

(** The second loop raises only when an average does. *)
Lemma average_entries_defined st : ∀ acc,
  (∀ k data, (k, data) ∈ st → is_Some (entry_average data)) →
  is_Some (for_each average_entry acc st).
Proof.
  induction st as [|[k data] st IH]; intros acc Hall; [by eexists|].
  cbn [for_each]. rewrite average_entry_entry_average.
  destruct (Hall k data ltac:(by left)) as [v ->]. simpl.
  apply IH. intros k' data' Hin. apply (Hall k'). by right.
Qed.

Lemma py_truediv_float a b q : py_truediv a b = Some q → ∃ f, q = VFloat f.
Proof.
  unfold py_truediv.
  assert (∀ x y : option spec_float,
            (x ← x; y ← y; VFloat <$> PyFloat.div x y) = Some q →
            ∃ f, q = VFloat f) as Hfloats.
  { intros [x|] [y|]; simpl; try done.
    destruct (PyFloat.div x y); simpl; [|done]. intros [= <-]. eauto. }
  destruct (as_int a) as [x|], (as_int b) as [y|]; try apply Hfloats.
  destruct (y =? 0); [done|].
  destruct (PyFloat.int_truediv x y); simpl; [|done]. intros [= <-]. eauto.
Qed.

(** C1: [get_average_resolution_by_category] groups the tickets by their
    ['category'] field (['Unknown'] when absent); a ticket without
    ['resolution_minutes'] adds 0 and is counted, and a ticket whose value
    is neither an int nor a float is left out of the sum and the count.
    In the mapping it returns, every entry is [round(sum / count, 2)] of
    its group, every category with a counted ticket has such an entry,
    and a category without counted ticket has none.  The function returns
    whenever the sum and the quotient of every group with a counted
    ticket can be computed. *)
Theorem get_average_resolution_by_category_spec (tickets : list ticket) :
  (∀ averages c v,
     get_average_resolution_by_category tickets = Some averages →
     dict_get averages c = Some v →
     ∃ s q, group_sum tickets c = Some s ∧
            0 < group_count tickets c ∧
            py_truediv s (VInt (group_count tickets c)) = Some q ∧
            py_round2 q = Some v) ∧
  (∀ averages c,
     get_average_resolution_by_category tickets = Some averages →
     0 < group_count tickets c →
     ∃ s q v, group_sum tickets c = Some s ∧
              py_truediv s (VInt (group_count tickets c)) = Some q ∧
              py_round2 q = Some v ∧
              dict_get averages c = Some v) ∧
  (∀ averages c,
     get_average_resolution_by_category tickets = Some averages →
     group_count tickets c = 0 →
     dict_get averages c = None) ∧
  (is_Some (get_average_resolution_by_category tickets) ↔
   ∀ c, 0 < group_count tickets c →
        ∃ s q, group_sum tickets c = Some s ∧
               py_truediv s (VInt (group_count tickets c)) = Some q).
Proof.
  unfold get_average_resolution_by_category, group_sum, group_count.
  split; [|split; [|split; [|split]]].
  - intros averages c v Hrun Hget.
    destruct (for_each average_step [] tickets) as [st|] eqn:Hloop; [|done].
    simpl in Hrun. destruct (temp_stats_spec _ _ Hloop) as [Hnodup Hκ].
    rewrite dict_get_lookup_key in Hget.
    pose proof (average_entries_spec _ _ _ Hrun Hnodup (dict_key c))
      as Hentry.
    specialize (Hκ (dict_key c)).
    destruct (group_contributions tickets (dict_key c)) as [|w l].
    + rewrite Hκ in Hentry. simpl in Hentry. congruence.
    + destruct Hκ as (s & Hs & Hlook). rewrite Hlook in Hentry.
      destruct Hentry as (v' & Hv' & Hget').
      assert (v' = v) as -> by congruence.
      unfold entry_average in Hv'. cbn [count total] in Hv'.
      assert (0 < Z.of_nat (length (w :: l))) as Hpos by (simpl; lia).
      rewrite (proj2 (Z.ltb_lt _ _) Hpos) in Hv'.
      destruct (py_truediv s _) as [q|] eqn:Hq; [|done].
      exists s, q. done.
  - intros averages c Hrun Hpos.
    destruct (for_each average_step [] tickets) as [st|] eqn:Hloop; [|done].
    simpl in Hrun. destruct (temp_stats_spec _ _ Hloop) as [Hnodup Hκ].
    pose proof (average_entries_spec _ _ _ Hrun Hnodup (dict_key c))
      as Hentry.
    specialize (Hκ (dict_key c)).
    destruct (group_contributions tickets (dict_key c)) as [|w l];
      [simpl in Hpos; lia|].
    destruct Hκ as (s & Hs & Hlook). rewrite Hlook in Hentry.
    destruct Hentry as (v & Hv & Hget).
    unfold entry_average in Hv. cbn [count total] in Hv.
    rewrite (proj2 (Z.ltb_lt _ _) Hpos) in Hv.
    destruct (py_truediv s _) as [q|] eqn:Hq; [|done].
    exists s, q, v. by rewrite dict_get_lookup_key.
  - intros averages c Hrun Hzero.
    destruct (for_each average_step [] tickets) as [st|] eqn:Hloop; [|done].
    simpl in Hrun. destruct (temp_stats_spec _ _ Hloop) as [Hnodup Hκ].
    pose proof (average_entries_spec _ _ _ Hrun Hnodup (dict_key c))
      as Hentry.
    specialize (Hκ (dict_key c)).
    destruct (group_contributions tickets (dict_key c)) as [|w l];
      [|simpl in Hzero; lia].
    rewrite Hκ in Hentry. by rewrite dict_get_lookup_key, Hentry.
  - intros [averages Hrun] c Hpos.
    destruct (for_each average_step [] tickets) as [st|] eqn:Hloop; [|done].
    simpl in Hrun. destruct (temp_stats_spec _ _ Hloop) as [Hnodup Hκ].
    pose proof (average_entries_spec _ _ _ Hrun Hnodup (dict_key c))
      as Hentry.
    specialize (Hκ (dict_key c)).
    destruct (group_contributions tickets (dict_key c)) as [|w l];
      [simpl in Hpos; lia|].
    destruct Hκ as (s & Hs & Hlook). rewrite Hlook in Hentry.
    destruct Hentry as (v & Hv & _).
    unfold entry_average in Hv. cbn [count total] in Hv.
    rewrite (proj2 (Z.ltb_lt _ _) Hpos) in Hv.
    destruct (py_truediv s _) as [q|] eqn:Hq; [|done]. eauto.
  - intros Hgroups.
    assert (is_Some (for_each average_step [] tickets)) as [st Hloop].
    { apply average_loop_defined. intros κ. simpl.
      destruct (group_contributions tickets κ) as [|w l] eqn:Hgroup;
        [by eexists|].
      assert (group_contributions tickets κ ≠ []) as Hne by congruence.
      apply group_contributions_not_nil in Hne as (t & _ & <- & _).
      destruct (Hgroups (category t)) as (s & _ & Hs & _).
      { rewrite Hgroup. simpl. lia. }
      rewrite Hgroup in Hs. eauto. }
    rewrite Hloop. simpl. apply average_entries_defined.
    intros k data Hin. destruct (temp_stats_spec _ _ Hloop) as [Hnodup Hκ].
    apply (elem_of_lookup_key _ _ _ Hnodup) in Hin.
    specialize (Hκ (dict_key k)). specialize (Hgroups k).
    destruct (group_contributions tickets (dict_key k)) as [|w l];
      [congruence|].
    destruct Hκ as (s & Hs & Hlook). rewrite Hlook in Hin.
    injection Hin as <-.
    assert (0 < Z.of_nat (length (w :: l))) as Hpos by (simpl; lia).
    destruct (Hgroups Hpos) as (s' & q & Hs' & Hq).
    assert (s' = s) as -> by congruence.
    unfold entry_average. cbn [count total].
    change (length (w :: l)) with (S (length l)) in *.
    rewrite (proj2 (Z.ltb_lt _ _) Hpos), Hq. simpl.
    apply py_truediv_float in Hq as [f ->]. by eexists.
Qed.

Lemma get_average_resolution_by_category_spec_witness :
  ∃ s q v, group_sum scenario_B (VStr "A") = Some s ∧
           py_truediv s (VInt (group_count scenario_B (VStr "A"))) = Some q ∧
           py_round2 q = Some v ∧
           dict_get [(VStr "A", VFloat float_15)] (VStr "A") = Some v.
Proof.
  apply (proj1 (proj2 (get_average_resolution_by_category_spec scenario_B))
           [(VStr "A", VFloat float_15)] (VStr "A")).
  - vm_compute. reflexivity.
  - vm_compute. reflexivity.
Defined.

Lemma average_keys tickets averages c :
  get_average_resolution_by_category tickets = Some averages →
  is_Some (dict_get averages c) ↔
  ∃ t, t ∈ tickets ∧ dict_key (category t) = dict_key c ∧
       is_Some (contribution t).
Proof.
  unfold get_average_resolution_by_category. intros Hrun.
  destruct (for_each average_step [] tickets) as [st|] eqn:Hloop; [|done].
  simpl in Hrun. destruct (temp_stats_spec _ _ Hloop) as [Hnodup Hκ].
  pose proof (average_entries_spec _ _ _ Hrun Hnodup (dict_key c)) as Hentry.
  rewrite dict_get_lookup_key, <- group_contributions_not_nil.
  specialize (Hκ (dict_key c)).
  destruct (group_contributions tickets (dict_key c)) as [|w l].
  - rewrite Hκ in Hentry. rewrite Hentry. simpl. split; [by intros [? ?]|done].
  - destruct Hκ as (s & Hs & Hlook). rewrite Hlook in Hentry.
    destruct Hentry as (v & _ & ->). split; [done|by eexists].
Qed.

Lemma temp_stats_counted tickets st c data :
  for_each average_step [] tickets = Some st →
  (c, data) ∈ st → 0 < count data.
Proof.
  intros Hloop Hin. destruct (temp_stats_spec _ _ Hloop) as [Hnodup Hκ].
  apply (elem_of_lookup_key _ _ _ Hnodup) in Hin.
  specialize (Hκ (dict_key c)).
  destruct (group_contributions tickets (dict_key c)) as [|w l].
  - congruence.
  - destruct Hκ as (s & _ & Hlook). rewrite Hlook in Hin.
    injection Hin as <-. simpl. lia.
Qed.

(** C10: every key of the mapping [get_average_resolution_by_category]
    returns is the category of a ticket whose ['resolution_minutes'] is
    numeric or absent; every group of [temp_stats] has a count of at
    least one, so the branch for a zero count is never taken; and a
    category whose tickets all hold a non-numeric value has no entry. *)
Theorem average_keys_counted (tickets : list ticket)
    (averages : pydict pyval) :
  get_average_resolution_by_category tickets = Some averages →
  (∀ c, is_Some (dict_get averages c) ↔
        ∃ t, t ∈ tickets ∧ dict_key (category t) = dict_key c ∧
             is_Some (contribution t)) ∧
  (∀ st, for_each average_step [] tickets = Some st →
         ∀ c data, (c, data) ∈ st → 1 ≤ count data) ∧
  (∀ c, (∀ t, t ∈ tickets → dict_key (category t) = dict_key c →
              contribution t = None) →
        dict_get averages c = None).
Proof.
  intros Hrun. split; [|split].
  - intros c. by apply average_keys.
  - intros st Hloop c data Hin.
    pose proof (temp_stats_counted _ _ _ _ Hloop Hin). lia.
  - intros c Hnone. apply eq_None_not_Some.
    intros (t & Hin & Hcat & Hsome)%(average_keys _ _ _ Hrun).
    rewrite (Hnone t Hin Hcat) in Hsome. by destruct Hsome.
Qed.

Lemma average_keys_counted_witness :
  (∀ c, is_Some (dict_get [(VStr "A", VFloat float_10)] c) ↔
        ∃ t, t ∈ scenario_mixed ∧ dict_key (category t) = dict_key c ∧
             is_Some (contribution t)) ∧
  (∀ st, for_each average_step [] scenario_mixed = Some st →
         ∀ c data, (c, data) ∈ st → 1 ≤ count data) ∧
  (∀ c, (∀ t, t ∈ scenario_mixed → dict_key (category t) = dict_key c →
              contribution t = None) →
        dict_get [(VStr "A", VFloat float_10)] c = None).
Proof.
  apply (average_keys_counted scenario_mixed [(VStr "A", VFloat float_10)]).
  vm_compute. reflexivity.
Defined.

(** C3, as the specification states it, fails: on scenario D the mapping
    of averages has no entry for ['Unknown'], so none equal to 0. *)
Lemma scenario_D_no_unknown_average :
  ¬ (find_invalid_resolutions scenario_D = [scenario_D_record] ∧
     ∃ averages v,
       get_average_resolution_by_category scenario_D = Some averages ∧
       dict_get averages (VStr "Unknown") = Some v ∧
       py_eq v (VInt 0) = true).
Proof.
  intros [_ (averages & v & Hrun & Hget & _)].
  vm_compute in Hrun. injection Hrun as <-. discriminate Hget.
Qed.

(** C3, amended: on scenario D, [find_invalid_resolutions] returns the
    one entry with issue type ['Wrong Type'] and invalid value ['bad'],
    and [get_average_resolution_by_category] leaves the ticket out and
    returns the empty mapping: ['Unknown'] has no entry. *)
Theorem scenario_D_spec :
  find_invalid_resolutions scenario_D = [scenario_D_record] ∧
  issue_type scenario_D_record = "Wrong Type" ∧
  invalid_value scenario_D_record = VStr "bad" ∧
  get_average_resolution_by_category scenario_D = Some [] ∧
  for_each average_step [] scenario_D = Some [] ∧
  group_contributions scenario_D (dict_key (VStr "Unknown")) = [].
Proof. repeat split; vm_compute; reflexivity. Qed.

Lemma group_contributions_app l1 l2 κ :
  group_contributions (l1 ++ l2) κ =
  group_contributions l1 κ ++ group_contributions l2 κ.
Proof.
  unfold group_contributions. by rewrite filter_app, omap_app.
Qed.

(** C9, as the specification states it, fails: in the input whose first
    ticket holds [10 ** 400] and whose second ticket holds [2.5], the
    second ticket is in no sum and no count: adding its value to the sum
    of the first raises [OverflowError], and the loop ends there. *)
Lemma float_resolution_not_averaged :
  ¬ (∀ i t f,
       scenario_float_overflow !! i = Some t →
       t !! "resolution_minutes" = Some (VFloat f) →
       (∃ r, r ∈ find_invalid_resolutions scenario_float_overflow ∧
             index r = i ∧ issue_type r = "Wrong Type") ∧
       ∃ st data,
         for_each average_step [] scenario_float_overflow = Some st ∧
         dict_get st (category t) = Some data ∧
         1 ≤ count data).
Proof.
  intros Hclaim.
  destruct (Hclaim 1%nat ticket_float_only float_2_5) as [_ Hsum].
  - reflexivity.
  - vm_compute. reflexivity.
  - destruct Hsum as (st & data & Hloop & _).
    vm_compute in Hloop. discriminate Hloop.
Qed.

(** C9, amended: a ticket whose ['resolution_minutes'] is a float is
    reported by [find_invalid_resolutions] with issue type ['Wrong Type'];
    and whenever the first loop of [get_average_resolution_by_category]
    ends without [OverflowError], the loop has added the ticket's value
    to the sum of its category and counted it, and whenever the function
    returns, the category has an average: the integers of the validator
    are among the numbers of the aggregator, and a float is one of the
    latter only. *)
Theorem float_resolution_flagged_yet_averaged (tickets : list ticket)
    (i : nat) (t : ticket) (f : spec_float) :
  tickets !! i = Some t →
  t !! "resolution_minutes" = Some (VFloat f) →
  (∃ r, r ∈ find_invalid_resolutions tickets ∧ index r = i ∧
        invalid_value r = VFloat f ∧ issue_type r = "Wrong Type") ∧
  (∀ st, for_each average_step [] tickets = Some st →
     ∃ data,
       dict_get st (category t) = Some data ∧
       for_each py_add (VInt 0)
         (group_contributions (take i tickets) (dict_key (category t)) ++
          VFloat f ::
          group_contributions (drop (S i) tickets) (dict_key (category t)))
       = Some (total data) ∧
       count data =
         Z.of_nat (length (group_contributions (take i tickets)
                             (dict_key (category t)))) + 1 +
         Z.of_nat (length (group_contributions (drop (S i) tickets)
                             (dict_key (category t))))) ∧
  (∀ averages, get_average_resolution_by_category tickets = Some averages →
               is_Some (dict_get averages (category t))) ∧
  (∀ v, isinstance_int v = true → isinstance_int_float v = true) ∧
  isinstance_int (VFloat f) = false ∧
  isinstance_int_float (VFloat f) = true.
Proof.
  intros Hlook Hfloat.
  assert (contribution t = Some (VFloat f)) as Hcontrib
    by (unfold contribution; by rewrite Hfloat).
  split; [|split; [|split; [|split; [|done]]]].
  - exists {| index := i;
              ticket_id := get t "ticket_id" (VStr "UNKNOWN");
              invalid_value := VFloat f;
              issue_type := "Wrong Type" |}.
    split; [|done].
    apply elem_of_find_invalid_resolutions. exists t. simpl.
    split; [done|]. unfold keep_invalid, get. simpl. by rewrite Hfloat.
  - intros st Hloop. destruct (temp_stats_spec _ _ Hloop) as [_ Hκ].
    specialize (Hκ (dict_key (category t))).
    set (before := group_contributions (take i tickets) _) in *.
    set (after := group_contributions (drop (S i) tickets) _) in *.
    assert (group_contributions tickets (dict_key (category t)) =
            before ++ VFloat f :: after) as Hgroup.
    { rewrite <- (take_drop_middle _ _ _ Hlook) at 1.
      rewrite group_contributions_app, group_contributions_cons.
      by rewrite Hcontrib, decide_True. }
    rewrite Hgroup in Hκ.
    destruct (before ++ VFloat f :: after) as [|w l] eqn:Hl.
    { by destruct before. }
    destruct Hκ as (s & Hs & Hdata). eexists.
    split; [by rewrite dict_get_lookup_key|]. split; [done|]. simpl count.
    apply (f_equal length) in Hl. rewrite length_app in Hl.
    simpl length in *. lia.
  - intros averages Hrun. apply (average_keys _ _ _ Hrun).
    exists t. split; [by eapply list_elem_of_lookup_2|].
    split; [done|]. rewrite Hcontrib. by eexists.
  - by intros [].
Qed.

Lemma float_resolution_flagged_yet_averaged_witness :
  (∃ r, r ∈ find_invalid_resolutions scenario_float ∧ index r = 1%nat ∧
        invalid_value r = VFloat float_2_5 ∧ issue_type r = "Wrong Type") ∧
  (∀ st, for_each average_step [] scenario_float = Some st →
     ∃ data,
       dict_get st (category ticket_with_float) = Some data ∧
       for_each py_add (VInt 0)
         (group_contributions (take 1 scenario_float)
            (dict_key (category ticket_with_float)) ++
          VFloat float_2_5 ::
          group_contributions (drop 2 scenario_float)
            (dict_key (category ticket_with_float)))
       = Some (total data) ∧
       count data =
         Z.of_nat (length (group_contributions (take 1 scenario_float)
                             (dict_key (category ticket_with_float)))) + 1 +
         Z.of_nat (length (group_contributions (drop 2 scenario_float)
                             (dict_key (category ticket_with_float))))) ∧
  (∀ averages,
     get_average_resolution_by_category scenario_float = Some averages →
     is_Some (dict_get averages (category ticket_with_float))) ∧
  (∀ v, isinstance_int v = true → isinstance_int_float v = true) ∧
  isinstance_int (VFloat float_2_5) = false ∧
  isinstance_int_float (VFloat float_2_5) = true.
Proof.
  apply (float_resolution_flagged_yet_averaged scenario_float 1
           ticket_with_float float_2_5).
  - reflexivity.
  - vm_compute. reflexivity.
Defined.

(** ** Rounding to a float stays below a small integer bound *)

(** A rational between 0 and the integer [B] rounds to an integer
    between 0 and [B]. *)
Lemma round_half_even_bounds n d B :
  0 < d → 0 ≤ n → n ≤ B * d →
  0 ≤ PyFloat.round_half_even n d ≤ B.
Proof.
  intros Hd Hn HB. unfold PyFloat.round_half_even.
  pose proof (Z.div_mod n d ltac:(lia)) as Hdiv.
  pose proof (Z.mod_pos_bound n d Hd) as Hmod.
  assert (0 ≤ n / d) as Hq by (apply Z.div_pos; lia).
  assert (n / d ≤ B) as HqB by (apply Z.div_le_upper_bound; lia).
  destruct (Z.compare_spec (2 * (n mod d)) d) as [Heq|Hlt|Hgt].
  - destruct (Z.even (n / d)); [lia|]. nia.
  - lia.
  - nia.
Qed.

(** The lower bound of [log2_ratio], for a ratio of at least 1. *)
Lemma log2_ratio_lower n d :
  0 < n → 0 < d → 0 ≤ PyFloat.log2_ratio n d →
  d * 2 ^ PyFloat.log2_ratio n d ≤ n.
Proof.
  intros Hn Hd. unfold PyFloat.log2_ratio.
  set (l := Z.log2 n - Z.log2 d).
  destruct (Z.log2_spec n Hn) as [Hn1 Hn2].
  destruct (Z.log2_spec d Hd) as [Hd1 Hd2].
  destruct (0 <=? l) eqn:Hl.
  - apply Z.leb_le in Hl. destruct (d * 2 ^ l <=? n) eqn:Htest.
    + intros _. by apply Z.leb_le.
    + intros Hl1.
      assert (2 ^ Z.log2 n = 2 ^ Z.succ (Z.log2 d) * 2 ^ (l - 1)) as Hpow.
      { rewrite <- Z.pow_add_r by (pose proof (Z.log2_nonneg d); lia).
        f_equal. lia. }
      assert (0 < 2 ^ (l - 1)) by (apply Z.pow_pos_nonneg; lia). nia.
  - apply Z.leb_gt in Hl. destruct (d <=? n * 2 ^ (- l)); lia.
Qed.

Lemma finite_value_le (m : positive) (e B : Z) :
  e ≤ 0 → Zpos m ≤ B * 2 ^ (- e) →
  (PyFloat.finite_value false m e <= inject_Z B)%Q.
Proof.
  intros He Hm. unfold PyFloat.finite_value, Qle. destruct e as [|p|p].
  - simpl in *. lia.
  - lia.
  - cbn [Qnum Qden inject_Z]. rewrite Pos2Z.inj_pow.
    change (- Z.neg p) with (Z.pos p) in Hm. lia.
Qed.

(** A rational of at most [B <= 2 ^ 52] rounds to at most [B]: the
    integers up to [2 ^ 52] are floats. *)
Lemma round_pos_le n d B :
  0 < n → 0 < d → n ≤ B * d → B ≤ 2 ^ 52 →
  rounded_le (PyFloat.round_pos n d) B.
Proof.
  intros Hn Hd HB HB52. unfold PyFloat.round_pos.
  set (e := Z.max (PyFloat.log2_ratio n d - 52) (-1074)).
  assert (0 < B) as HBpos by nia.
  assert (e ≤ 0) as He.
  { destruct (decide (e ≤ 0)) as [|Hpos]; [done|]. exfalso.
    assert (53 ≤ PyFloat.log2_ratio n d) as Hlog by lia.
    pose proof (log2_ratio_lower n d Hn Hd ltac:(lia)) as Hlow.
    assert (2 ^ 53 ≤ 2 ^ PyFloat.log2_ratio n d)
      by (apply Z.pow_le_mono_r; lia).
    assert (2 ^ 52 < 2 ^ 53) by (apply Z.pow_lt_mono_r; lia). nia. }
  assert (0 < 2 ^ (- e)) as Hpow by (apply Z.pow_pos_nonneg; lia).
  set (m := if 0 <=? e then PyFloat.round_half_even n (d * 2 ^ e)
            else PyFloat.round_half_even (n * 2 ^ (- e)) d).
  assert (0 ≤ m ≤ B * 2 ^ (- e)) as Hm.
  { unfold m. destruct (0 <=? e) eqn:He0.
    - apply Z.leb_le in He0. assert (e = 0) as -> by lia.
      change (2 ^ 0) with 1. change (2 ^ (- 0)) with 1.
      rewrite !Z.mul_1_r. apply round_half_even_bounds; lia.
    - apply round_half_even_bounds; [lia|nia|nia]. }
  destruct (m =? 2 ^ 53) eqn:Hm53.
  - apply Z.eqb_eq in Hm53.
    assert (e ≤ -1) as He1.
    { destruct (decide (e ≤ -1)) as [|Hno]; [done|]. exfalso.
      assert (e = 0) as He0 by lia. rewrite He0 in Hm.
      change (2 ^ (- 0)) with 1 in Hm.
      assert (2 ^ 52 < 2 ^ 53) by (apply Z.pow_lt_mono_r; lia). lia. }
    change (2 ^ 52 =? 0) with false. cbn iota.
    destruct (971 <? e + 1) eqn:Hover; [apply Z.ltb_lt in Hover; lia|].
    simpl. apply finite_value_le; [lia|].
    change (Z.pos (Z.to_pos (2 ^ 52))) with (2 ^ 52).
    assert (2 ^ (- e) = 2 * 2 ^ (- (e + 1))) as Hsplit.
    { rewrite <- Z.pow_succ_r by lia. f_equal. lia. }
    change (2 ^ 53) with (2 * 2 ^ 52) in Hm53. nia.
  - apply Z.eqb_neq in Hm53. destruct (m =? 0) eqn:Hm0; [done|].
    apply Z.eqb_neq in Hm0.
    destruct (971 <? e) eqn:Hover; [apply Z.ltb_lt in Hover; lia|].
    simpl. apply finite_value_le; [done|]. rewrite Z2Pos.id by lia. lia.
Qed.

Lemma finite_value_pos (m : positive) (e : Z) :
  (0 <= PyFloat.finite_value false m e)%Q.
Proof.
  unfold PyFloat.finite_value, Qle. destruct e; cbn [Qnum Qden]; lia.
Qed.

Lemma float_in_of_rounded (r : PyFloat.rounded) (B : Z) :
  0 ≤ B → rounded_le r B → float_in (PyFloat.of_rounded false r) B.
Proof.
  intros HB Hr. destruct r as [|m e|]; simpl in *.
  - exists 0%Q. split; [done|]. unfold Qle. simpl. lia.
  - eexists. split; [done|]. split; [apply finite_value_pos|done].
  - done.
Qed.

Lemma float_in_round_Q (zero_sign : bool) (q : Q) (B : Z) :
  (0 <= q)%Q → (q <= inject_Z B)%Q → B ≤ 2 ^ 52 →
  float_in (PyFloat.round_Q zero_sign q) B.
Proof.
  destruct q as [n d]. unfold Qle, PyFloat.round_Q. cbn [Qnum Qden inject_Z].
  intros Hq HB HB52. destruct n as [|n|n].
  - exists 0%Q. split; [done|]. unfold Qle. simpl. lia.
  - apply float_in_of_rounded; [nia|]. apply round_pos_le; lia.
  - lia.
Qed.

Lemma float_in_not_infinity f B :
  float_in f B → PyFloat.is_infinity f = false.
Proof. intros (q & Hq & _). by destruct f. Qed.

(** [critical / total], on the counts of a loop, is a float between 0
    and 1. *)
Lemma int_truediv_counts (critical total : Z) :
  0 ≤ critical ≤ total → 0 < total →
  ∃ f, PyFloat.int_truediv critical total = Some f ∧ float_in f 1.
Proof.
  intros Hc Ht. unfold PyFloat.int_truediv.
  replace (critical <? 0) with false by (symmetry; apply Z.ltb_ge; lia).
  replace (total <? 0) with false by (symmetry; apply Z.ltb_ge; lia).
  simpl xorb. destruct (critical =? 0) eqn:Hzero.
  - eexists. split; [done|]. exists 0%Q. by split.
  - apply Z.eqb_neq in Hzero. rewrite !Z.abs_eq by lia.
    assert (float_in (PyFloat.of_rounded false
                        (PyFloat.round_pos critical total)) 1) as Hin.
    { apply float_in_of_rounded; [lia|]. apply round_pos_le; lia. }
    rewrite (float_in_not_infinity _ _ Hin). eauto.
Qed.

(** [x * 100] is between 0 and 100 when [x] is between 0 and 1. *)
Lemma float_in_mul_100 (x : spec_float) :
  float_in x 1 → float_in (PyFloat.mul x float_100) 100.
Proof.
  intros (q & Hq & Hq0 & Hq1). destruct x as [s|s| |s m e]; try done.
  - simpl. exists 0%Q. by split.
  - simpl in Hq. injection Hq as <-. unfold float_100, PyFloat.mul.
    set (v := PyFloat.finite_value s m e) in *.
    change (PyFloat.finite_value false 7036874417766400 (-46))
      with (7036874417766400 # 70368744177664).
    apply float_in_round_Q; [| |lia].
    + revert Hq0. unfold Qle. simpl. lia.
    + revert Hq1. unfold Qle. simpl. lia.
Qed.

(** [round(y, 2)] is between 0 and 100 when [y] is. *)
Lemma float_in_round2 (y : spec_float) :
  float_in y 100 → float_in (PyFloat.round2 y) 100.
Proof.
  intros (q & Hq & Hq0 & Hq1). destruct y as [s|s| |s m e]; try done.
  - simpl. exists 0%Q. by split.
  - simpl in Hq. injection Hq as <-. unfold PyFloat.round2.
    set (v := PyFloat.finite_value s m e) in *.
    assert (0 ≤ PyFloat.round_half_even (Qnum v * 100) (Z.pos (Qden v))
              ≤ 10000) as Hk.
    { revert Hq0 Hq1. unfold Qle. simpl. intros Hq0 Hq1.
      apply round_half_even_bounds; lia. }
    apply float_in_round_Q; [| |lia].
    + unfold Qle. simpl. lia.
    + unfold Qle. simpl. lia.
Qed.

(** The percentage of the critical tickets among a positive number of
    tickets is computed without error and is a float between 0 and
    100. *)
Lemma percentage_counts (critical total : Z) :
  0 ≤ critical ≤ total → 0 < total →
  ∃ f, percentage critical total = Some (VFloat f) ∧ float_in f 100.
Proof.
  intros Hc Ht. unfold percentage, py_truediv. cbn [as_int].
  replace (total =? 0) with false by (symmetry; apply Z.eqb_neq; lia).
  destruct (int_truediv_counts _ _ Hc Ht) as (x & -> & Hx). simpl.
  unfold py_mul. cbn [as_int as_float].
  change (PyFloat.of_int 100) with (Some float_100). simpl.
  eexists. split; [done|]. by apply float_in_round2, float_in_mul_100.
Qed.

(** ** Aggregator: the escalation rates *)

Lemma py_eq_Critical (v : pyval) :
  py_eq v (VStr "Critical") =
  match v with VStr s => bool_decide (s = "Critical") | _ => false end.
Proof.
  unfold py_eq, key_eqb.
  destruct v as [|b|z|[s|s| |s m e]|s]; simpl; try done;
    try (apply bool_decide_eq_false_2; discriminate).
  apply bool_decide_ext. split; congruence.
Qed.

Lemma is_critical_get (t : ticket) :
  py_eq (get t "priority" (VStr "Low")) (VStr "Critical") = is_critical t.
Proof.
  rewrite py_eq_Critical. unfold get, is_critical.
  by destruct (t !! "priority") as [[]|].
Qed.

Lemma critical_count_cons t l :
  critical_count (t :: l) =
  (if is_critical t then 1 else 0) + critical_count l.
Proof.
  unfold critical_count. rewrite filter_cons.
  destruct (is_critical t).
  - rewrite decide_True by done. simpl length. lia.
  - rewrite decide_False by done. lia.
Qed.

Lemma critical_count_bounds l : 0 ≤ critical_count l ≤ Z.of_nat (length l).
Proof.
  induction l as [|t l IH]; [done|]. rewrite critical_count_cons.
  simpl length. destruct (is_critical t); lia.
Qed.

Lemma category_group_cons t tickets κ :
  category_group (t :: tickets) κ =
  if decide (dict_key (category t) = κ) then t :: category_group tickets κ
  else category_group tickets κ.
Proof. unfold category_group. by rewrite filter_cons. Qed.

(** One iteration of the counting loop. *)
Lemma escalation_step_spec st t :
  let base := default no_counts
                (lookup_key (category_counts st) (dict_key (category t))) in
  let crit := if is_critical t then 1 else 0 in
  ∃ st', escalation_step st t = Some st' ∧
    total_tickets st' = total_tickets st + 1 ∧
    total_critical st' = total_critical st + crit ∧
    (∀ κ, lookup_key (category_counts st') κ =
          if decide (dict_key (category t) = κ)
          then Some {| tickets_total := tickets_total base + 1;
                       critical := critical base + crit |}
          else lookup_key (category_counts st) κ) ∧
    (NoDup (key_classes (category_counts st)) →
     NoDup (key_classes (category_counts st'))).
Proof.
  unfold escalation_step. rewrite is_critical_get.
  change (get t "category" (VStr "Unknown")) with (category t).
  set (cat := category t). set (crit := if is_critical t then 1 else 0).
  cbv zeta.
  set (cc0 := if negb (dict_contains (category_counts st) cat)
              then dict_set (category_counts st) cat
                     {| tickets_total := 0; critical := 0 |}
              else category_counts st).
  assert (lookup_key cc0 (dict_key cat) =
          Some (default no_counts
                  (lookup_key (category_counts st) (dict_key cat)))) as Hcc0.
  { unfold cc0. destruct (dict_contains (category_counts st) cat) eqn:Hin;
      simpl.
    - apply dict_contains_lookup_key in Hin as [data Hdata].
      by rewrite Hdata.
    - rewrite lookup_key_dict_set, decide_True by done.
      destruct (lookup_key (category_counts st) (dict_key cat))
        as [data|] eqn:Hdata; [|done].
      assert (dict_contains (category_counts st) cat = true) as Hyes
        by (apply dict_contains_lookup_key; eauto).
      congruence. }
  assert (∀ κ, dict_key cat ≠ κ →
               lookup_key cc0 κ = lookup_key (category_counts st) κ)
    as Hother.
  { intros κ Hne. unfold cc0. destruct (negb _); [|done].
    by rewrite lookup_key_dict_set, decide_False. }
  assert (NoDup (key_classes (category_counts st)) →
          NoDup (key_classes cc0)) as Hnodup.
  { unfold cc0. destruct (negb _); [|done].
    apply NoDup_key_classes_dict_set. }
  rewrite dict_get_lookup_key, Hcc0. simpl.
  rewrite dict_get_lookup_key, lookup_key_dict_set, decide_True by done.
  simpl. eexists. split; [done|]. simpl.
  split; [done|]. split; [done|]. split.
  - intros κ. rewrite !lookup_key_dict_set.
    destruct (decide (dict_key cat = κ)); [done|]. by apply Hother.
  - intros Hnd. do 2 apply NoDup_key_classes_dict_set. by apply Hnodup.
Qed.

(** The counting loop never raises; it counts the tickets and the
    critical ones, overall and per category. *)
Lemma escalation_loop_spec tickets : ∀ st,
  ∃ st', for_each escalation_step st tickets = Some st' ∧
    total_tickets st' = total_tickets st + Z.of_nat (length tickets) ∧
    total_critical st' = total_critical st + critical_count tickets ∧
    (NoDup (key_classes (category_counts st)) →
     NoDup (key_classes (category_counts st'))) ∧
    ∀ κ,
      let base := default no_counts (lookup_key (category_counts st) κ) in
      lookup_key (category_counts st') κ =
      match category_group tickets κ with
      | [] => lookup_key (category_counts st) κ
      | g => Some {| tickets_total :=
                       tickets_total base + Z.of_nat (length g);
                     critical := critical base + critical_count g |}
      end.
Proof.
  induction tickets as [|t tickets IH]; intros st.
  - exists st. simpl. unfold critical_count. simpl.
    repeat split; try done; lia.
  - destruct (escalation_step_spec st t)
      as (st1 & Hstep & Htotal & Hcrit & Hlook & Hnd).
    destruct (IH st1) as (st' & Hloop & Htotal' & Hcrit' & Hnd' & Hlook').
    exists st'. cbn [for_each]. rewrite Hstep. simpl.
    split; [done|]. split; [simpl length; lia|].
    split; [rewrite critical_count_cons; lia|].
    split; [by intros ?%Hnd%Hnd'|].
    intros κ. simpl. rewrite (Hlook' κ), category_group_cons, (Hlook κ).
    destruct (decide (dict_key (category t) = κ)) as [<-|Hne]; [|done].
    simpl. destruct (category_group tickets _) as [|t' g].
    + f_equal. rewrite critical_count_cons.
      change (critical_count []) with 0. f_equal; simpl length; lia.
    + f_equal. rewrite (critical_count_cons t). f_equal; simpl length; lia.
Qed.

Lemma escalation_entry_counted r k data :
  0 < tickets_total data →
  escalation_entry r (k, data) =
  (pct ← percentage (critical data) (tickets_total data);
   Some {| overall_rate := overall_rate r;
           by_category := dict_set (by_category r) k pct |}).
Proof.
  intros Hpos. unfold escalation_entry.
  by rewrite (proj2 (Z.ltb_lt _ _) Hpos).
Qed.

(** The second loop: every category gets its percentage. *)
Lemma escalation_entries_spec ccs : ∀ r,
  (∀ k data, (k, data) ∈ ccs →
             0 < tickets_total data ∧
             0 ≤ critical data ≤ tickets_total data) →
  NoDup (key_classes ccs) →
  ∃ r', for_each escalation_entry r ccs = Some r' ∧
    overall_rate r' = overall_rate r ∧
    ∀ κ, lookup_key (by_category r') κ =
         match lookup_key ccs κ with
         | Some data => percentage (critical data) (tickets_total data)
         | None => lookup_key (by_category r) κ
         end.
Proof.
  induction ccs as [|[k data] ccs IH]; intros r Hcounts Hnodup.
  - exists r. done.
  - rewrite key_classes_cons in Hnodup.
    apply NoDup_cons in Hnodup as [Hnotin Hnodup].
    destruct (Hcounts k data ltac:(by left)) as [Hpos Hcrit].
    destruct (percentage_counts _ _ Hcrit Hpos) as (f & Hpct & _).
    cbn [for_each]. rewrite (escalation_entry_counted _ _ _ Hpos), Hpct.
    simpl.
    destruct (IH {| overall_rate := overall_rate r;
                    by_category := dict_set (by_category r) k (VFloat f) |})
      as (r' & Hloop & Hoverall & Hlook).
    { intros k' data' Hin. apply (Hcounts k'). by right. }
    { done. }
    rewrite Hloop. exists r'. split; [done|]. split; [done|].
    intros κ. rewrite Hlook. simpl.
    destruct (decide (dict_key k = κ)) as [<-|Hne].
    + destruct (lookup_key ccs (dict_key k)) eqn:Hin.
      * destruct Hnotin. apply lookup_key_Some. eauto.
      * by rewrite lookup_key_dict_set, decide_True.
    + destruct (lookup_key ccs κ); [done|].
      by rewrite lookup_key_dict_set, decide_False.
Qed.

(** A run of [get_escalation_rates]: it returns, and what it returns. *)
Lemma get_escalation_rates_run tickets :
  ∃ r, get_escalation_rates tickets = Some r ∧
    match tickets with
    | [] => overall_rate r = VFloat float_zero
    | _ => percentage (critical_count tickets) (Z.of_nat (length tickets))
           = Some (overall_rate r)
    end ∧
    ∀ κ, lookup_key (by_category r) κ =
         match category_group tickets κ with
         | [] => None
         | g => percentage (critical_count g) (Z.of_nat (length g))
         end.
Proof.
  unfold get_escalation_rates.
  destruct (escalation_loop_spec tickets
              {| category_counts := []; total_tickets := 0;
                 total_critical := 0 |})
    as (st & -> & Htotal & Hcrit & Hnodup & Hlook).
  simpl in Htotal, Hcrit, Hnodup, Hlook. simpl.
  rewrite Z.add_0_l in Htotal, Hcrit. rewrite Htotal, Hcrit.
  specialize (Hnodup ltac:(constructor)).
  assert (∀ k data, (k, data) ∈ category_counts st →
            0 < tickets_total data ∧
            0 ≤ critical data ≤ tickets_total data) as Hcounts.
  { intros k data Hin%(elem_of_lookup_key _ _ _ Hnodup).
    rewrite Hlook in Hin.
    destruct (category_group tickets (dict_key k)) as [|t g]; [done|].
    injection Hin as <-. simpl tickets_total. simpl critical.
    pose proof (critical_count_bounds (t :: g)). simpl length in *. lia. }
  assert (∀ κ,
    match lookup_key (category_counts st) κ with
    | Some data => percentage (critical data) (tickets_total data)
    | None => None
    end =
    match category_group tickets κ with
    | [] => None
    | g => percentage (critical_count g) (Z.of_nat (length g))
    end) as Hcat.
  { intros κ. rewrite Hlook. by destruct (category_group tickets κ). }
  destruct tickets as [|t tickets].
  - simpl.
    edestruct (escalation_entries_spec (category_counts st))
      as (r & -> & Hoverall & Hby); [done..|].
    exists r. split; [done|]. split; [done|].
    intros κ. rewrite Hby. apply Hcat.
  - assert (0 < Z.of_nat (length (t :: tickets))) as Hpos
      by (simpl length; lia).
    rewrite (proj2 (Z.ltb_lt _ _) Hpos).
    destruct (percentage_counts _ _ (critical_count_bounds (t :: tickets))
                Hpos) as (f & Hpct & _).
    rewrite Hpct. simpl.
    edestruct (escalation_entries_spec (category_counts st))
      as (r & -> & Hoverall & Hby); [done..|].
    exists r. split; [done|]. split; [by rewrite Hoverall|].
    intros κ. rewrite Hby. apply Hcat.
Qed.

(** The expression of the code, [round((critical / total) * 100, 2)]
    evaluated by its three operations, is the rate of the
    specification. *)
Lemma percentage_rate (critical total : Z) :
  total ≠ 0 → percentage critical total = rate critical total.
Proof.
  intros Hne. unfold percentage, rate, py_truediv. cbn [as_int].
  rewrite (proj2 (Z.eqb_neq _ _) Hne).
  destruct (PyFloat.int_truediv critical total) as [q|]; [|done].
  cbn [fmap option_fmap option_map mbind option_bind].
  unfold py_mul. cbn [as_int as_float].
  by change (PyFloat.of_int 100) with (Some float_100).
Qed.

(** The rate of the specification on some counts, against the floats of
    the kernel: 1 of 2 is [50.0], 1 of 3 is [33.33], 2 of 3 is [66.67],
    1 of 8 is [12.5], 0 of 5 is [0.0] and 7 of 7 is [100.0]. *)
Lemma rate_examples :
  rate 1 2 = Some (VFloat (Prim2SF 50%float)) ∧
  rate 1 3 = Some (VFloat (Prim2SF (3333 / 100)%float)) ∧
  rate 2 3 = Some (VFloat (Prim2SF (6667 / 100)%float)) ∧
  rate 1 8 = Some (VFloat (Prim2SF 12.5%float)) ∧
  rate 0 5 = Some (VFloat (Prim2SF 0%float)) ∧
  rate 7 7 = Some (VFloat (Prim2SF 100%float)) ∧
  rate 0 0 = Some (VFloat (Prim2SF 0%float)).
Proof. repeat split; vm_compute; reflexivity. Qed.

(** C2: [get_escalation_rates] counts a ticket as critical exactly when
    its ['priority'] is ['Critical'], and returns
    [round(critical / total * 100, 2)] as the overall rate ([0.0] without
    tickets) and, for each category (['Unknown'] when absent), the rate
    of the category's tickets computed the same way.  The rate is the
    one of the specification, [rate], which is defined without the
    code. *)
Theorem get_escalation_rates_spec (tickets : list ticket) :
  ∃ r, get_escalation_rates tickets = Some r ∧
    rate (critical_count tickets) (Z.of_nat (length tickets))
    = Some (overall_rate r) ∧
    ∀ c, dict_get (by_category r) c =
         match category_group tickets (dict_key c) with
         | [] => None
         | g => rate (critical_count g) (Z.of_nat (length g))
         end.
Proof.
  destruct (get_escalation_rates_run tickets) as (r & Hrun & Hoverall & Hby).
  exists r. split; [done|]. split.
  - destruct tickets as [|t tickets].
    + unfold rate. simpl. by rewrite Hoverall.
    + rewrite <- percentage_rate; [done|]. simpl length. lia.
  - intros c. rewrite dict_get_lookup_key, Hby.
    destruct (category_group tickets (dict_key c)) as [|t g]; [done|].
    cbv zeta. apply percentage_rate. simpl length. lia.
Qed.

(** C8: the overall rate [get_escalation_rates] returns is a float
    between 0 and 100; without tickets, [get_escalation_rates] returns an
    overall rate of [0.0] and no category, and
    [get_average_resolution_by_category] returns the empty mapping. *)
Theorem overall_rate_range (tickets : list ticket) :
  (∃ r f, get_escalation_rates tickets = Some r ∧
          overall_rate r = VFloat f ∧ float_in f 100) ∧
  get_escalation_rates [] =
    Some {| overall_rate := VFloat float_zero; by_category := [] |} ∧
  get_average_resolution_by_category [] = Some [].
Proof.
  split; [|done].
  destruct (get_escalation_rates_run tickets) as (r & Hrun & Hoverall & _).
  exists r. destruct tickets as [|t tickets].
  - exists float_zero. split; [done|]. split; [done|].
    exists 0%Q. by split.
  - assert (0 < Z.of_nat (length (t :: tickets))) as Hpos
      by (simpl length; lia).
    destruct (percentage_counts _ _ (critical_count_bounds (t :: tickets))
                Hpos) as (f & Hpct & Hin).
    exists f. split; [done|]. split; [congruence|done].
Qed.

(** ** Reporter *)

(** C7, as the specification states it, fails: [generate_final_report]
    returns no report for the ticket whose ['resolution_minutes'] is
    [10 ** 400]; the division of the averages raises [OverflowError]. *)
Lemma generate_final_report_overflow :
  ¬ ∃ r, generate_final_report scenario_overflow = Some r ∧
         meta r = {| total_records := length scenario_overflow;
                     status := "Success" |}.
Proof.
  intros (r & Hrun & _). vm_compute in Hrun. discriminate Hrun.
Qed.

(** C7, amended: whenever [get_average_resolution_by_category] returns,
    so does [generate_final_report], and the report it returns holds the
    number of tickets and the status ['Success'] as its meta data, the
    averages and the escalation rates of the same tickets; when the
    averages raise, so does the report. *)
Theorem generate_final_report_spec (tickets : list ticket) :
  (∀ r, generate_final_report tickets = Some r →
        meta r = {| total_records := length tickets; status := "Success" |} ∧
        get_average_resolution_by_category tickets = Some (averages r) ∧
        get_escalation_rates tickets = Some (escalations r)) ∧
  (∀ a, get_average_resolution_by_category tickets = Some a →
        ∃ e, get_escalation_rates tickets = Some e ∧
             generate_final_report tickets =
             Some {| meta := {| total_records := length tickets;
                                status := "Success" |};
                     averages := a;
                     escalations := e |}) ∧
  (get_average_resolution_by_category tickets = None →
   generate_final_report tickets = None).
Proof.
  unfold generate_final_report.
  destruct (get_escalation_rates_run tickets) as (e & He & _).
  rewrite He. split; [|split].
  - intros r Hrun.
    destruct (get_average_resolution_by_category tickets) as [a|]; [|done].
    simpl in Hrun. by injection Hrun as <-.
  - intros a ->. exists e. done.
  - by intros ->.
Qed.

(** Scenarios A, B and C of the specification. *)
Lemma scenario_A_averages : get_average_resolution_by_category [] = Some [].
Proof. reflexivity. Qed.

Lemma scenario_B_averages :
  get_average_resolution_by_category scenario_B =
  Some [(VStr "A", VFloat float_15)].
Proof. vm_compute. reflexivity. Qed.

Lemma scenario_C_rates :
  get_escalation_rates scenario_C =
  Some {| overall_rate := VFloat float_50;
          by_category := [(VStr "X", VFloat float_50)] |}.
Proof. vm_compute. reflexivity. Qed.

(** ** The float model against the kernel's binary64 numbers

    The operations of [PyFloat] return, on these operands, the floats
    that the primitive IEEE 754 operations of the kernel return. *)

Lemma float_constants :
  Prim2SF 100%float = float_100 ∧ Prim2SF 50%float = float_50 ∧
  Prim2SF 15%float = float_15 ∧ Prim2SF 10%float = float_10 ∧
  Prim2SF 2.5%float = float_2_5 ∧ Prim2SF 6.25%float = float_6_25 ∧
  Prim2SF 0%float = float_zero.
Proof. repeat split; vm_compute; reflexivity. Qed.

Lemma int_truediv_agrees :
  PyFloat.int_truediv 1 3 = Some (Prim2SF (1 / 3)%float) ∧
  PyFloat.int_truediv 2 3 = Some (Prim2SF (2 / 3)%float) ∧
  PyFloat.int_truediv (-7) 12 = Some (Prim2SF (-7 / 12)%float) ∧
  PyFloat.int_truediv 30 2 = Some (Prim2SF 15%float).
Proof. repeat split; vm_compute; reflexivity. Qed.

Lemma float_operations_agree :
  PyFloat.mul (Prim2SF (1 / 3)%float) float_100
  = Prim2SF (1 / 3 * 100)%float ∧
  PyFloat.add (Prim2SF (1 / 3)%float) (Prim2SF (1 / 7)%float)
  = Prim2SF (1 / 3 + 1 / 7)%float ∧
  PyFloat.add float_2_5 (Prim2SF (-2.5)%float) = float_zero ∧
  PyFloat.div (Prim2SF (22 / 7)%float) (Prim2SF 3%float)
  = Some (Prim2SF (22 / 7 / 3)%float) ∧
  PyFloat.div float_2_5 (S754_zero true) = None ∧
  PyFloat.mul (Prim2SF 0x1p+1000%float) (Prim2SF 0x1p+1000%float)
  = S754_infinity false ∧
  PyFloat.mul (Prim2SF 0x1p-1000%float) (Prim2SF (-0x1p-1000)%float)
  = S754_zero true.
Proof. repeat split; vm_compute; reflexivity. Qed.

(** [round(x, 2)] rounds the exact value of [x], ties to even:
    [round(0.125, 2)] is the float nearest to [0.12], [round(0.375, 2)]
    the one nearest to [0.38], and [round(100 / 3, 2)] the one nearest
    to [33.33]. *)
Lemma round2_examples :
  PyFloat.round2 (Prim2SF 0.125%float) = Prim2SF (12 / 100)%float ∧
  PyFloat.round2 (Prim2SF 0.375%float) = Prim2SF (38 / 100)%float ∧
  PyFloat.round2 (Prim2SF (100 / 3)%float) = Prim2SF (3333 / 100)%float ∧
  PyFloat.round2 (Prim2SF (-0x1p-20)%float) = S754_zero true ∧
  PyFloat.round2 (Prim2SF 0x1p+900%float) = Prim2SF 0x1p+900%float.
Proof. repeat split; vm_compute; reflexivity. Qed.

(** [float(z)] rounds to nearest, ties to even, and raises beyond the
    largest float. *)
Lemma of_int_examples :
  PyFloat.of_int (2 ^ 53 + 1) = Some (Prim2SF 0x1p+53%float) ∧
  PyFloat.of_int (2 ^ 53 + 3) = Some (Prim2SF 0x1.0000000000002p+53%float) ∧
  PyFloat.of_int (2 ^ 1024 - 2 ^ 970 - 1)
  = Some (Prim2SF 0x1.fffffffffffffp+1023%float) ∧
  PyFloat.of_int (2 ^ 1024 - 2 ^ 970) = None.
Proof. repeat split; vm_compute; reflexivity. Qed.

(** ** The float model is IEEE 754 rounding to nearest, ties to even

    [PyFloat.round_pos], on which every operation of [PyFloat] rests,
    returns a valid binary64 number that is nearest to the rational it
    rounds, with an even mantissa in case of a tie, and overflows exactly
    from [2 ^ 1024 - 2 ^ 970] on.

    The proofs count in units of [2 ^ (-1074)], the spacing of the
    smallest floats; the large powers of two are kept closed behind
    [pow2_is], so that the arithmetic sees them as unknowns. *)

Module Rounding.
Import PyFloat.

(** [round_half_even n d] is an integer nearest to [n / d] *)
Lemma round_half_even_nearest n d j :
  0 < d → Z.abs (n - round_half_even n d * d) ≤ Z.abs (n - j * d).
Proof.
  intros Hd. unfold round_half_even.
  pose proof (Z.div_mod n d ltac:(lia)) as Hdiv.
  pose proof (Z.mod_pos_bound n d Hd) as Hmod.
  set (q := n / d) in *. set (r := n mod d) in *.
  assert (j ≤ q ∨ q + 1 ≤ j) as [Hj|Hj] by lia;
  destruct (Z.compare_spec (2 * r) d) as [Heq|Hlt|Hgt];
    try destruct (Z.even q); nia.
Qed.

(** and the even one when two integers are as near. *)
Lemma round_half_even_tie n d j :
  0 < d → j ≠ round_half_even n d →
  Z.abs (n - round_half_even n d * d) = Z.abs (n - j * d) →
  Z.even (round_half_even n d) = true.
Proof.
  intros Hd. unfold round_half_even.
  pose proof (Z.div_mod n d ltac:(lia)) as Hdiv.
  pose proof (Z.mod_pos_bound n d Hd) as Hmod.
  set (q := n / d) in *. set (r := n mod d) in *.
  destruct (Z.compare_spec (2 * r) d) as [Heq|Hlt|Hgt].
  - destruct (Z.even q) eqn:Heven; [done|]. intros _ _.
    rewrite Z.even_add, Heven. done.
  - intros Hne Habs. exfalso.
    assert (j ≤ q - 1 ∨ q + 1 ≤ j) as [Hj|Hj] by lia; nia.
  - intros Hne Habs. exfalso.
    assert (j ≤ q ∨ q + 2 ≤ j) as [Hj|Hj] by lia; nia.
Qed.

(** The rounding error is at most one half. *)
Lemma round_half_even_error n d :
  0 < d → 2 * Z.abs (n - round_half_even n d * d) ≤ d.
Proof.
  intros Hd.
  pose proof (round_half_even_nearest n d (round_half_even n d - 1) Hd).
  pose proof (round_half_even_nearest n d (round_half_even n d + 1) Hd).
  nia.
Qed.

(** Scaling the numerator and the denominator changes nothing. *)
Lemma round_half_even_scale n d c :
  0 < d → 0 < c → round_half_even (n * c) (d * c) = round_half_even n d.
Proof.
  intros Hd Hc. unfold round_half_even.
  rewrite Z.div_mul_cancel_r by lia.
  rewrite Zmult_mod_distr_r.
  destruct (Z.compare_spec (2 * (n mod d * c)) (d * c)),
    (Z.compare_spec (2 * (n mod d)) d); try done; nia.
Qed.

(** An integer below [n / d] is below its rounding. *)
Lemma round_half_even_lower n d B :
  0 < d → B * d ≤ n → B ≤ round_half_even n d.
Proof.
  intros Hd HB. unfold round_half_even.
  pose proof (Z.div_mod n d ltac:(lia)) as Hdiv.
  pose proof (Z.mod_pos_bound n d Hd) as Hmod.
  assert (B ≤ n / d) by (apply Z.div_le_lower_bound; lia).
  destruct (Z.compare_spec (2 * (n mod d)) d); try destruct (Z.even _); lia.
Qed.

Lemma pow2_pos k : 0 ≤ k → 0 < 2 ^ k.
Proof. intros. by apply Z.pow_pos_nonneg. Qed.

Lemma pow2_add a b : 0 ≤ a → 0 ≤ b → 2 ^ (a + b) = 2 ^ a * 2 ^ b.
Proof. intros. by apply Z.pow_add_r. Qed.

Lemma pow2_is_pos k P : 0 ≤ k → pow2_is k P → 0 < P.
Proof. intros Hk ->. by apply pow2_pos. Qed.

Lemma pow2_is_add k P a : 0 ≤ k → 0 ≤ a → pow2_is k P → 2 ^ (a + k) = 2 ^ a * P.
Proof. intros Hk Ha ->. by apply pow2_add. Qed.

Lemma pow2_is_le k P a : 0 ≤ a ≤ k → pow2_is k P → 2 ^ a ≤ P.
Proof. intros Ha ->. apply Z.pow_le_mono_r; lia. Qed.

Lemma pow2_is_ge k P a : 0 ≤ k ≤ a → pow2_is k P → P * 2 ^ (a - k) = 2 ^ a.
Proof.
  intros Ha ->. rewrite <- pow2_add by lia. f_equal. lia.
Qed.

Lemma pow2_is_split k P a b :
  pow2_is k P → 0 ≤ a → 0 ≤ b → a + b = k → P = 2 ^ a * 2 ^ b.
Proof. intros -> Ha Hb <-. by apply pow2_add. Qed.

(** [log2_ratio n d] is the exponent of the binade of [n / d]: with both
    sides scaled by [2 ^ c] to clear a negative exponent,
    [2 ^ l <= n / d < 2 ^ (l + 1)]. *)
Lemma log2_ratio_spec n d c :
  0 < n → 0 < d → 0 ≤ c → 0 ≤ log2_ratio n d + c →
  d * 2 ^ (log2_ratio n d + c) ≤ n * 2 ^ c ∧
  n * 2 ^ c < d * 2 ^ (log2_ratio n d + c + 1).
Proof.
  intros Hn Hd Hc. unfold log2_ratio.
  destruct (Z.log2_spec n Hn) as [Hn1 Hn2].
  destruct (Z.log2_spec d Hd) as [Hd1 Hd2].
  pose proof (Z.log2_nonneg n) as Ha. pose proof (Z.log2_nonneg d) as Hb.
  rewrite Z.pow_succ_r in Hn2, Hd2 by done.
  set (a := Z.log2 n) in *. set (b := Z.log2 d) in *.
  pose proof (pow2_pos c Hc) as HC.
  destruct (0 <=? a - b) eqn:Hl.
  - apply Z.leb_le in Hl.
    pose proof (pow2_pos (a - b) Hl) as HX.
    assert (2 ^ a = 2 ^ (a - b) * 2 ^ b) as Ha'
      by (rewrite <- pow2_add by lia; f_equal; lia).
    pose proof (pow2_pos b Hb) as HB.
    destruct (d * 2 ^ (a - b) <=? n) eqn:Htest.
    + apply Z.leb_le in Htest. intros _.
      rewrite <- Z.add_assoc, (pow2_add (a - b)), (pow2_add (a - b) (c + 1)),
        (pow2_add c 1) by lia.
      change (2 ^ 1) with 2.
      assert (n < 2 * 2 ^ (a - b) * d) as Hup by nia.
      split; [nia|].
      apply (Z.mul_lt_mono_pos_r (2 ^ c)) in Hup; [nia|done].
    + apply Z.leb_gt in Htest. intros HL.
      replace (a - b - 1 + c + 1) with (a - b + c) by lia.
      rewrite (pow2_add (a - b) c) by lia.
      assert (2 ^ (a - b) * 2 ^ c = 2 * 2 ^ (a - b - 1 + c)) as Hsplit.
      { rewrite <- pow2_add, <- Z.pow_succ_r by lia. f_equal. lia. }
      pose proof (pow2_pos (a - b - 1 + c) HL).
      assert (d * 2 ^ (a - b) < 2 * n) as Hlow by nia.
      split.
      * apply (Z.mul_lt_mono_pos_r (2 ^ c)) in Hlow; [nia|done].
      * apply (Z.mul_lt_mono_pos_r (2 ^ c)) in Htest; [nia|done].
  - apply Z.leb_gt in Hl.
    pose proof (pow2_pos (- (a - b)) ltac:(lia)) as HX.
    assert (2 ^ b = 2 ^ (- (a - b)) * 2 ^ a) as Hb'
      by (rewrite <- pow2_add by lia; f_equal; lia).
    pose proof (pow2_pos a Ha) as HA.
    destruct (d <=? n * 2 ^ (- (a - b))) eqn:Htest.
    + apply Z.leb_le in Htest. intros HL.
      assert (2 ^ c = 2 ^ (- (a - b)) * 2 ^ (a - b + c)) as Hsplit
        by (rewrite <- pow2_add by lia; f_equal; lia).
      rewrite (pow2_add (a - b + c) 1) by lia. change (2 ^ 1) with 2.
      pose proof (pow2_pos (a - b + c) HL) as HY.
      assert (n * 2 ^ (- (a - b)) < 2 * d) as Hup by nia.
      split.
      * apply (Z.mul_le_mono_nonneg_r _ _ (2 ^ (a - b + c))) in Htest; [nia|lia].
      * apply (Z.mul_lt_mono_pos_r (2 ^ (a - b + c))) in Hup; [nia|done].
    + apply Z.leb_gt in Htest. intros HL.
      replace (a - b - 1 + c + 1) with (a - b + c) by lia.
      assert (2 ^ c = 2 ^ (- (a - b)) * 2 ^ (a - b + c)) as Hsplit
        by (rewrite <- pow2_add by lia; f_equal; lia).
      assert (2 ^ (a - b + c) = 2 * 2 ^ (a - b - 1 + c)) as Hsplit2.
      { rewrite <- Z.pow_succ_r by lia. f_equal. lia. }
      pose proof (pow2_pos (a - b - 1 + c) HL) as HY.
      assert (d < 2 * (n * 2 ^ (- (a - b)))) as Hlow by nia.
      split.
      * apply (Z.mul_lt_mono_pos_r (2 ^ (a - b - 1 + c))) in Hlow; [nia|done].
      * apply (Z.mul_lt_mono_pos_r (2 ^ (a - b + c))) in Htest; [nia|lia].
Qed.

(** The number of bits of a mantissa. *)
Lemma digits2_pos_bounds (m : positive) :
  2 ^ (Zpos (digits2_pos m) - 1) ≤ Zpos m < 2 ^ Zpos (digits2_pos m).
Proof.
  induction m as [m IH|m IH|]; simpl digits2_pos.
  - rewrite Pos2Z.inj_succ, Z.pow_succ_r by lia.
    replace (Z.succ (Zpos (digits2_pos m)) - 1)
      with (Z.succ (Zpos (digits2_pos m) - 1)) by lia.
    rewrite Z.pow_succ_r by lia. lia.
  - rewrite Pos2Z.inj_succ, Z.pow_succ_r by lia.
    replace (Z.succ (Zpos (digits2_pos m)) - 1)
      with (Z.succ (Zpos (digits2_pos m) - 1)) by lia.
    rewrite Z.pow_succ_r by lia. lia.
  - simpl. lia.
Qed.

(** Validity of a mantissa and an exponent, by bounds. *)
Lemma binary64_intro (m : positive) (e : Z) :
  -1074 ≤ e ≤ 971 → Zpos m < 2 ^ 53 → (-1074 < e → 2 ^ 52 ≤ Zpos m) →
  binary64 m e = true.
Proof.
  intros He Hm Hnormal. unfold binary64, bounded, canonical_mantissa, fexp.
  change (SpecFloat.emin 53 1024) with (-1074).
  change (1024 - 53) with 971.
  apply andb_true_iff. split; [|apply Z.leb_le; lia].
  apply Z.eqb_eq. destruct (digits2_pos_bounds m) as [Hlow Hhigh].
  set (k := Zpos (digits2_pos m)) in *.
  assert (k ≤ 53) as Hk.
  { destruct (decide (k ≤ 53)) as [|Hno]; [done|]. exfalso.
    assert (2 ^ 53 ≤ 2 ^ (k - 1)) by (apply Z.pow_le_mono_r; lia). lia. }
  destruct (decide (e = -1074)) as [->|Hne]; [lia|].
  assert (k = 53) as ->; [|lia].
  destruct (decide (53 ≤ k)) as [|Hno]; [lia|]. exfalso.
  assert (2 ^ k ≤ 2 ^ 52) by (apply Z.pow_le_mono_r; lia).
  specialize (Hnormal ltac:(lia)). lia.
Qed.

Lemma binary64_elim (m : positive) (e : Z) :
  binary64 m e = true → -1074 ≤ e ≤ 971 ∧ Zpos m < 2 ^ 53.
Proof.
  unfold binary64, bounded, canonical_mantissa, fexp.
  change (SpecFloat.emin 53 1024) with (-1074).
  change (1024 - 53) with 971.
  intros [Hcanon Hmax%Z.leb_le]%andb_true_iff. apply Z.eqb_eq in Hcanon.
  destruct (digits2_pos_bounds m) as [Hlow Hhigh].
  set (k := Zpos (digits2_pos m)) in *.
  split; [lia|].
  assert (2 ^ k ≤ 2 ^ 53) by (apply Z.pow_le_mono_r; lia). lia.
Qed.

(** What [round_pos] computes, in units of [2 ^ (-1074)]: with
    [P = 2 ^ 1074], the rational [n * P / d] is rounded to a multiple
    [k * 2 ^ s] of the spacing [2 ^ s] of the floats of its binade. *)
Lemma round_pos_units n d P :
  pow2_is 1074 P → 0 < n → 0 < d →
  ∃ k s, 0 ≤ s ∧ k = round_half_even (n * P) (d * 2 ^ s) ∧
    0 ≤ k ≤ 2 ^ 53 ∧
    n * P < d * 2 ^ s * 2 ^ 53 ∧
    (0 < s → d * 2 ^ s * 2 ^ 52 ≤ n * P) ∧
    match round_pos n d with
    | Rzero => k = 0
    | Rfinite m e =>
        binary64 m e = true ∧ Zpos m * 2 ^ (e + 1074) = k * 2 ^ s ∧
        (Z.even k = true → Z.even (Zpos m) = true)
    | Roverflow => 2046 ≤ s ∨ (s = 2045 ∧ k = 2 ^ 53)
    end.
Proof.
  intros HP Hn Hd. unfold round_pos.
  pose proof (pow2_is_pos 1074 P ltac:(lia) HP) as HPpos.
  set (L := log2_ratio n d).
  set (e := Z.max (L - 52) (-1074)).
  set (s := e + 1074). assert (0 ≤ s) as Hs by lia.
  pose proof (pow2_pos s Hs) as HS.
  set (k := round_half_even (n * P) (d * 2 ^ s)).
  exists k, s. split; [done|]. split; [done|].
  (* the mantissa the code computes is [k] *)
  assert ((if 0 <=? e then round_half_even n (d * 2 ^ e)
           else round_half_even (n * 2 ^ (- e)) d) = k) as ->.
  { unfold k. destruct (0 <=? e) eqn:He.
    - apply Z.leb_le in He.
      rewrite <- (round_half_even_scale n (d * 2 ^ e) P);
        [|pose proof (pow2_pos e He); nia|done].
      f_equal. unfold s. rewrite (pow2_is_add 1074 P) by (done || lia). lia.
    - apply Z.leb_gt in He.
      rewrite <- (round_half_even_scale (n * 2 ^ (- e)) d (2 ^ s)) by lia.
      f_equal. rewrite <- Z.mul_assoc. f_equal.
      rewrite <- pow2_add by lia. replace (- e + s) with 1074 by lia.
      by rewrite HP. }
  (* the scaled quotient is below 2^53, and above 2^52 unless subnormal *)
  assert (0 ≤ L + 1074 →
          d * 2 ^ (L + 1074) ≤ n * P ∧ n * P < d * 2 ^ (L + 1074 + 1))
    as Hbinade.
  { intros HL. rewrite HP. apply log2_ratio_spec; lia. }
  assert (n * P < d * 2 ^ s * 2 ^ 53) as Hupper.
  { destruct (decide (0 ≤ L + 1074)) as [HL|HL].
    - destruct (Hbinade HL) as [_ Hup].
      rewrite <- Z.mul_assoc, <- pow2_add by lia.
      eapply Z.lt_le_trans; [exact Hup|].
      apply Z.mul_le_mono_nonneg_l; [lia|].
      apply Z.pow_le_mono_r; lia.
    - destruct (log2_ratio_spec n d (- L) Hn Hd ltac:(lia) ltac:(lia))
        as [_ Hup].
      fold L in Hup. replace (L + - L + 1) with 1 in Hup by lia.
      change (2 ^ 1) with 2 in Hup.
      pose proof (pow2_is_ge 1074 P (- L) ltac:(lia) HP) as Hsplit.
      assert (2 ≤ 2 ^ (- L - 1074)).
      { change 2 with (2 ^ 1) at 1. apply Z.pow_le_mono_r; lia. }
      pose proof (pow2_pos 53 ltac:(lia)).
      clear Hbinade. nia. }
  assert (0 < s → d * 2 ^ s * 2 ^ 52 ≤ n * P) as Hlower.
  { intros Hpos. destruct (Hbinade ltac:(lia)) as [Hlow _].
    rewrite <- Z.mul_assoc, <- pow2_add by lia.
    replace (s + 52) with (L + 1074) by lia. done. }
  clear Hbinade.
  assert (0 ≤ k ≤ 2 ^ 53) as Hk.
  { apply round_half_even_bounds; nia. }
  split; [done|]. split; [done|]. split; [done|].
  assert (0 < s → 2 ^ 52 ≤ k) as Hknormal.
  { intros Hpos. apply round_half_even_lower; [nia|].
    specialize (Hlower Hpos). lia. }
  assert (2 ^ 52 < 2 ^ 53) as H5253 by (apply Z.pow_lt_mono_r; lia).
  destruct (k =? 2 ^ 53) eqn:Hk53.
  - apply Z.eqb_eq in Hk53. change (2 ^ 52 =? 0) with false. cbn iota.
    destruct (971 <? e + 1) eqn:Hover.
    + apply Z.ltb_lt in Hover. lia.
    + apply Z.ltb_ge in Hover. split; [|split; [|done]].
      * apply binary64_intro; [lia|done|]. intros _.
        change (Z.pos (Z.to_pos (2 ^ 52))) with (2 ^ 52). lia.
      * change (Z.pos (Z.to_pos (2 ^ 52))) with (2 ^ 52). rewrite Hk53.
        change (2 ^ 53) with (2 ^ 52 * 2).
        replace (e + 1 + 1074) with (s + 1) by lia.
        rewrite pow2_add by lia. change (2 ^ 1) with 2. lia.
  - apply Z.eqb_neq in Hk53. destruct (k =? 0) eqn:Hk0.
    + by apply Z.eqb_eq in Hk0.
    + apply Z.eqb_neq in Hk0. destruct (971 <? e) eqn:Hover.
      * apply Z.ltb_lt in Hover. lia.
      * apply Z.ltb_ge in Hover. rewrite Z2Pos.id by lia.
        split; [|done].
        apply binary64_intro; rewrite ?Z2Pos.id by lia; [lia|lia|].
        intros. apply Hknormal. lia.
Qed.

(** In units of [2 ^ (-1074)]: the multiple [k * 2 ^ s] that [round_pos]
    finds is at least as close to [n / d] as any binary64 number. *)
Lemma nearest_units n d s P (m' : positive) (e' : Z) :
  0 < n → 0 < d → 0 ≤ s →
  (0 < s → d * 2 ^ s * 2 ^ 52 ≤ n * P) →
  binary64 m' e' = true →
  Z.abs (n * P - round_half_even (n * P) (d * 2 ^ s) * 2 ^ s * d)
  ≤ Z.abs (n * P - Zpos m' * 2 ^ (e' + 1074) * d).
Proof.
  intros Hn Hd Hs Hlower [He' Hm']%binary64_elim.
  pose proof (pow2_pos s Hs) as HS.
  set (n' := n * P) in *.
  set (k := round_half_even n' (d * 2 ^ s)).
  destruct (decide (s ≤ e' + 1074)) as [Hle|Hgt].
  - assert (2 ^ (e' + 1074) = 2 ^ (e' + 1074 - s) * 2 ^ s) as ->
      by (rewrite <- pow2_add by lia; f_equal; lia).
    pose proof (round_half_even_nearest n' (d * 2 ^ s)
                  (Zpos m' * 2 ^ (e' + 1074 - s)) ltac:(nia)) as Hnear.
    fold k in Hnear.
    replace (k * 2 ^ s * d) with (k * (d * 2 ^ s)) by lia.
    replace (Z.pos m' * (2 ^ (e' + 1074 - s) * 2 ^ s) * d)
      with (Z.pos m' * 2 ^ (e' + 1074 - s) * (d * 2 ^ s)) by lia.
    done.
  - specialize (Hlower ltac:(lia)).
    pose proof (round_half_even_nearest n' (d * 2 ^ s) (2 ^ 52) ltac:(nia))
      as Hnear.
    fold k in Hnear.
    replace (k * 2 ^ s * d) with (k * (d * 2 ^ s)) by lia.
    assert (2 ^ s = 2 ^ (s - (e' + 1074) - 1) * 2 * 2 ^ (e' + 1074))
      as Hsplit.
    { replace s with ((s - (e' + 1074) - 1) + 1 + (e' + 1074)) at 1 by lia.
      rewrite !pow2_add by lia. done. }
    pose proof (pow2_pos (s - (e' + 1074) - 1) ltac:(lia)).
    pose proof (pow2_pos (e' + 1074) ltac:(lia)).
    assert (Zpos m' * 2 ^ (e' + 1074) * d < 2 ^ 52 * (d * 2 ^ s)).
    { change (2 ^ 53) with (2 ^ 52 * 2) in Hm'.
      pose proof (pow2_pos 52 ltac:(lia)). nia. }
    lia.
Qed.

(** The same for a zero and for a negative number. *)
Lemma nearest_float_units n d s P (y : spec_float) (c : Z) :
  0 < P → 0 < n → 0 < d → 0 ≤ s →
  (0 < s → d * 2 ^ s * 2 ^ 52 ≤ n * P) →
  valid_binary y = true → float_units y = Some c →
  Z.abs (n * P - round_half_even (n * P) (d * 2 ^ s) * 2 ^ s * d)
  ≤ Z.abs (n * P - c * d).
Proof.
  intros HP Hn Hd Hs Hlower Hvalid Hc.
  pose proof (pow2_pos s Hs) as HS.
  assert (Z.abs (n * P - round_half_even (n * P) (d * 2 ^ s) * 2 ^ s * d)
          ≤ n * P) as Hzero.
  { pose proof (round_half_even_nearest (n * P) (d * 2 ^ s) 0
                  ltac:(nia)) as Hnear.
    replace (round_half_even (n * P) (d * 2 ^ s) * 2 ^ s * d)
      with (round_half_even (n * P) (d * 2 ^ s) * (d * 2 ^ s)) by lia.
    nia. }
  destruct y as [sy|sy| |[] m' e']; simpl in Hc; try done;
    injection Hc as <-.
  - nia.
  - change (binary64 m' e' = true) in Hvalid.
    pose proof (binary64_elim _ _ Hvalid) as [He' _].
    pose proof (pow2_pos (e' + 1074) ltac:(lia)). nia.
  - by apply nearest_units.
Qed.

(** The value of a float is its number of units. *)
Lemma finite_value_units (s : bool) (m : positive) (e : Z) (P : positive) :
  pow2_is 1074 (Zpos P) → -1074 ≤ e →
  (finite_value s m e ==
   ((if s then Zneg m else Zpos m) * 2 ^ (e + 1074)) # P)%Q.
Proof.
  intros HP He. unfold finite_value, Qeq.
  set (z := if s then Z.neg m else Z.pos m).
  destruct e as [|p|p]; cbn [Qnum Qden]; rewrite ?Pos2Z.inj_pow.
  - change (0 + 1074) with 1074. rewrite <- HP. ring.
  - rewrite (pow2_is_add 1074 (Zpos P)) by (done || lia). ring.
  - rewrite (pow2_is_split 1074 (Zpos P) (Z.neg p + 1074) (Z.pos p))
      by (done || lia).
    ring.
Qed.

Lemma value_units (y : spec_float) (w : Q) (P : positive) :
  pow2_is 1074 (Zpos P) →
  valid_binary y = true → value y = Some w →
  ∃ c, float_units y = Some c ∧ (w == c # P)%Q.
Proof.
  intros HP Hvalid Hw.
  destruct y as [sy|sy| |sy m e]; simpl in Hw; try done;
    injection Hw as <-.
  - exists 0. split; [done|]. done.
  - eexists. split; [done|]. apply finite_value_units; [done|].
    change (binary64 m e = true) in Hvalid.
    apply binary64_elim in Hvalid. lia.
Qed.

(** Distances between rationals, compared on numerators. *)
Lemma Qabs_sub_units (a : Z) (d P : positive) (c c' : Z) :
  Z.abs (a * Zpos P - c * Zpos d) ≤ Z.abs (a * Zpos P - c' * Zpos d) →
  (Qabs ((a # d) - (c # P)) <= Qabs ((a # d) - (c' # P)))%Q.
Proof.
  intros Habs. unfold Qle, Qabs, Qminus, Qplus, Qopp. cbn [Qnum Qden].
  apply Z.mul_le_mono_nonneg_r; [lia|].
  replace (a * Z.pos P + - c * Z.pos d) with (a * Zpos P - c * Zpos d) by lia.
  replace (a * Z.pos P + - c' * Z.pos d) with (a * Zpos P - c' * Zpos d)
    by lia.
  done.
Qed.

Lemma pow2_is_1074 : pow2_is 1074 (Zpos (2 ^ 1074)).
Proof. apply Pos2Z.inj_pow. Qed.

(** Rounding a positive rational gives a binary64 number, and one
    nearest to the rational among all binary64 numbers. *)
Theorem round_pos_nearest (n d : positive) (y : spec_float) (v w : Q) :
  valid_binary (of_rounded false (round_pos (Zpos n) (Zpos d))) = true ∧
  (value (of_rounded false (round_pos (Zpos n) (Zpos d))) = Some v →
   valid_binary y = true → value y = Some w →
   (Qabs ((Zpos n # d) - v) <= Qabs ((Zpos n # d) - w))%Q).
Proof.
  pose proof pow2_is_1074 as HP. revert HP.
  generalize (2 ^ 1074)%positive. intros P HP.
  destruct (round_pos_units (Zpos n) (Zpos d) (Zpos P) HP
              ltac:(done) ltac:(done))
    as (k & s & Hs & Hk & _ & _ & Hlower & Hround).
  split.
  { by destruct (round_pos _ _) as [|m e|]; [|destruct Hround|]. }
  intros Hv Hvalid Hw.
  destruct (value_units y w P HP Hvalid Hw) as (c & Hc & ->).
  pose proof (nearest_float_units (Zpos n) (Zpos d) s (Zpos P) y c
                ltac:(done) ltac:(done) ltac:(done) Hs Hlower Hvalid Hc)
    as Hnear.
  rewrite <- Hk in Hnear.
  assert (v == (k * 2 ^ s) # P)%Q as ->.
  { destruct (round_pos _ _) as [|m e|]; simpl in Hv; try done;
      injection Hv as <-.
    - by rewrite Hround.
    - destruct Hround as (Hvalid' & <- & _).
      apply (finite_value_units false); [done|].
      apply binary64_elim in Hvalid'. lia. }
  by apply Qabs_sub_units.
Qed.

(** The least rational that overflows, [2 ^ 1024 - 2 ^ 970], is
    [(2 ^ 54 - 1) * C] with [C = 2 ^ 970]. *)
Lemma overflow_threshold : 2 ^ 1024 - 2 ^ 970 = (2 ^ 54 - 1) * 2 ^ 970.
Proof. reflexivity. Qed.

(** The overflow of [round_pos], with the powers [P = 2 ^ 1074],
    [C = 2 ^ 970] and [T = 2 ^ 2044] kept closed. *)
Lemma round_pos_overflow_units (n d : positive) (P C T : Z) :
  pow2_is 1074 P → pow2_is 970 C → pow2_is 2044 T →
  round_pos (Zpos n) (Zpos d) = Roverflow ↔
  (2 ^ 54 - 1) * C * Zpos d ≤ Zpos n.
Proof.
  intros HP HC HT.
  destruct (round_pos_units (Zpos n) (Zpos d) P HP ltac:(done) ltac:(done))
    as (k & s & Hs & Hk & Hkb & Hupper & Hlower & Hround).
  pose proof (pow2_is_pos 1074 P ltac:(lia) HP) as HPpos.
  pose proof (pow2_is_pos 970 C ltac:(lia) HC) as HCpos.
  pose proof (pow2_is_pos 2044 T ltac:(lia) HT) as HTpos.
  assert (T = C * P) as HTCP.
  { rewrite HT, HC, HP. by rewrite <- pow2_add by lia. }
  set (n' := Zpos n * P) in *. set (D := Zpos d * 2 ^ s) in *.
  pose proof (pow2_pos s Hs) as HS.
  assert (0 < D) as HD by (unfold D; nia).
  pose proof (round_half_even_error n' D HD) as Herr. rewrite <- Hk in Herr.
  assert ((2 ^ 54 - 1) * C * Zpos d ≤ Zpos n ↔
          (2 ^ 54 - 1) * T * Zpos d ≤ n') as ->.
  { unfold n'. rewrite HTCP. split; nia. }
  (* a finite result is below [2 * T] units *)
  assert (∀ m e, binary64 m e = true →
            Zpos m < 2 ^ 53 ∧ 0 < 2 ^ (e + 1074) ≤ 2 * T) as Hfinite.
  { intros m e [He Hm]%binary64_elim. split; [done|].
    split; [apply pow2_pos; lia|].
    rewrite HT. change (2 * 2 ^ 2044) with (2 ^ 2045).
    apply Z.pow_le_mono_r; lia. }
  assert (s ≤ 2044 ∨ s = 2045 ∨ 2046 ≤ s) as [Hs1|[Hs2|Hs3]] by lia.
  - (* below the last binade *)
    assert (2 ^ s ≤ T) as Hpow by (apply (pow2_is_le 2044); [lia|done]).
    assert (n' < (2 ^ 54 - 1) * T * Zpos d) as Hsmall.
    { change (2 ^ 54 - 1) with (2 ^ 53 + (2 ^ 53 - 1)).
      pose proof (pow2_pos 53 ltac:(lia)). unfold D in Hupper.
      clear Hfinite Hround Herr Hlower Hk. nia. }
    split; [|lia]. intros Hover. rewrite Hover in Hround. lia.
  - (* the last binade *)
    assert (2 ^ s = 2 * T) as HsT.
    { rewrite Hs2, HT. done. }
    split.
    + intros Hover. rewrite Hover in Hround.
      assert (k = 2 ^ 53) as Hk53 by lia. rewrite Hk53 in Herr.
      change (2 ^ 54) with (2 * 2 ^ 53). unfold D in Herr.
      clear Hfinite Hround Hlower Hk Hupper. nia.
    + intros Hlarge.
      destruct (round_pos _ _) as [|m e|] eqn:Hres; [| |done]; exfalso.
      * rewrite Hround in Herr. unfold D in Herr.
        change (2 ^ 54 - 1) with (2 ^ 53 + (2 ^ 53 - 1)) in Hlarge.
        pose proof (pow2_pos 53 ltac:(lia)).
        clear Hfinite Hlower Hk Hupper. nia.
      * destruct Hround as (Hvalid & Hm & _).
        destruct (Hfinite m e Hvalid) as (Hm53 & HY & HYT).
        assert (k ≤ 2 ^ 53 - 1) as Hk53.
        { clear Hfinite Hlower Hk Hupper Herr Hlarge Hvalid. nia. }
        assert (n' - k * D = Z.abs (n' - (k + 1) * D) ∧ k = 2 ^ 53 - 1)
          as [Htie ->].
        { change (2 ^ 54) with (2 * 2 ^ 53) in Hlarge. unfold D in *.
          clear Hfinite Hlower Hk Hupper Hvalid Hm HY HYT. nia. }
        pose proof (round_half_even_tie n' D (2 ^ 53 - 1 + 1) HD) as Heven.
        rewrite <- Hk in Heven. specialize (Heven ltac:(lia)).
        assert (Z.abs (n' - (2 ^ 53 - 1) * D)
                = Z.abs (n' - (2 ^ 53 - 1 + 1) * D)) as Habs by lia.
        by specialize (Heven Habs).
  - (* beyond the last binade *)
    specialize (Hlower ltac:(lia)). fold n' D in Hlower.
    assert (4 * T ≤ 2 ^ s) as Hpow.
    { rewrite HT. change (4 * 2 ^ 2044) with (2 ^ 2046).
      apply Z.pow_le_mono_r; lia. }
    assert (2 ^ 52 ≤ k) as Hk52
      by (rewrite Hk; apply round_half_even_lower; lia).
    pose proof (pow2_pos 52 ltac:(lia)) as H52.
    split.
    + intros _. change (2 ^ 54 - 1) with (4 * 2 ^ 52 - 1).
      unfold D in Hlower. clear Hfinite Hround Hk Hupper Herr. nia.
    + intros _. destruct (round_pos _ _) as [|m e|]; [| |done]; exfalso.
      * lia.
      * destruct Hround as (Hvalid & Hm & _).
        destruct (Hfinite m e Hvalid) as (Hm53 & HY & HYT).
        change (2 ^ 53) with (2 * 2 ^ 52) in Hm53.
        clear Hfinite Hk Hupper Herr Hlower Hvalid. nia.
Qed.

(** Rounding overflows exactly from [2 ^ 1024 - 2 ^ 970] on, the middle
    of the largest float and [2 ^ 1024]. *)
Theorem round_pos_overflow (n d : positive) :
  round_pos (Zpos n) (Zpos d) = Roverflow ↔
  (inject_Z (2 ^ 1024 - 2 ^ 970) <= Zpos n # d)%Q.
Proof.
  unfold Qle. cbn [Qnum Qden inject_Z].
  rewrite Z.mul_1_r, overflow_threshold.
  by apply (round_pos_overflow_units n d (2 ^ 1074) (2 ^ 970) (2 ^ 2044)).
Qed.

(** A float as near as the rounding is on the grid of the rounding,
    where ties go to the even multiple. *)
Lemma tie_float_units n d s P (y : spec_float) (c : Z) :
  0 < P → 0 < n → 0 < d → 0 ≤ s →
  (0 < s → d * 2 ^ s * 2 ^ 52 ≤ n * P) →
  valid_binary y = true → float_units y = Some c →
  c ≠ round_half_even (n * P) (d * 2 ^ s) * 2 ^ s →
  Z.abs (n * P - round_half_even (n * P) (d * 2 ^ s) * 2 ^ s * d)
  = Z.abs (n * P - c * d) →
  Z.even (round_half_even (n * P) (d * 2 ^ s)) = true.
Proof.
  intros HP Hn Hd Hs Hlower Hvalid Hc Hne Habs.
  pose proof (pow2_pos s Hs) as HS.
  set (n' := n * P) in *. set (D := d * 2 ^ s) in *.
  assert (0 < D) as HD by (unfold D; nia).
  set (k := round_half_even n' D) in *.
  replace (k * 2 ^ s * d) with (k * D) in Habs by (unfold D; lia).
  (* a float on the grid of [k] *)
  assert (∀ j, c = j * 2 ^ s → Z.even k = true) as Hgrid.
  { intros j ->. apply (round_half_even_tie n' D j HD).
    - fold k. intros ->. done.
    - fold k. rewrite Habs. f_equal. unfold D. lia. }
  pose proof (round_half_even_nearest n' D 0 HD) as Hzero. fold k in Hzero.
  destruct y as [sy|sy| |[] m' e']; simpl in Hc; try done;
    injection Hc as <-.
  - by apply (Hgrid 0).
  - change (binary64 m' e' = true) in Hvalid.
    apply binary64_elim in Hvalid as [He' _].
    pose proof (pow2_pos (e' + 1074) ltac:(lia)). exfalso.
    clear Hgrid Hlower. unfold n' in *. nia.
  - change (binary64 m' e' = true) in Hvalid.
    apply binary64_elim in Hvalid as [He' Hm'].
    destruct (decide (s ≤ e' + 1074)) as [Hle|Hgt].
    + apply (Hgrid (Zpos m' * 2 ^ (e' + 1074 - s))).
      rewrite <- Z.mul_assoc, <- pow2_add by lia. do 2 f_equal. lia.
    + exfalso. specialize (Hlower ltac:(lia)).
      pose proof (round_half_even_nearest n' D (2 ^ 52) HD) as Hnear.
      fold k in Hnear.
      assert (2 ^ s = 2 ^ (s - (e' + 1074) - 1) * 2 * 2 ^ (e' + 1074))
        as Hsplit.
      { replace s with ((s - (e' + 1074) - 1) + 1 + (e' + 1074)) at 1 by lia.
        rewrite !pow2_add by lia. done. }
      pose proof (pow2_pos (s - (e' + 1074) - 1) ltac:(lia)).
      pose proof (pow2_pos (e' + 1074) ltac:(lia)).
      assert (Zpos m' * 2 ^ (e' + 1074) * d < 2 ^ 52 * D).
      { change (2 ^ 53) with (2 ^ 52 * 2) in Hm'.
        pose proof (pow2_pos 52 ltac:(lia)). unfold D. clear Hgrid. nia. }
      unfold D in *. clear Hgrid. lia.
Qed.

Lemma Qabs_sub_units_eq (a : Z) (d P : positive) (c c' : Z) :
  (Qabs ((a # d) - (c # P)) == Qabs ((a # d) - (c' # P)))%Q →
  Z.abs (a * Zpos P - c * Zpos d) = Z.abs (a * Zpos P - c' * Zpos d).
Proof.
  unfold Qeq, Qabs, Qminus, Qplus, Qopp. cbn [Qnum Qden]. intros Habs.
  apply Z.mul_reg_r in Habs; [|lia].
  replace (a * Z.pos P + - c * Z.pos d) with (a * Zpos P - c * Zpos d)
    in Habs by lia.
  replace (a * Z.pos P + - c' * Z.pos d) with (a * Zpos P - c' * Zpos d)
    in Habs by lia.
  done.
Qed.

(** When another binary64 number is as near, the rounding has chosen an
    even mantissa. *)
Theorem round_pos_ties_even (n d m : positive) (e : Z) (y : spec_float)
    (w : Q) :
  round_pos (Zpos n) (Zpos d) = Rfinite m e →
  valid_binary y = true → value y = Some w →
  ¬ (w == finite_value false m e)%Q →
  (Qabs ((Zpos n # d) - finite_value false m e)
   == Qabs ((Zpos n # d) - w))%Q →
  Z.even (Zpos m) = true.
Proof.
  intros Hres Hvalid Hw Hne Habs.
  pose proof pow2_is_1074 as HP. revert HP.
  generalize (2 ^ 1074)%positive. intros P HP.
  destruct (round_pos_units (Zpos n) (Zpos d) (Zpos P) HP
              ltac:(done) ltac:(done))
    as (k & s & Hs & Hk & _ & _ & Hlower & Hround).
  rewrite Hres in Hround. destruct Hround as (Hvalid' & Hm & Heven).
  apply Heven. rewrite Hk.
  destruct (value_units y w P HP Hvalid Hw) as (c & Hc & Hwc).
  assert (finite_value false m e == (k * 2 ^ s) # P)%Q as Hv.
  { rewrite <- Hm. apply (finite_value_units false); [done|].
    apply binary64_elim in Hvalid'. lia. }
  rewrite Hv, Hwc in Habs. apply Qabs_sub_units_eq in Habs.
  apply (tie_float_units (Zpos n) (Zpos d) s (Zpos P) y c); try done.
  - rewrite <- Hk. intros ->. apply Hne. by rewrite Hwc, Hv.
  - by rewrite <- Hk.
Qed.

Lemma of_rounded_infinity (s : bool) (r : rounded) :
  is_infinity (of_rounded s r) = true ↔ r = Roverflow.
Proof. destruct r; simpl; split; done. Qed.

Lemma is_infinity_None (f : spec_float) :
  (if is_infinity f then None else Some f) = None ↔ is_infinity f = true.
Proof. by destruct (is_infinity f). Qed.

(** [float(z)] raises [OverflowError] exactly when [|z|] is at least
    [2 ^ 1024 - 2 ^ 970]. *)
Theorem of_int_overflow (z : Z) :
  of_int z = None ↔ 2 ^ 1024 - 2 ^ 970 ≤ Z.abs z.
Proof.
  unfold of_int, round_Q. cbn [Qnum Qden inject_Z].
  assert (∀ n : positive,
            round_pos (Zpos n) 1 = Roverflow ↔ 2 ^ 1024 - 2 ^ 970 ≤ Zpos n)
    as Hpos.
  { intros n. rewrite (round_pos_overflow n 1). unfold Qle.
    cbn [Qnum Qden inject_Z]. by rewrite !Z.mul_1_r. }
  destruct z as [|n|n]; cbn [Z.abs].
  - cbn [is_infinity]. split; [done|]. intros Hle. exfalso.
    apply Hle. reflexivity.
  - by rewrite is_infinity_None, of_rounded_infinity.
  - by rewrite is_infinity_None, of_rounded_infinity.
Qed.

(** [a / b] on ints raises [OverflowError] exactly when [|a / b|] is at
    least [2 ^ 1024 - 2 ^ 970]. *)
Theorem int_truediv_overflow (a b : Z) :
  a ≠ 0 → b ≠ 0 →
  int_truediv a b = None ↔ (2 ^ 1024 - 2 ^ 970) * Z.abs b ≤ Z.abs a.
Proof.
  intros Ha Hb. unfold int_truediv.
  rewrite (proj2 (Z.eqb_neq a 0) Ha).
  assert (∃ n, Z.abs a = Zpos n) as [n ->]
    by (destruct a; [done|by eexists..]).
  assert (∃ d, Z.abs b = Zpos d) as [d ->]
    by (destruct b; [done|by eexists..]).
  rewrite is_infinity_None, of_rounded_infinity, (round_pos_overflow n d).
  unfold Qle. cbn [Qnum Qden inject_Z]. by rewrite Z.mul_1_r.
Qed.

End Rounding.

(** * Further properties of the functions *)

(** ** Collecting loops over an enumeration *)

Section collect_more.
Context {A B : Type}.

Lemma enumerate_from_app (l1 l2 : list A) (start : nat) :
  enumerate_from start (l1 ++ l2) =
  enumerate_from start l1 ++ enumerate_from (length l1 + start) l2.
Proof.
  revert start. induction l1 as [|x l1 IH]; intros start; simpl; [done|].
  rewrite IH. do 3 f_equal. lia.
Qed.

(** A loop body that only copies the position into what it collects
    commutes with a shift of the positions. *)
Lemma omap_enumerate_from_shift (keep : nat * A → option B)
    (shift : nat → B → B) :
  (∀ n i x, keep ((n + i)%nat, x) = shift n <$> keep (i, x)) →
  ∀ l n start,
    omap keep (enumerate_from (n + start) l) =
    shift n <$> omap keep (enumerate_from start l).
Proof.
  intros Hkeep l. induction l as [|x l IH]; intros n start; simpl; [done|].
  rewrite Hkeep, <- Nat.add_succ_r, IH.
  by destruct (keep (start, x)).
Qed.

Lemma omap_enumerate_app (keep : nat * A → option B) (shift : nat → B → B) :
  (∀ n i x, keep ((n + i)%nat, x) = shift n <$> keep (i, x)) →
  ∀ l1 l2,
    omap keep (enumerate (l1 ++ l2)) =
    omap keep (enumerate l1) ++
    (shift (length l1) <$> omap keep (enumerate l2)).
Proof.
  intros Hkeep l1 l2. unfold enumerate.
  rewrite enumerate_from_app, omap_app.
  by rewrite (omap_enumerate_from_shift keep shift Hkeep).
Qed.

(** A loop that keeps more collects more, in the same order. *)
Lemma omap_sublist {C} (keep : A → option B) (keep' : A → option C)
    (f : C → B) (l : list A) :
  (∀ x y, keep x = Some y → ∃ z, keep' x = Some z ∧ f z = y) →
  sublist (omap keep l) (f <$> omap keep' l).
Proof.
  intros Hkeep. induction l as [|x l IH]; simpl; [constructor|].
  destruct (keep x) as [y|] eqn:Hx.
  - destruct (Hkeep x y Hx) as (z & -> & <-). simpl. by constructor.
  - destruct (keep' x); simpl; [by constructor|done].
Qed.

Lemma omap_eq_nil (keep : A → option B) (l : list A) :
  omap keep l = [] ↔ ∀ x, x ∈ l → keep x = None.
Proof.
  induction l as [|x l IH]; simpl.
  - split; [|done]. by intros _ x ?%elem_of_nil.
  - destruct (keep x) as [y|] eqn:Hx.
    + split; [done|]. intros Hall.
      specialize (Hall x ltac:(by left)). congruence.
    + rewrite IH. split.
      * intros Hall x' [->|Hin]%elem_of_cons; [done|by apply Hall].
      * intros Hall x' Hin. apply Hall. by right.
Qed.

(** Every position is collected exactly when the loop keeps every
    element. *)
Lemma omap_enumerate_all (keep : nat * A → option B) (pos : B → nat) :
  (∀ i x y, keep (i, x) = Some y → pos y = i) →
  ∀ l start,
    pos <$> omap keep (enumerate_from start l) = seq start (length l) ↔
    ∀ it, it ∈ enumerate_from start l → is_Some (keep it).
Proof.
  intros Hpos l. induction l as [|x l IH]; intros start; simpl.
  - split; [|done]. by intros _ it ?%elem_of_nil.
  - destruct (keep (start, x)) as [y|] eqn:Hx; simpl.
    + rewrite (Hpos _ _ _ Hx). split.
      * intros [= Hrest] it [->|Hin]%elem_of_cons; [by eexists|].
        by apply (IH (S start)).
      * intros Hall. f_equal. apply IH. intros it Hin. apply Hall. by right.
    + split.
      * intros Heq. exfalso.
        change (pos <$> omap keep (enumerate_from (S start) l) =
                start :: seq (S start) (length l)) in Heq.
        destruct (omap_enumerate_sorted keep pos Hpos l (S start))
          as [_ Hall].
        destruct (omap keep (enumerate_from (S start) l)) as [|z rest];
          simpl in Heq; [done|].
        injection Heq as Hy _. apply Forall_cons in Hall as [Hle _]. lia.
      * intros Hall. destruct (Hall (start, x) ltac:(by left)) as [y Hy].
        congruence.
Qed.

Lemma length_omap_le (keep : A → option B) (l : list A) :
  (length (omap keep l) ≤ length l)%nat.
Proof.
  induction l as [|x l IH]; simpl; [done|].
  change (list_omap A B keep l) with (omap keep l).
  destruct (keep x); simpl; lia.
Qed.
End collect_more.

(** ** More on the validator *)

Lemma keep_missing_shift required_keys (n i : nat) (t : ticket) :
  keep_missing required_keys ((n + i)%nat, t) =
  (λ j, (n + j)%nat) <$> keep_missing required_keys (i, t).
Proof. unfold keep_missing. simpl. by destruct (negb _). Qed.

(** X1: [validate_keys] on a concatenation of two batches of tickets
    returns the indices of the first batch followed by those of the
    second, moved up by the length of the first. *)
Theorem validate_keys_app (l1 l2 : list ticket) (required_keys : list string) :
  validate_keys (l1 ++ l2) required_keys =
  validate_keys l1 required_keys ++
  ((λ i, (length l1 + i)%nat) <$> validate_keys l2 required_keys).
Proof.
  rewrite !validate_keys_omap.
  apply (omap_enumerate_app (keep_missing required_keys)
           (λ n j, (n + j)%nat)).
  intros n i t. apply keep_missing_shift.
Qed.

Lemma issubset_mono (ks ks' : list string) (t : ticket) :
  (∀ k, k ∈ ks → k ∈ ks') → issubset ks t = false → issubset ks' t = false.
Proof.
  intros Hsub (k & Hk & Hnone)%issubset_false. apply issubset_false.
  exists k. split; [by apply Hsub|done].
Qed.

Lemma validate_keys_sublist tickets (ks ks' : list string) :
  (∀ k, k ∈ ks → k ∈ ks') →
  sublist (validate_keys tickets ks) (validate_keys tickets ks').
Proof.
  intros Hsub. rewrite !validate_keys_omap.
  rewrite <- (list_fmap_id (omap (keep_missing ks') _)).
  apply omap_sublist. intros [i t] j. unfold keep_missing. simpl.
  destruct (issubset ks t) eqn:Hks; [done|]. intros [= <-].
  rewrite (issubset_mono ks ks' t Hsub Hks). by exists i.
Qed.

(** X2: requiring more keys reports more tickets: when every key of
    [ks] is one of [ks'], the indices reported for [ks] are among those
    reported for [ks'], in the same order; so the result depends on the
    set of the required keys only, not on their order or repetitions. *)
Theorem validate_keys_monotone (tickets : list ticket) (ks ks' : list string) :
  (∀ k, k ∈ ks → k ∈ ks') →
  sublist (validate_keys tickets ks) (validate_keys tickets ks') ∧
  ((∀ k, k ∈ ks' → k ∈ ks) →
   validate_keys tickets ks = validate_keys tickets ks').
Proof.
  intros Hsub. split; [by apply validate_keys_sublist|].
  intros Hsub'. apply (anti_symm sublist); by apply validate_keys_sublist.
Qed.

Lemma validate_keys_monotone_witness :
  sublist (validate_keys scenario_B ["category"])
          (validate_keys scenario_B ["ticket_id"; "category"]) ∧
  validate_keys scenario_B ["category"; "category"] =
  validate_keys scenario_B ["category"].
Proof.
  split.
  - apply (validate_keys_monotone scenario_B ["category"]
             ["ticket_id"; "category"]).
    intros k. rewrite !elem_of_cons. tauto.
  - apply (validate_keys_monotone scenario_B ["category"; "category"]
             ["category"]); intros k; rewrite !elem_of_cons; tauto.
Defined.

(** X3: a ticket is reported for the keys of two lists together exactly
    when it is reported for one of the lists. *)
Theorem validate_keys_union (tickets : list ticket) (ks1 ks2 : list string)
    (i : nat) :
  i ∈ validate_keys tickets (ks1 ++ ks2) ↔
  i ∈ validate_keys tickets ks1 ∨ i ∈ validate_keys tickets ks2.
Proof.
  rewrite !elem_of_validate_keys. split.
  - intros (t & Hlook & k & [Hk|Hk]%elem_of_app & Hnone);
      [left|right]; eauto.
  - intros [(t & Hlook & k & Hk & Hnone)|(t & Hlook & k & Hk & Hnone)];
      exists t; (split; [done|]); exists k; rewrite elem_of_app; eauto.
Qed.

(** X4: [validate_keys] returns the empty list exactly when every ticket
    holds every required key (so always when no key is required), and
    all the indices [0 .. len(tickets) - 1] exactly when every ticket
    lacks a required key. *)
Theorem validate_keys_extremes (tickets : list ticket)
    (required_keys : list string) :
  (validate_keys tickets required_keys = [] ↔
   ∀ t k, t ∈ tickets → k ∈ required_keys → is_Some (t !! k)) ∧
  (validate_keys tickets required_keys = seq 0 (length tickets) ↔
   ∀ t, t ∈ tickets → ∃ k, k ∈ required_keys ∧ t !! k = None) ∧
  validate_keys tickets [] = [].
Proof.
  assert (∀ ks, validate_keys tickets ks = [] ↔
                ∀ t k, t ∈ tickets → k ∈ ks → is_Some (t !! k)) as Hnil.
  { intros ks. rewrite validate_keys_omap, omap_eq_nil. split.
    - intros Hall t k [i Hi]%list_elem_of_lookup_1 Hk.
      apply elem_of_enumerate in Hi. specialize (Hall _ Hi).
      unfold keep_missing in Hall. simpl in Hall.
      destruct (issubset ks t) eqn:Hsub; [|done].
      destruct (t !! k) eqn:Htk; [by eexists|].
      assert (issubset ks t = false) by (apply issubset_false; eauto).
      congruence.
    - intros Hall [i t] Hin%elem_of_enumerate. unfold keep_missing. simpl.
      destruct (issubset ks t) eqn:Hsub; [done|].
      apply issubset_false in Hsub as (k & Hk & Hnone).
      apply list_elem_of_lookup_2 in Hin.
      destruct (Hall t k Hin Hk) as [v Hv]. congruence. }
  split; [apply Hnil|]. split.
  - rewrite validate_keys_omap. unfold enumerate.
    rewrite <- (list_fmap_id (omap _ _)).
    rewrite (omap_enumerate_all (keep_missing required_keys) id).
    + split.
      * intros Hall t [i Hi]%list_elem_of_lookup_1.
        apply elem_of_enumerate in Hi. destruct (Hall _ Hi) as [j Hj].
        unfold keep_missing in Hj. simpl in Hj.
        destruct (issubset required_keys t) eqn:Hsub; [done|].
        by apply issubset_false.
      * intros Hall [i t] Hin%elem_of_enumerate.
        apply list_elem_of_lookup_2 in Hin.
        apply Hall, issubset_false in Hin. unfold keep_missing. simpl.
        rewrite Hin. by eexists.
    + intros i x y. unfold keep_missing. simpl.
      destruct (negb _); [|done]. by intros [= <-].
  - apply Hnil. by intros t k _ ?%elem_of_nil.
Qed.

(** ** More on [find_invalid_resolutions] *)

Lemma keep_invalid_shift (n i : nat) (t : ticket) :
  keep_invalid ((n + i)%nat, t) = reindex n <$> keep_invalid (i, t).
Proof.
  unfold keep_invalid. simpl. by destruct (is_None _ || negb _).
Qed.

(** X5: [find_invalid_resolutions] on a concatenation of two batches of
    tickets returns the entries of the first batch followed by those of
    the second, whose indices are moved up by the length of the first
    and whose other fields are unchanged. *)
Theorem find_invalid_resolutions_app (l1 l2 : list ticket) :
  find_invalid_resolutions (l1 ++ l2) =
  find_invalid_resolutions l1 ++
  (reindex (length l1) <$> find_invalid_resolutions l2).
Proof.
  rewrite !find_invalid_resolutions_omap.
  apply (omap_enumerate_app keep_invalid reindex).
  intros n i t. apply keep_invalid_shift.
Qed.

(** The loop keeps nothing for a ticket exactly when the ticket holds an
    integer. *)
Lemma keep_invalid_None (i : nat) (t : ticket) :
  keep_invalid (i, t) = None ↔ resolution_integer t.
Proof.
  unfold keep_invalid, resolution_integer, get. simpl.
  destruct (t !! "resolution_minutes") as [[]|]; simpl; split;
    try done; try (intros [[? [=]]|[? [=]]]); eauto.
Qed.

(** X6: [find_invalid_resolutions] returns the empty list exactly when
    every ticket holds an integer (or a boolean) as
    ['resolution_minutes'], an entry for every index exactly when no
    ticket does, and never more entries than there are tickets. *)
Theorem find_invalid_resolutions_extremes (tickets : list ticket) :
  (find_invalid_resolutions tickets = [] ↔
   ∀ t, t ∈ tickets → resolution_integer t) ∧
  (index <$> find_invalid_resolutions tickets = seq 0 (length tickets) ↔
   ∀ t, t ∈ tickets → ¬ resolution_integer t) ∧
  (length (find_invalid_resolutions tickets) ≤ length tickets)%nat.
Proof.
  rewrite find_invalid_resolutions_omap. split; [|split].
  - rewrite omap_eq_nil. split.
    + intros Hall t [i Hi]%list_elem_of_lookup_1.
      apply elem_of_enumerate in Hi. by apply (keep_invalid_None i), Hall.
    + intros Hall [i t] Hin%elem_of_enumerate.
      apply keep_invalid_None, Hall. by eapply list_elem_of_lookup_2.
  - unfold enumerate.
    rewrite (omap_enumerate_all keep_invalid index keep_invalid_index).
    split.
    + intros Hall t [i Hi]%list_elem_of_lookup_1 Hint.
      apply elem_of_enumerate in Hi. destruct (Hall _ Hi) as [r Hr].
      apply (keep_invalid_None i) in Hint. congruence.
    + intros Hall [i t] Hin%elem_of_enumerate.
      apply list_elem_of_lookup_2, Hall in Hin.
      destruct (keep_invalid (i, t)) as [r|] eqn:Hr; [by eexists|].
      by apply keep_invalid_None in Hr.
  - etrans; [apply length_omap_le|].
    unfold enumerate. generalize 0%nat.
    induction tickets as [|t tickets IH]; intros start; simpl; [done|].
    specialize (IH (S start)). lia.
Qed.

(** X7: in every entry [find_invalid_resolutions] returns, the invalid
    value is no integer, the issue type is ['Missing'] exactly when the
    invalid value is [None] and ['Wrong Type'] exactly when it is another
    value: an absent key and an explicit [None] give the same entry. *)
Theorem find_invalid_resolutions_values (tickets : list ticket) :
  Forall (λ r, isinstance_int (invalid_value r) = false ∧
               (issue_type r = "Missing" ↔ invalid_value r = VNone) ∧
               (issue_type r = "Wrong Type" ↔ invalid_value r ≠ VNone))
         (find_invalid_resolutions tickets).
Proof.
  apply Forall_forall.
  intros r (t & _ & Hkeep)%elem_of_find_invalid_resolutions.
  unfold keep_invalid, get in Hkeep. simpl in Hkeep.
  destruct (t !! "resolution_minutes") as [[]|]; simpl in Hkeep;
    try done; injection Hkeep as <-; simpl; by repeat split.
Qed.

(** X8: the tickets [validate_keys] reports for the one key
    ['resolution_minutes'] are among those [find_invalid_resolutions]
    reports, in the same order, and each of them is reported with the
    issue type ['Missing'] and the invalid value [None]. *)
Theorem missing_key_reported (tickets : list ticket) :
  sublist (validate_keys tickets ["resolution_minutes"])
          (index <$> find_invalid_resolutions tickets) ∧
  Forall (λ r, index r ∈ validate_keys tickets ["resolution_minutes"] →
               issue_type r = "Missing" ∧ invalid_value r = VNone)
         (find_invalid_resolutions tickets).
Proof.
  split.
  - rewrite validate_keys_omap, find_invalid_resolutions_omap.
    apply omap_sublist. intros [i t] j. unfold keep_missing. simpl.
    destruct (issubset _ t) eqn:Hsub; [done|]. intros [= <-].
    apply issubset_false in Hsub as (k & ->%list_elem_of_singleton & Hnone).
    unfold keep_invalid, get. simpl. rewrite Hnone. simpl. by eexists.
  - apply Forall_forall.
    intros r (t & Hlook & Hkeep)%elem_of_find_invalid_resolutions
      (t' & Hlook' & k & ->%list_elem_of_singleton & Hnone)%elem_of_validate_keys.
    assert (t' = t) as -> by congruence.
    unfold keep_invalid, get in Hkeep. simpl in Hkeep.
    rewrite Hnone in Hkeep. simpl in Hkeep. by injection Hkeep as <-.
Qed.

Lemma counted_contribution (t : ticket) :
  counted t = true ↔ is_Some (contribution t).
Proof.
  rewrite contribution_get. unfold counted.
  by destruct (isinstance_int_float _); split.
Qed.

Lemma average_step_not_counted st (t : ticket) :
  counted t = false → average_step st t = Some st.
Proof. unfold counted, average_step. by intros ->. Qed.

(** A counted ticket is in the sum and the count of its category, once
    the first loop has ended. *)
Lemma counted_ticket_in_group (tickets : list ticket) (i : nat) (t : ticket)
    (v : pyval) :
  tickets !! i = Some t → contribution t = Some v →
  ∀ temp_stats, for_each average_step [] tickets = Some temp_stats →
    ∃ data,
      dict_get temp_stats (category t) = Some data ∧
      for_each py_add (VInt 0)
        (group_contributions (take i tickets) (dict_key (category t)) ++
         v :: group_contributions (drop (S i) tickets) (dict_key (category t)))
      = Some (total data) ∧
      count data =
        Z.of_nat (length (group_contributions (take i tickets)
                            (dict_key (category t)))) + 1 +
        Z.of_nat (length (group_contributions (drop (S i) tickets)
                            (dict_key (category t)))).
Proof.
  intros Hlook Hcontrib st Hloop. destruct (temp_stats_spec _ _ Hloop) as [_ Hκ].
  specialize (Hκ (dict_key (category t))).
  set (before := group_contributions (take i tickets) _) in *.
  set (after := group_contributions (drop (S i) tickets) _) in *.
  assert (group_contributions tickets (dict_key (category t)) =
          before ++ v :: after) as Hgroup.
  { rewrite <- (take_drop_middle _ _ _ Hlook) at 1.
    rewrite group_contributions_app, group_contributions_cons.
    by rewrite Hcontrib, decide_True. }
  rewrite Hgroup in Hκ.
  destruct (before ++ v :: after) as [|w l] eqn:Hl.
  { by destruct before. }
  destruct Hκ as (s & Hs & Hdata). eexists.
  split; [by rewrite dict_get_lookup_key|]. split; [done|]. simpl count.
  apply (f_equal length) in Hl. rewrite length_app in Hl.
  simpl length in *. lia.
Qed.

(** An uncounted ticket is in no group. *)
Lemma uncounted_ticket_in_no_group (tickets : list ticket) (i : nat)
    (t : ticket) κ :
  tickets !! i = Some t → contribution t = None →
  group_contributions tickets κ =
  group_contributions (take i tickets) κ ++
  group_contributions (drop (S i) tickets) κ.
Proof.
  intros Hlook Hcontrib. rewrite <- (take_drop_middle _ _ _ Hlook) at 1.
  rewrite group_contributions_app, group_contributions_cons.
  by rewrite Hcontrib.
Qed.

(** X9: a ticket whose ['resolution_minutes'] is null is reported by
    [find_invalid_resolutions] as ['Missing'] with the value [None],
    whether the key is absent or holds [None]; but only the absent key is
    reported by [validate_keys].  With the key absent, the aggregator
    reads 0 minutes, and whenever the first loop of
    [get_average_resolution_by_category] ends without [OverflowError] the
    ticket is in the sum (with 0) and in the count of its category, and
    whenever the function returns the category has an average.  On an
    explicit [None] the first loop leaves its state unchanged, and the
    ticket is in the sum and the count of no category. *)
Theorem null_resolution_absent_or_None (tickets : list ticket) (i : nat)
    (t : ticket) :
  tickets !! i = Some t → resolution_null t →
  (∃ r, r ∈ find_invalid_resolutions tickets ∧ index r = i ∧
        issue_type r = "Missing" ∧ invalid_value r = VNone) ∧
  (t !! "resolution_minutes" = None ↔
   i ∈ validate_keys tickets ["resolution_minutes"]) ∧
  (t !! "resolution_minutes" = None →
   get t "resolution_minutes" (VInt 0) = VInt 0 ∧
   (∀ temp_stats, for_each average_step [] tickets = Some temp_stats →
      ∃ data,
        dict_get temp_stats (category t) = Some data ∧
        for_each py_add (VInt 0)
          (group_contributions (take i tickets) (dict_key (category t)) ++
           VInt 0 ::
           group_contributions (drop (S i) tickets) (dict_key (category t)))
        = Some (total data) ∧
        count data =
          Z.of_nat (length (group_contributions (take i tickets)
                              (dict_key (category t)))) + 1 +
          Z.of_nat (length (group_contributions (drop (S i) tickets)
                              (dict_key (category t))))) ∧
   ∀ averages, get_average_resolution_by_category tickets = Some averages →
               is_Some (dict_get averages (category t))) ∧
  (t !! "resolution_minutes" = Some VNone →
   (∀ temp_stats, average_step temp_stats t = Some temp_stats) ∧
   ∀ c, group_sum tickets c =
        for_each py_add (VInt 0)
          (group_contributions (take i tickets) (dict_key c) ++
           group_contributions (drop (S i) tickets) (dict_key c)) ∧
        group_count tickets c =
        Z.of_nat (length (group_contributions (take i tickets) (dict_key c)))
        + Z.of_nat (length (group_contributions (drop (S i) tickets)
                              (dict_key c)))).
Proof.
  intros Hlook Hnull. split; [|split; [|split]].
  - exists {| index := i;
              ticket_id := get t "ticket_id" (VStr "UNKNOWN");
              invalid_value := VNone;
              issue_type := "Missing" |}.
    split; [|done]. apply elem_of_find_invalid_resolutions.
    exists t. simpl. split; [done|]. unfold keep_invalid, get. simpl.
    by destruct Hnull as [->| ->].
  - rewrite elem_of_validate_keys. split.
    + intros Hnone. exists t. split; [done|].
      exists "resolution_minutes". split; [by left|done].
    + intros (t' & Hlook' & k & ->%list_elem_of_singleton & Hnone).
      congruence.
  - intros Hnone.
    assert (contribution t = Some (VInt 0)) as Hcontrib
      by (unfold contribution; by rewrite Hnone).
    unfold get at 1. rewrite Hnone. split; [done|]. split.
    + by apply counted_ticket_in_group.
    + intros averages Hrun. apply (average_keys _ _ _ Hrun).
      exists t. split; [by eapply list_elem_of_lookup_2|]. split; [done|].
      rewrite Hcontrib. by eexists.
  - intros HNone.
    assert (contribution t = None) as Hcontrib
      by (unfold contribution; by rewrite HNone).
    split.
    + intros temp_stats. apply average_step_not_counted.
      unfold counted, get. by rewrite HNone.
    + intros c. unfold group_sum, group_count.
      rewrite (uncounted_ticket_in_no_group _ _ _ _ Hlook Hcontrib).
      split; [done|]. rewrite length_app. lia.
Qed.

Lemma null_resolution_absent_or_None_witness :
  (∃ r, r ∈ find_invalid_resolutions scenario_C ∧ index r = 1%nat ∧
        issue_type r = "Missing" ∧ invalid_value r = VNone) ∧
  (∀ temp_stats, for_each average_step [] scenario_C = Some temp_stats →
     ∃ data,
       dict_get temp_stats (VStr "X") = Some data ∧
       for_each py_add (VInt 0) [VInt 0; VInt 0] = Some (total data) ∧
       count data = 2) ∧
  ∀ averages, get_average_resolution_by_category scenario_C = Some averages →
              is_Some (dict_get averages (VStr "X")).
Proof.
  assert (scenario_C !! 1%nat =
          Some ({[ "priority" := VStr "Low"; "category" := VStr "X" ]}
                  : ticket)) as Hlook by reflexivity.
  assert (({[ "priority" := VStr "Low"; "category" := VStr "X" ]} : ticket)
            !! "resolution_minutes" = None) as Hnone
    by (vm_compute; reflexivity).
  destruct (null_resolution_absent_or_None scenario_C 1 _ Hlook
              (or_introl Hnone)) as (Hreported & _ & Hcounted & _).
  split; [exact Hreported|].
  destruct (Hcounted Hnone) as (_ & Hsum & Haverage).
  split; [|exact Haverage].
  intros temp_stats Hloop. destruct (Hsum temp_stats Hloop) as (data & H).
  exists data. exact H.
Defined.

(** X10: a ticket that [find_invalid_resolutions] does not report holds
    an integer, and [get_average_resolution_by_category] counts it: its
    category has an average. *)
Theorem unreported_ticket_averaged (tickets : list ticket) (i : nat)
    (t : ticket) :
  tickets !! i = Some t →
  i ∉ index <$> find_invalid_resolutions tickets →
  is_Some (as_int (get t "resolution_minutes" (VInt 0))) ∧
  counted t = true ∧
  ∀ averages, get_average_resolution_by_category tickets = Some averages →
              is_Some (dict_get averages (category t)).
Proof.
  intros Hlook Hnot.
  assert (resolution_integer t) as Hint.
  { apply (keep_invalid_None i).
    destruct (keep_invalid (i, t)) as [r|] eqn:Hkeep; [|done].
    destruct Hnot. apply list_elem_of_fmap. exists r.
    pose proof (keep_invalid_index _ _ _ Hkeep) as Hi. split; [done|].
    apply elem_of_find_invalid_resolutions. rewrite Hi. eauto. }
  assert (is_Some (as_int (get t "resolution_minutes" (VInt 0))) ∧
          counted t = true) as [Hz Hcounted].
  { unfold counted, get. by destruct Hint as [[z ->]|[b ->]]. }
  split; [done|]. split; [done|].
  intros averages Hrun. apply (average_keys _ _ _ Hrun).
  exists t. split; [by eapply list_elem_of_lookup_2|]. split; [done|].
  by apply counted_contribution.
Qed.

Lemma unreported_ticket_averaged_witness :
  is_Some (as_int (get ticket_with_bool "resolution_minutes" (VInt 0))) ∧
  counted ticket_with_bool = true ∧
  ∀ averages,
    get_average_resolution_by_category [ticket_with_bool] = Some averages →
    is_Some (dict_get averages (category ticket_with_bool)).
Proof.
  apply (unreported_ticket_averaged [ticket_with_bool] 0 ticket_with_bool).
  - reflexivity.
  - vm_compute. intros Hin. inversion Hin.
Defined.

(** ** More on the averages *)

Lemma average_loop_filter tickets : ∀ st,
  for_each average_step st (filter (λ t, counted t = true) tickets) =
  for_each average_step st tickets.
Proof.
  induction tickets as [|t tickets IH]; intros st; [done|].
  rewrite filter_cons. destruct (decide (counted t = true)) as [Hyes|Hno].
  - cbn [for_each]. destruct (average_step st t); simpl; [apply IH|done].
  - cbn [for_each]. rewrite average_step_not_counted
      by (by destruct (counted t)).
    simpl. apply IH.
Qed.

(** X11: the tickets whose ['resolution_minutes'] is present and neither
    an int nor a float have no influence on the averages: leaving them
    out of the input changes neither the result nor whether the function
    returns. *)
Theorem averages_ignore_uncounted (tickets : list ticket) :
  get_average_resolution_by_category
    (filter (λ t, counted t = true) tickets) =
  get_average_resolution_by_category tickets.
Proof.
  unfold get_average_resolution_by_category.
  by rewrite average_loop_filter.
Qed.

Section dict_more.
Context {V : Type}.
Implicit Types (d : pydict V) (k : pyval) (v : V).

Lemma key_classes_keys d : key_classes d = dict_key <$> d.*1.
Proof. unfold key_classes. by rewrite <- list_fmap_compose. Qed.

Lemma dict_set_keys d k v : (dict_set d k v).*1 = add_key d.*1 k.
Proof.
  unfold add_key. induction d as [|[k' v'] d IH]; [done|].
  simpl dict_set. unfold key_eqb.
  destruct (decide (dict_key k' = dict_key k)) as [Heq|Hne].
  - rewrite bool_decide_eq_true_2 by done. rewrite !fmap_cons. cbn [fst].
    rewrite decide_True; [done|]. rewrite Heq. by left.
  - rewrite bool_decide_eq_false_2 by done. rewrite !fmap_cons, IH.
    cbn [fst].
    destruct (decide (dict_key k ∈ dict_key <$> d.*1)) as [Hin|Hnotin].
    + rewrite decide_True; [done|]. by right.
    + rewrite decide_False; [done|].
      intros [?|?]%elem_of_cons; [congruence|done].
Qed.

Lemma dict_set_Forall (P : V → Prop) d k v :
  Forall (λ item, P item.2) d → P v → Forall (λ item, P item.2) (dict_set d k v).
Proof.
  intros Hd Hv. induction d as [|[k' v'] d IH]; simpl.
  - by constructor.
  - apply Forall_cons in Hd as [Hv' Hd].
    destruct (key_eqb k' k); constructor; auto.
Qed.
End dict_more.

Lemma add_key_idemp keys k : add_key (add_key keys k) k = add_key keys k.
Proof.
  unfold add_key. destruct (decide (dict_key k ∈ dict_key <$> keys)) as [|Hno].
  - by rewrite decide_True.
  - rewrite decide_True; [done|].
    rewrite fmap_app, elem_of_app. right. by left.
Qed.

Lemma add_key_present keys k :
  dict_key k ∈ dict_key <$> keys → add_key keys k = keys.
Proof. intros Hin. unfold add_key. by rewrite decide_True. Qed.

(** The keys of a dictionary after the statement
    [if cat not in d: d[cat] = v]. *)
Lemma setdefault_keys {V} (d : pydict V) (cat : pyval) (v : V) :
  (if negb (dict_contains d cat) then dict_set d cat v else d).*1 =
  add_key d.*1 cat.
Proof.
  destruct (dict_contains d cat) eqn:Hin; cbn [negb].
  - apply dict_contains_lookup_key, lookup_key_Some in Hin.
    rewrite key_classes_keys in Hin. by rewrite add_key_present.
  - apply dict_set_keys.
Qed.

Lemma average_step_keys st (t : ticket) st' :
  average_step st t = Some st' →
  st'.*1 = if counted t then add_key st.*1 (category t) else st.*1.
Proof.
  unfold average_step, counted.
  change (get t "category" (VStr "Unknown")) with (category t).
  destruct (isinstance_int_float _); cbn [negb]; [|by intros [= <-]].
  cbv zeta.
  set (st1 := if negb (dict_contains st (category t)) then _ else st).
  assert (st1.*1 = add_key st.*1 (category t)) as Hkeys
    by apply setdefault_keys.
  clearbody st1. intros Hstep.
  destruct (dict_get st1 (category t)) as [data|]; [|done].
  cbn [mbind option_bind] in Hstep.
  destruct (py_add _ _) as [tot|]; [|done].
  cbn [mbind option_bind] in Hstep.
  destruct (dict_get _ (category t)) as [data'|]; [|done].
  cbn [mbind option_bind] in Hstep. injection Hstep as <-.
  by rewrite !dict_set_keys, Hkeys, !add_key_idemp.
Qed.

Lemma average_loop_keys tickets : ∀ st st',
  for_each average_step st tickets = Some st' →
  st'.*1 = foldl add_key st.*1
             (category <$> filter (λ t, counted t = true) tickets).
Proof.
  induction tickets as [|t tickets IH]; intros st st' Hloop.
  - simpl in Hloop. by injection Hloop as <-.
  - cbn [for_each] in Hloop.
    destruct (average_step st t) as [st1|] eqn:Hstep; [|done].
    simpl in Hloop. apply IH in Hloop. apply average_step_keys in Hstep.
    rewrite filter_cons. destruct (counted t) eqn:Hcounted.
    + rewrite decide_True by done. simpl. by rewrite <- Hstep.
    + rewrite decide_False by done. by rewrite <- Hstep.
Qed.

Lemma average_entries_keys st : ∀ acc averages,
  for_each average_entry acc st = Some averages →
  NoDup (key_classes acc ++ key_classes st) →
  averages.*1 = acc.*1 ++ st.*1.
Proof.
  induction st as [|[k data] st IH]; intros acc averages Hloop Hnodup.
  - simpl in Hloop. injection Hloop as <-. by rewrite app_nil_r.
  - cbn [for_each] in Hloop. rewrite average_entry_entry_average in Hloop.
    destruct (entry_average data) as [v|]; [|done]. simpl in Hloop.
    rewrite key_classes_cons in Hnodup.
    assert (dict_key k ∉ key_classes acc) as Hnotin.
    { apply NoDup_app in Hnodup as (_ & Hdisj & _).
      intros Hin. apply (Hdisj _ Hin). by left. }
    assert ((dict_set acc k v).*1 = acc.*1 ++ [k]) as Hkeys.
    { rewrite dict_set_keys. unfold add_key.
      rewrite decide_False; [done|]. by rewrite <- key_classes_keys. }
    rewrite (IH _ _ Hloop).
    + rewrite Hkeys, <- app_assoc. done.
    + rewrite key_classes_keys, Hkeys, fmap_app, <- app_assoc.
      by rewrite <- !key_classes_keys.
Qed.

(** The keys of the averages are those of [temp_stats]. *)
Lemma averages_keys_temp_stats (tickets : list ticket)
    (averages : pydict pyval) :
  get_average_resolution_by_category tickets = Some averages →
  ∃ st, for_each average_step [] tickets = Some st ∧
        averages.*1 = st.*1 ∧ NoDup (dict_key <$> averages.*1).
Proof.
  unfold get_average_resolution_by_category. intros Hrun.
  destruct (for_each average_step [] tickets) as [st|] eqn:Hloop; [|done].
  simpl in Hrun. destruct (temp_stats_spec _ _ Hloop) as [Hnodup _].
  apply average_entries_keys in Hrun; [|done].
  simpl in Hrun. exists st. split; [done|]. split; [done|].
  by rewrite Hrun, <- key_classes_keys.
Qed.

(** X12: when no category is a NaN, the keys of the mapping
    [get_average_resolution_by_category] returns are the categories of
    the counted tickets in the order of their first occurrence in the
    input, each category once; of several equal categories (such as [1]
    and [1.0]) the first one is the key.  (A [dict] finds a NaN key by
    identity only, which [dict_key] does not render: the statement leaves
    such keys out.) *)
Theorem averages_key_order (tickets : list ticket)
    (averages : pydict pyval) :
  (∀ t, t ∈ tickets → category t ≠ VFloat S754_nan) →
  get_average_resolution_by_category tickets = Some averages →
  averages.*1 =
    first_keys (category <$> filter (λ t, counted t = true) tickets) ∧
  NoDup (dict_key <$> averages.*1).
Proof.
  intros _ (st & Hloop & Hkeys & Hnodup)%averages_keys_temp_stats.
  split; [|done]. rewrite Hkeys. by apply average_loop_keys in Hloop.
Qed.

Lemma averages_key_order_witness :
  [(VStr "A", VFloat float_10)].*1 =
    first_keys (category <$> filter (λ t, counted t = true) scenario_mixed) ∧
  NoDup (dict_key <$> [(VStr "A", VFloat float_10)].*1).
Proof.
  apply (averages_key_order scenario_mixed).
  - intros t Hin. unfold scenario_mixed in Hin.
    apply elem_of_cons in Hin as [->|Hin]; [by vm_compute|].
    apply elem_of_cons in Hin as [->|Hin]; [by vm_compute|].
    by apply elem_of_nil in Hin.
  - vm_compute. reflexivity.
Defined.

Lemma entry_average_float (data : stats) (v : pyval) :
  0 < count data → entry_average data = Some v → ∃ f, v = VFloat f.
Proof.
  intros Hpos. unfold entry_average. rewrite (proj2 (Z.ltb_lt _ _) Hpos).
  destruct (py_truediv _ _) as [q|] eqn:Hq; [|done]. simpl.
  apply py_truediv_float in Hq as [f ->]. simpl. intros [= <-]. eauto.
Qed.

Lemma average_entries_floats st : ∀ acc averages,
  for_each average_entry acc st = Some averages →
  (∀ k data, (k, data) ∈ st → 0 < count data) →
  Forall (λ item, ∃ f, item.2 = VFloat f) acc →
  Forall (λ item, ∃ f, item.2 = VFloat f) averages.
Proof.
  induction st as [|[k data] st IH]; intros acc averages Hloop Hcount Hacc.
  - simpl in Hloop. by injection Hloop as <-.
  - cbn [for_each] in Hloop. rewrite average_entry_entry_average in Hloop.
    destruct (entry_average data) as [v|] eqn:Hv; [|done]. simpl in Hloop.
    apply (IH _ _ Hloop).
    + intros k' data' Hin. apply (Hcount k'). by right.
    + apply (dict_set_Forall (λ v, ∃ f, v = VFloat f)); [done|].
      apply (entry_average_float data); [|done].
      apply (Hcount k). by left.
Qed.

(** X13: every value of the mapping [get_average_resolution_by_category]
    returns is a float: the integer [0] of line 68 is never stored. *)
Theorem averages_are_floats (tickets : list ticket)
    (averages : pydict pyval) :
  get_average_resolution_by_category tickets = Some averages →
  Forall (λ item, ∃ f, item.2 = VFloat f) averages.
Proof.
  unfold get_average_resolution_by_category. intros Hrun.
  destruct (for_each average_step [] tickets) as [st|] eqn:Hloop; [|done].
  simpl in Hrun. apply (average_entries_floats _ _ _ Hrun); [|constructor].
  intros k data Hin. by apply (temp_stats_counted _ _ _ _ Hloop Hin).
Qed.

Lemma averages_are_floats_witness :
  Forall (λ item : pyval * pyval, ∃ f, item.2 = VFloat f)
         [(VStr "A", VFloat float_15)].
Proof.
  apply (averages_are_floats scenario_B). vm_compute. reflexivity.
Defined.

(** ** The averages, group by group *)

Lemma group_average_entry (w : pyval) (l : list pyval) (s : pyval) :
  for_each py_add (VInt 0) (w :: l) = Some s →
  group_average (w :: l) =
  entry_average {| total := s; count := Z.of_nat (length (w :: l)) |}.
Proof.
  intros Hs. unfold group_average, entry_average. rewrite Hs.
  cbn [mbind option_bind total count].
  assert (0 < Z.of_nat (length (w :: l))) as Hpos by (simpl length; lia).
  by rewrite (proj2 (Z.ltb_lt _ _) Hpos).
Qed.

(** A run of [get_average_resolution_by_category]: what it returns for
    every class of keys, and when it returns. *)
Lemma averages_run (tickets : list ticket) :
  (∀ averages κ,
     get_average_resolution_by_category tickets = Some averages →
     lookup_key averages κ =
     match group_contributions tickets κ with
     | [] => None
     | l => group_average l
     end) ∧
  (is_Some (get_average_resolution_by_category tickets) ↔
   ∀ κ, group_contributions tickets κ ≠ [] →
        is_Some (group_average (group_contributions tickets κ))).
Proof.
  assert (∀ averages κ,
     get_average_resolution_by_category tickets = Some averages →
     lookup_key averages κ =
     match group_contributions tickets κ with
     | [] => None
     | l => group_average l
     end ∧
     (group_contributions tickets κ ≠ [] →
      is_Some (lookup_key averages κ))) as Hlookup.
  { unfold get_average_resolution_by_category. intros averages κ Hrun.
    destruct (for_each average_step [] tickets) as [st|] eqn:Hloop; [|done].
    simpl in Hrun. destruct (temp_stats_spec _ _ Hloop) as [Hnodup Hκ].
    pose proof (average_entries_spec _ _ _ Hrun Hnodup κ) as Hentry.
    specialize (Hκ κ).
    destruct (group_contributions tickets κ) as [|w l].
    - rewrite Hκ in Hentry. by rewrite Hentry.
    - destruct Hκ as (s & Hs & Hlook). rewrite Hlook in Hentry.
      destruct Hentry as (v & Hv & ->).
      rewrite (group_average_entry _ _ _ Hs). split; [done|by eexists]. }
  split; [intros averages κ Hrun; by apply Hlookup|]. split.
  - intros [averages Hrun] κ Hne.
    destruct (Hlookup averages κ Hrun) as [Heq Hsome].
    specialize (Hsome Hne). rewrite Heq in Hsome.
    by destruct (group_contributions tickets κ).
  - intros Hgroups. unfold get_average_resolution_by_category.
    assert (is_Some (for_each average_step [] tickets)) as [st Hloop].
    { apply average_loop_defined. intros κ. simpl.
      destruct (group_contributions tickets κ) as [|w l] eqn:Hgroup;
        [by eexists|].
      destruct (Hgroups κ) as [v Hv]; [by rewrite Hgroup|].
      rewrite Hgroup in Hv. unfold group_average in Hv.
      destruct (for_each py_add (VInt 0) (w :: l)); [by eexists|done]. }
    rewrite Hloop. simpl. apply average_entries_defined.
    intros k data Hin. destruct (temp_stats_spec _ _ Hloop) as [Hnodup Hκ].
    apply (elem_of_lookup_key _ _ _ Hnodup) in Hin.
    specialize (Hκ (dict_key k)). specialize (Hgroups (dict_key k)).
    destruct (group_contributions tickets (dict_key k)) as [|w l];
      [congruence|].
    destruct Hκ as (s & Hs & Hlook). rewrite Hlook in Hin.
    injection Hin as <-.
    pose proof (group_average_entry _ _ _ Hs) as Havg.
    cbn [length] in Havg |- *. rewrite <- Havg. by apply Hgroups.
Qed.

(** ** Averages of integers *)

(** Python's [sum] of integers is their exact sum. *)
Lemma sum_of_integers (l : list pyval) : ∀ a,
  Forall (λ v, is_Some (as_int v)) l →
  for_each py_add (VInt a) l =
  Some (VInt (a + foldr Z.add 0 (omap as_int l))).
Proof.
  induction l as [|v l IH]; intros a Hall.
  - simpl. by rewrite Z.add_0_r.
  - apply Forall_cons in Hall as [[z Hz] Hall].
    assert (py_add (VInt a) v = Some (VInt (a + z))) as Hadd
      by (unfold py_add; cbn [as_int]; by rewrite Hz).
    cbn [for_each omap list_omap]. rewrite Hadd, Hz.
    cbn [mbind option_bind foldr]. rewrite (IH _ Hall). do 2 f_equal.
    change (list_omap pyval Z as_int l) with (omap as_int l). lia.
Qed.

Lemma contribution_counted (t : ticket) (v : pyval) :
  contribution t = Some v →
  counted t = true ∧ v = get t "resolution_minutes" (VInt 0).
Proof.
  rewrite contribution_get. unfold counted.
  destruct (isinstance_int_float _); [|done]. by intros [= <-].
Qed.

(** What holds of the counted values of all tickets holds of the
    contributions of every group. *)
Lemma group_contributions_Forall (P : pyval → Prop) tickets κ :
  (∀ t, t ∈ tickets → counted t = true →
        P (get t "resolution_minutes" (VInt 0))) →
  Forall P (group_contributions tickets κ).
Proof.
  intros Hall. apply Forall_forall. unfold group_contributions.
  intros v (t & [_ Hin]%list_elem_of_filter & Hv)%list_elem_of_omap.
  apply contribution_counted in Hv as [Hcounted ->]. by apply Hall.
Qed.

Lemma no_float_integers (tickets : list ticket) :
  (∀ t f, t ∈ tickets → t !! "resolution_minutes" ≠ Some (VFloat f)) →
  ∀ t, t ∈ tickets → counted t = true →
       is_Some (as_int (get t "resolution_minutes" (VInt 0))).
Proof.
  intros Hno t Hin. specialize (Hno t). unfold counted, get.
  destruct (t !! "resolution_minutes") as [[| | |f|]|]; simpl; try done.
  by destruct (Hno f Hin).
Qed.

(** [a / b] on ints returns exactly when [|a / b|] is below
    [2 ^ 1024 - 2 ^ 970]. *)
Lemma int_truediv_defined (a b : Z) :
  0 < b →
  is_Some (PyFloat.int_truediv a b) ↔ Z.abs a < (2 ^ 1024 - 2 ^ 970) * b.
Proof.
  intros Hb. destruct (decide (a = 0)) as [->|Ha].
  - split; [|by eexists]. intros _. change (Z.abs 0) with 0.
    apply Z.mul_pos_pos; [reflexivity|done].
  - rewrite <- not_eq_None_Some.
    rewrite (Rounding.int_truediv_overflow a b Ha) by lia.
    rewrite (Z.abs_eq b) by lia.
    generalize (2 ^ 1024 - 2 ^ 970). intros T. lia.
Qed.

Lemma group_average_integers (l : list pyval) :
  l ≠ [] → Forall (λ v, is_Some (as_int v)) l →
  group_average l =
  (f ← PyFloat.int_truediv (foldr Z.add 0 (omap as_int l))
         (Z.of_nat (length l));
   Some (VFloat (PyFloat.round2 f))).
Proof.
  intros Hne Hall. unfold group_average.
  rewrite (sum_of_integers l 0 Hall), Z.add_0_l.
  cbn [mbind option_bind]. unfold py_truediv. cbn [as_int].
  assert (Z.of_nat (length l) ≠ 0) as Hlen by (destruct l; [done|simpl; lia]).
  rewrite (proj2 (Z.eqb_neq _ _) Hlen).
  by destruct (PyFloat.int_truediv _ _).
Qed.

Lemma group_count_pos tickets (c : pyval) :
  0 < group_count tickets c ↔ group_contributions tickets (dict_key c) ≠ [].
Proof.
  unfold group_count.
  destruct (group_contributions tickets (dict_key c)); simpl; split;
    try done; lia.
Qed.

(** On integers, [get_average_resolution_by_category] returns exactly
    when the quotient of every group is below the overflow threshold. *)
Lemma averages_of_integers_defined (tickets : list ticket) :
  (∀ t f, t ∈ tickets → t !! "resolution_minutes" ≠ Some (VFloat f)) →
  is_Some (get_average_resolution_by_category tickets) ↔
  ∀ c, 0 < group_count tickets c →
       Z.abs (group_int_sum tickets c)
       < (2 ^ 1024 - 2 ^ 970) * group_count tickets c.
Proof.
  intros Hno. pose proof (no_float_integers tickets Hno) as Hint.
  rewrite (proj2 (averages_run tickets)). split.
  - intros Hgroups c Hpos. pose proof Hpos as Hne.
    apply group_count_pos in Hne. specialize (Hgroups _ Hne).
    rewrite group_average_integers in Hgroups
      by (try done; by apply group_contributions_Forall).
    apply int_truediv_defined; [done|]. unfold group_int_sum, group_count.
    by destruct (PyFloat.int_truediv _ _); [eexists|destruct Hgroups].
  - intros Hgroups κ Hne. pose proof Hne as Hκ.
    apply group_contributions_not_nil in Hκ as (t & _ & <- & _).
    pose proof (proj2 (group_count_pos tickets (category t)) Hne) as Hpos.
    specialize (Hgroups _ Hpos).
    apply (int_truediv_defined _ _ Hpos) in Hgroups as [f Hf].
    rewrite group_average_integers
      by (try done; by apply group_contributions_Forall).
    unfold group_int_sum, group_count in Hf. rewrite Hf. by eexists.
Qed.

(** X14: when no ticket holds a float, the sums are exact: every average
    is [round(q, 2)] for the float [q] nearest to the exact quotient of
    the integer sum of its group by the group's count, and the function
    returns exactly when, for every group, that quotient is below
    [2 ^ 1024 - 2 ^ 970] in absolute value ([OverflowError]
    otherwise). *)
Theorem averages_of_integers (tickets : list ticket) :
  (∀ t f, t ∈ tickets → t !! "resolution_minutes" ≠ Some (VFloat f)) →
  (is_Some (get_average_resolution_by_category tickets) ↔
   ∀ c, 0 < group_count tickets c →
        Z.abs (group_int_sum tickets c)
        < (2 ^ 1024 - 2 ^ 970) * group_count tickets c) ∧
  (∀ averages c v,
     get_average_resolution_by_category tickets = Some averages →
     dict_get averages c = Some v →
     ∃ q, PyFloat.int_truediv (group_int_sum tickets c)
            (group_count tickets c) = Some q ∧
          v = VFloat (PyFloat.round2 q)).
Proof.
  intros Hno. split; [by apply averages_of_integers_defined|].
  intros averages c v Hrun Hget.
  rewrite dict_get_lookup_key in Hget.
  rewrite (proj1 (averages_run tickets) _ _ Hrun) in Hget.
  unfold group_int_sum, group_count.
  destruct (group_contributions tickets (dict_key c)) as [|w l] eqn:Hgroup;
    [done|].
  rewrite group_average_integers in Hget.
  - destruct (PyFloat.int_truediv _ _) as [q|]; [|done].
    injection Hget as <-. by exists q.
  - done.
  - rewrite <- Hgroup. apply group_contributions_Forall.
    by apply no_float_integers.
Qed.

Lemma averages_of_integers_witness :
  (is_Some (get_average_resolution_by_category scenario_B) ↔
   ∀ c, 0 < group_count scenario_B c →
        Z.abs (group_int_sum scenario_B c)
        < (2 ^ 1024 - 2 ^ 970) * group_count scenario_B c) ∧
  (∀ averages c v,
     get_average_resolution_by_category scenario_B = Some averages →
     dict_get averages c = Some v →
     ∃ q, PyFloat.int_truediv (group_int_sum scenario_B c)
            (group_count scenario_B c) = Some q ∧
          v = VFloat (PyFloat.round2 q)).
Proof.
  apply (averages_of_integers scenario_B).
  intros t f Hin. unfold scenario_B in Hin.
  apply elem_of_cons in Hin as [->|Hin];
    [by vm_compute|].
  apply elem_of_cons in Hin as [->|Hin];
    [by vm_compute|].
  by apply elem_of_nil in Hin.
Defined.

(** ** Averages of bounded integers *)

Lemma int_sum_bounds (l : list pyval) (B : Z) :
  Forall (λ v, ∃ z, as_int v = Some z ∧ 0 ≤ z ≤ B) l →
  0 ≤ foldr Z.add 0 (omap as_int l) ≤ B * Z.of_nat (length l).
Proof.
  induction l as [|v l IH]; intros Hall.
  - simpl. lia.
  - apply Forall_cons in Hall as [(z & Hz & Hzb) Hall].
    specialize (IH Hall). cbn [omap list_omap]. rewrite Hz.
    change (list_omap pyval Z as_int l) with (omap as_int l).
    cbn [foldr length]. lia.
Qed.

(** [a / b] is a float between 0 and [B] when the exact quotient is. *)
Lemma int_truediv_bounded (a b B : Z) :
  0 ≤ a ≤ B * b → 0 < b → 0 ≤ B ≤ 2 ^ 52 →
  ∃ f, PyFloat.int_truediv a b = Some f ∧ float_in f B.
Proof.
  intros Ha Hb HB. unfold PyFloat.int_truediv.
  replace (a <? 0) with false by (symmetry; apply Z.ltb_ge; lia).
  replace (b <? 0) with false by (symmetry; apply Z.ltb_ge; lia).
  simpl xorb. destruct (a =? 0) eqn:Hzero.
  - eexists. split; [done|]. exists 0%Q. split; [done|].
    split; [done|]. unfold Qle. simpl. lia.
  - apply Z.eqb_neq in Hzero. rewrite !Z.abs_eq by lia.
    assert (float_in (PyFloat.of_rounded false (PyFloat.round_pos a b)) B)
      as Hin.
    { apply float_in_of_rounded; [lia|]. apply round_pos_le; lia. }
    rewrite (float_in_not_infinity _ _ Hin). eauto.
Qed.

(** [round(y, 2)] is between 0 and [B] when [y] is. *)
Lemma float_in_round2_le (y : spec_float) (B : Z) :
  0 ≤ B ≤ 2 ^ 52 → float_in y B → float_in (PyFloat.round2 y) B.
Proof.
  intros HB (q & Hq & Hq0 & Hq1). destruct y as [s|s| |s m e]; try done.
  - simpl. exists 0%Q. split; [done|]. split; [done|].
    unfold Qle. simpl. lia.
  - simpl in Hq. injection Hq as <-. unfold PyFloat.round2.
    set (v := PyFloat.finite_value s m e) in *.
    assert (0 ≤ PyFloat.round_half_even (Qnum v * 100) (Z.pos (Qden v))
              ≤ B * 100) as Hk.
    { revert Hq0 Hq1. unfold Qle. simpl. intros Hq0 Hq1.
      apply round_half_even_bounds; lia. }
    apply float_in_round_Q; [| |lia].
    + unfold Qle. simpl. lia.
    + unfold Qle. simpl. lia.
Qed.

Lemma group_average_bounded (l : list pyval) (B : Z) :
  l ≠ [] → 0 ≤ B ≤ 2 ^ 52 →
  Forall (λ v, ∃ z, as_int v = Some z ∧ 0 ≤ z ≤ B) l →
  ∃ f, group_average l = Some (VFloat f) ∧ float_in f B.
Proof.
  intros Hne HB Hall.
  rewrite group_average_integers; [|done|].
  - destruct (int_truediv_bounded (foldr Z.add 0 (omap as_int l))
                (Z.of_nat (length l)) B) as (q & -> & Hq).
    + by apply int_sum_bounds.
    + destruct l; [done|simpl; lia].
    + done.
    + simpl. eexists. split; [done|]. by apply float_in_round2_le.
  - eapply Forall_impl; [exact Hall|]. intros v (z & -> & _). by eexists.
Qed.

(** X15: when every counted value is an integer between 0 and a bound
    [B] of at most [2 ^ 52], [get_average_resolution_by_category]
    returns, and every average is a float between 0 and [B]: neither the
    division nor the rounding to two decimals leaves the range of the
    data. *)
Theorem averages_of_bounded_integers (tickets : list ticket) (B : Z) :
  0 ≤ B ≤ 2 ^ 52 →
  (∀ t, t ∈ tickets → counted t = true →
        ∃ z, as_int (get t "resolution_minutes" (VInt 0)) = Some z ∧
             0 ≤ z ≤ B) →
  ∃ averages,
    get_average_resolution_by_category tickets = Some averages ∧
    ∀ c v, dict_get averages c = Some v →
           ∃ f, v = VFloat f ∧ float_in f B.
Proof.
  intros HB Hall.
  assert (∀ κ, group_contributions tickets κ ≠ [] →
               ∃ f, group_average (group_contributions tickets κ)
                    = Some (VFloat f) ∧ float_in f B) as Hgroups.
  { intros κ Hne. apply group_average_bounded; [done..|].
    by apply group_contributions_Forall. }
  destruct (proj2 (proj2 (averages_run tickets))) as [averages Hrun].
  { intros κ Hne. destruct (Hgroups κ Hne) as (f & -> & _). by eexists. }
  exists averages. split; [done|]. intros c v Hget.
  rewrite dict_get_lookup_key in Hget.
  rewrite (proj1 (averages_run tickets) _ _ Hrun) in Hget.
  destruct (group_contributions tickets (dict_key c)) as [|w l] eqn:Hgroup;
    [done|].
  destruct (Hgroups (dict_key c)) as (f & Hf & Hin); [by rewrite Hgroup|].
  rewrite Hgroup in Hf. exists f. split; [congruence|done].
Qed.

Lemma averages_of_bounded_integers_witness :
  ∃ averages,
    get_average_resolution_by_category scenario_B = Some averages ∧
    ∀ c v, dict_get averages c = Some v →
           ∃ f, v = VFloat f ∧ float_in f 20.
Proof.
  apply (averages_of_bounded_integers scenario_B 20).
  - split; [lia|]. by vm_compute.
  - intros t Hin _. unfold scenario_B in Hin.
    apply elem_of_cons in Hin as [->|Hin];
      [exists 10; split; [by vm_compute|lia]|].
    apply elem_of_cons in Hin as [->|Hin];
      [exists 20; split; [by vm_compute|lia]|].
    by apply elem_of_nil in Hin.
Defined.

(** ** More on the escalation rates *)

Lemma category_group_not_nil tickets κ :
  category_group tickets κ ≠ [] ↔
  ∃ t, t ∈ tickets ∧ dict_key (category t) = κ.
Proof.
  unfold category_group. split.
  - destruct (filter _ tickets) as [|t g] eqn:Hg; [done|]. intros _.
    assert (t ∈ filter (λ t, dict_key (category t) = κ) tickets) as Hin
      by (rewrite Hg; by left).
    apply list_elem_of_filter in Hin as [Hκ Hin]. eauto.
  - intros (t & Hin & Hκ) Hnil.
    assert (t ∈ filter (λ t, dict_key (category t) = κ) tickets) as Hin'
      by (by apply list_elem_of_filter).
    rewrite Hnil in Hin'. by apply elem_of_nil in Hin'.
Qed.

(** X16: [by_category] has an entry for exactly the categories of the
    tickets (['Unknown'] for a ticket without category), and every entry
    is a float between 0 and 100. *)
Theorem by_category_range (tickets : list ticket) :
  ∃ r, get_escalation_rates tickets = Some r ∧
    (∀ c, is_Some (dict_get (by_category r) c) ↔
          ∃ t, t ∈ tickets ∧ dict_key (category t) = dict_key c) ∧
    (∀ c v, dict_get (by_category r) c = Some v →
            ∃ f, v = VFloat f ∧ float_in f 100).
Proof.
  destruct (get_escalation_rates_run tickets) as (r & Hrun & _ & Hby).
  exists r. split; [done|].
  assert (∀ c, match category_group tickets (dict_key c) with
               | [] => dict_get (by_category r) c = None
               | _ => ∃ f, dict_get (by_category r) c = Some (VFloat f) ∧
                           float_in f 100
               end) as Hentry.
  { intros c. rewrite dict_get_lookup_key, Hby.
    destruct (category_group tickets (dict_key c)) as [|t g]; [done|].
    destruct (percentage_counts (critical_count (t :: g))
                (Z.of_nat (length (t :: g)))) as (f & Hf & Hin).
    - apply critical_count_bounds.
    - simpl length. lia.
    - by exists f. }
  split.
  - intros c. rewrite <- category_group_not_nil. specialize (Hentry c).
    destruct (category_group tickets (dict_key c)) as [|t g].
    + rewrite Hentry. split; [by intros [? ?]|done].
    + destruct Hentry as (f & -> & _). split; [done|by eexists].
  - intros c v Hget. specialize (Hentry c).
    destruct (category_group tickets (dict_key c)) as [|t g];
      [congruence|].
    destruct Hentry as (f & Hf & Hin). exists f. split; [congruence|done].
Qed.

(** [n / n] is [1.0]. *)
Lemma round_pos_one (n : Z) :
  0 < n → PyFloat.round_pos n n = PyFloat.Rfinite 4503599627370496 (-52).
Proof.
  intros Hn. unfold PyFloat.round_pos.
  assert (PyFloat.log2_ratio n n = 0) as ->.
  { unfold PyFloat.log2_ratio. rewrite Z.sub_diag.
    change (0 <=? 0) with true. cbn iota. change (2 ^ 0) with 1.
    by rewrite Z.mul_1_r, Z.leb_refl. }
  change (Z.max (0 - 52) (-1074)) with (-52).
  change (0 <=? -52) with false. cbn iota. change (- -52) with 52.
  assert (PyFloat.round_half_even (n * 2 ^ 52) n = 2 ^ 52) as ->.
  { unfold PyFloat.round_half_even.
    rewrite (Z.mul_comm n), Z.div_mul, Z.mod_mul by lia.
    change (2 * 0) with 0. by rewrite (proj2 (Z.compare_lt_iff 0 n) Hn). }
  reflexivity.
Qed.

(** The percentage of [n] among [n] is [100.0], and the percentage of
    none among [n] is [0.0]. *)
Lemma percentage_all (n : Z) :
  0 < n → percentage n n = Some (VFloat float_100).
Proof.
  intros Hn. unfold percentage, py_truediv. cbn [as_int].
  rewrite (proj2 (Z.eqb_neq n 0)) by lia. unfold PyFloat.int_truediv.
  rewrite (proj2 (Z.ltb_ge n 0)), (proj2 (Z.eqb_neq n 0)) by lia.
  rewrite Z.abs_eq, (round_pos_one n Hn) by lia.
  vm_compute. reflexivity.
Qed.

Lemma percentage_none (n : Z) :
  0 < n → percentage 0 n = Some (VFloat float_zero).
Proof.
  intros Hn. unfold percentage, py_truediv. cbn [as_int].
  rewrite (proj2 (Z.eqb_neq n 0)) by lia. unfold PyFloat.int_truediv.
  rewrite (proj2 (Z.ltb_ge n 0)) by lia.
  vm_compute. reflexivity.
Qed.

Lemma critical_count_all (l : list ticket) :
  (∀ t, t ∈ l → is_critical t = true) →
  critical_count l = Z.of_nat (length l).
Proof.
  induction l as [|t l IH]; intros Hall; [done|].
  rewrite critical_count_cons, (Hall t) by (by left).
  rewrite IH by (intros t' Hin; apply Hall; by right). simpl length. lia.
Qed.

Lemma critical_count_none (l : list ticket) :
  (∀ t, t ∈ l → is_critical t = false) → critical_count l = 0.
Proof.
  induction l as [|t l IH]; intros Hall; [done|].
  rewrite critical_count_cons, (Hall t) by (by left).
  rewrite IH by (intros t' Hin; apply Hall; by right). done.
Qed.

Lemma category_group_elem_of tickets κ t :
  t ∈ category_group tickets κ → t ∈ tickets.
Proof. unfold category_group. by intros [_ ?]%list_elem_of_filter. Qed.

(** X17: when every ticket is critical (and there is one), the overall
    rate and the rate of every category are [100.0]; when no ticket is
    critical, they are all [0.0]. *)
Theorem escalation_rates_extremes (tickets : list ticket) :
  ∃ r, get_escalation_rates tickets = Some r ∧
    (tickets ≠ [] → (∀ t, t ∈ tickets → is_critical t = true) →
     overall_rate r = VFloat float_100 ∧
     ∀ c v, dict_get (by_category r) c = Some v → v = VFloat float_100) ∧
    ((∀ t, t ∈ tickets → is_critical t = false) →
     overall_rate r = VFloat float_zero ∧
     ∀ c v, dict_get (by_category r) c = Some v → v = VFloat float_zero).
Proof.
  destruct (get_escalation_rates_run tickets) as (r & Hrun & Hoverall & Hby).
  exists r. split; [done|]. split.
  - intros Hne Hall. split.
    + destruct tickets as [|t tickets]; [done|].
      rewrite (critical_count_all _ Hall), percentage_all in Hoverall
        by (simpl length; lia).
      congruence.
    + intros c v. rewrite dict_get_lookup_key, Hby.
      destruct (category_group tickets (dict_key c)) as [|t g] eqn:Hg;
        [done|].
      cbv zeta.
      rewrite critical_count_all, percentage_all; [congruence|..].
      * simpl length. lia.
      * intros t' Hin. apply Hall.
        apply (category_group_elem_of _ (dict_key c)). by rewrite Hg.
  - intros Hall. split.
    + destruct tickets as [|t tickets]; [done|].
      rewrite (critical_count_none _ Hall), percentage_none in Hoverall
        by (simpl length; lia).
      congruence.
    + intros c v. rewrite dict_get_lookup_key, Hby.
      destruct (category_group tickets (dict_key c)) as [|t g] eqn:Hg;
        [done|].
      cbv zeta.
      rewrite critical_count_none, percentage_none; [congruence|..].
      * simpl length. lia.
      * intros t' Hin. apply Hall.
        apply (category_group_elem_of _ (dict_key c)). by rewrite Hg.
Qed.

Lemma escalation_rates_extremes_witness :
  (∃ r, get_escalation_rates (take 1 scenario_C) = Some r ∧
        overall_rate r = VFloat float_100 ∧
        ∀ c v, dict_get (by_category r) c = Some v → v = VFloat float_100) ∧
  (∃ r, get_escalation_rates scenario_B = Some r ∧
        overall_rate r = VFloat float_zero ∧
        ∀ c v, dict_get (by_category r) c = Some v → v = VFloat float_zero).
Proof.
  split.
  - destruct (escalation_rates_extremes (take 1 scenario_C))
      as (r & Hrun & Hall & _).
    exists r. split; [exact Hrun|]. apply Hall; [discriminate|].
    intros t Hin. unfold scenario_C in Hin. simpl take in Hin.
    apply elem_of_cons in Hin as [->|Hin]; [by vm_compute|].
    by apply elem_of_nil in Hin.
  - destruct (escalation_rates_extremes scenario_B)
      as (r & Hrun & _ & Hnone).
    exists r. split; [exact Hrun|]. apply Hnone.
    intros t Hin. unfold scenario_B in Hin.
    apply elem_of_cons in Hin as [->|Hin]; [by vm_compute|].
    apply elem_of_cons in Hin as [->|Hin]; [by vm_compute|].
    by apply elem_of_nil in Hin.
Defined.

Lemma critical_count_Permutation (l l' : list ticket) :
  l ≡ₚ l' → critical_count l = critical_count l'.
Proof. intros Hperm. unfold critical_count. by rewrite Hperm. Qed.

Lemma category_group_Permutation (l l' : list ticket) κ :
  l ≡ₚ l' → category_group l κ ≡ₚ category_group l' κ.
Proof. intros Hperm. unfold category_group. by rewrite Hperm. Qed.

(** X18: the rates do not depend on the order of the tickets: two
    inputs that are permutations of each other have the same overall
    rate and the same rate for every category (the order of the keys of
    [by_category] apart). *)
Theorem escalation_rates_permutation (tickets tickets' : list ticket) :
  tickets ≡ₚ tickets' →
  ∃ r r', get_escalation_rates tickets = Some r ∧
          get_escalation_rates tickets' = Some r' ∧
          overall_rate r = overall_rate r' ∧
          ∀ c, dict_get (by_category r) c = dict_get (by_category r') c.
Proof.
  intros Hperm.
  destruct (get_escalation_rates_run tickets) as (r & Hrun & Hoverall & Hby).
  destruct (get_escalation_rates_run tickets')
    as (r' & Hrun' & Hoverall' & Hby').
  exists r, r'. split; [done|]. split; [done|]. split.
  - pose proof (Permutation_length Hperm) as Hlen.
    pose proof (critical_count_Permutation _ _ Hperm) as Hcrit.
    destruct tickets as [|t tickets], tickets' as [|t' tickets'];
      try done; [congruence|].
    rewrite Hcrit, Hlen in Hoverall. congruence.
  - intros c. rewrite !dict_get_lookup_key, Hby, Hby'.
    pose proof (category_group_Permutation _ _ (dict_key c) Hperm) as Hg.
    pose proof (Permutation_length Hg) as Hlen.
    pose proof (critical_count_Permutation _ _ Hg) as Hcrit.
    destruct (category_group tickets (dict_key c)) as [|t g],
      (category_group tickets' (dict_key c)) as [|t' g']; try done.
    cbv zeta. by rewrite Hcrit, Hlen.
Qed.

Lemma escalation_rates_permutation_witness :
  ∃ r r', get_escalation_rates scenario_C = Some r ∧
          get_escalation_rates (reverse scenario_C) = Some r' ∧
          overall_rate r = overall_rate r' ∧
          ∀ c, dict_get (by_category r) c = dict_get (by_category r') c.
Proof.
  apply (escalation_rates_permutation scenario_C (reverse scenario_C)).
  symmetry. apply reverse_Permutation.
Defined.

(** ** The order of the categories *)

Lemma escalation_step_keys st (t : ticket) st' :
  escalation_step st t = Some st' →
  (category_counts st').*1 = add_key (category_counts st).*1 (category t).
Proof.
  unfold escalation_step.
  change (get t "category" (VStr "Unknown")) with (category t).
  cbv zeta.
  set (cc1 := if negb (dict_contains (category_counts st) (category t))
              then _ else category_counts st).
  assert (cc1.*1 = add_key (category_counts st).*1 (category t)) as Hkeys
    by apply setdefault_keys.
  clearbody cc1. intros Hstep.
  destruct (dict_get cc1 (category t)) as [data|]; [|done].
  cbn [mbind option_bind] in Hstep.
  destruct (dict_get _ (category t)) as [data'|]; [|done].
  cbn [mbind option_bind] in Hstep. injection Hstep as <-.
  cbn [category_counts].
  by rewrite !dict_set_keys, Hkeys, !add_key_idemp.
Qed.

Lemma escalation_loop_keys tickets : ∀ st st',
  for_each escalation_step st tickets = Some st' →
  (category_counts st').*1 =
  foldl add_key (category_counts st).*1 (category <$> tickets).
Proof.
  induction tickets as [|t tickets IH]; intros st st' Hloop.
  - simpl in Hloop. by injection Hloop as <-.
  - cbn [for_each] in Hloop.
    destruct (escalation_step st t) as [st1|] eqn:Hstep; [|done].
    simpl in Hloop. apply IH in Hloop. apply escalation_step_keys in Hstep.
    rewrite fmap_cons. cbn [foldl]. by rewrite <- Hstep.
Qed.

(** What [category_counts] holds after the counting loop. *)
Lemma category_counts_spec tickets st :
  for_each escalation_step
    {| category_counts := []; total_tickets := 0; total_critical := 0 |}
    tickets = Some st →
  NoDup (key_classes (category_counts st)) ∧
  ∀ k data, (k, data) ∈ category_counts st → 0 < tickets_total data.
Proof.
  intros Hloop.
  destruct (escalation_loop_spec tickets
              {| category_counts := []; total_tickets := 0;
                 total_critical := 0 |})
    as (st' & Hloop' & _ & _ & Hnodup & Hlook).
  assert (st' = st) as -> by congruence.
  simpl in Hnodup, Hlook. specialize (Hnodup ltac:(constructor)).
  split; [done|].
  intros k data Hin%(elem_of_lookup_key _ _ _ Hnodup).
  rewrite Hlook in Hin.
  destruct (category_group tickets (dict_key k)) as [|t g]; [done|].
  injection Hin as <-. simpl. lia.
Qed.

Lemma escalation_entries_keys ccs : ∀ r r',
  for_each escalation_entry r ccs = Some r' →
  (∀ k data, (k, data) ∈ ccs → 0 < tickets_total data) →
  NoDup (key_classes (by_category r) ++ key_classes ccs) →
  (by_category r').*1 = (by_category r).*1 ++ ccs.*1.
Proof.
  induction ccs as [|[k data] ccs IH]; intros r r' Hloop Hpos Hnodup.
  - simpl in Hloop. injection Hloop as <-. by rewrite app_nil_r.
  - cbn [for_each] in Hloop.
    rewrite escalation_entry_counted in Hloop by (apply (Hpos k); by left).
    destruct (percentage _ _) as [pct|]; [|done]. simpl in Hloop.
    rewrite key_classes_cons in Hnodup.
    assert (dict_key k ∉ key_classes (by_category r)) as Hnotin.
    { apply NoDup_app in Hnodup as (_ & Hdisj & _).
      intros Hin. apply (Hdisj _ Hin). by left. }
    assert ((dict_set (by_category r) k pct).*1 = (by_category r).*1 ++ [k])
      as Hkeys.
    { rewrite dict_set_keys. unfold add_key.
      rewrite decide_False; [done|]. by rewrite <- key_classes_keys. }
    rewrite (IH _ _ Hloop); cbn [by_category].
    + by rewrite Hkeys, <- app_assoc.
    + intros k' data' Hin. apply (Hpos k'). by right.
    + rewrite key_classes_keys, Hkeys, fmap_app, <- app_assoc.
      by rewrite <- !key_classes_keys.
Qed.

(** The keys of [by_category] are those of [category_counts]. *)
Lemma by_category_keys_counts (tickets : list ticket) (r : rates) :
  get_escalation_rates tickets = Some r →
  ∃ st, for_each escalation_step
          {| category_counts := []; total_tickets := 0; total_critical := 0 |}
          tickets = Some st ∧
        (by_category r).*1 = (category_counts st).*1 ∧
        NoDup (dict_key <$> (by_category r).*1).
Proof.
  unfold get_escalation_rates. intros Hrun.
  destruct (for_each escalation_step _ tickets) as [st|] eqn:Hloop; [|done].
  cbn [mbind option_bind] in Hrun.
  destruct (category_counts_spec _ _ Hloop) as [Hnodup Hpos].
  exists st. split; [done|].
  assert (∀ r0, by_category r0 = [] →
                for_each escalation_entry r0 (category_counts st) = Some r →
                (by_category r).*1 = (category_counts st).*1) as Hentries.
  { intros r0 Hr0 Hloop2.
    apply escalation_entries_keys in Hloop2; [|done|by rewrite Hr0].
    by rewrite Hloop2, Hr0. }
  assert ((by_category r).*1 = (category_counts st).*1) as Hkeys.
  { destruct (0 <? total_tickets st).
    - destruct (percentage _ _) as [pct|]; [|done].
      cbn [mbind option_bind] in Hrun. by eapply Hentries; [|exact Hrun].
    - cbn [mbind option_bind] in Hrun. by eapply Hentries; [|exact Hrun]. }
  split; [done|]. by rewrite Hkeys, <- key_classes_keys.
Qed.

(** X19: when no category is a NaN, the keys of [by_category] are the
    categories of the tickets in the order of their first occurrence in
    the input, each category once; of several equal categories the first
    one is the key.  (A [dict] finds a NaN key by identity only, which
    [dict_key] does not render: the statement leaves such keys out.) *)
Theorem by_category_key_order (tickets : list ticket) :
  (∀ t, t ∈ tickets → category t ≠ VFloat S754_nan) →
  ∃ r, get_escalation_rates tickets = Some r ∧
    (by_category r).*1 = first_keys (category <$> tickets) ∧
    NoDup (dict_key <$> (by_category r).*1).
Proof.
  intros _. destruct (get_escalation_rates_run tickets) as (r & Hrun & _).
  exists r. split; [done|].
  destruct (by_category_keys_counts _ _ Hrun) as (st & Hloop & Hkeys & Hnodup).
  split; [|done]. rewrite Hkeys. by apply escalation_loop_keys in Hloop.
Qed.

Lemma by_category_key_order_witness :
  ∃ r, get_escalation_rates scenario_C = Some r ∧
    (by_category r).*1 = first_keys (category <$> scenario_C) ∧
    NoDup (dict_key <$> (by_category r).*1).
Proof.
  apply (by_category_key_order scenario_C).
  intros t Hin. unfold scenario_C in Hin.
  apply elem_of_cons in Hin as [->|Hin]; [by vm_compute|].
  apply elem_of_cons in Hin as [->|Hin]; [by vm_compute|].
  by apply elem_of_nil in Hin.
Defined.

(** ** More on the report *)

Lemma length_foldl_add_key (l keys : list pyval) :
  (length (foldl add_key keys l) ≤ length keys + length l)%nat.
Proof.
  revert keys. induction l as [|k l IH]; intros keys; simpl; [lia|].
  etrans; [apply IH|]. unfold add_key.
  destruct (decide _); rewrite ?length_app; simpl; lia.
Qed.

(** X20: in a report, every category that has an average has an
    escalation rate, so there are at most as many averages as rates, and
    at most as many rates as there are records. *)
Theorem report_categories (tickets : list ticket) (rep : report) :
  generate_final_report tickets = Some rep →
  (∀ c, is_Some (dict_get (averages rep) c) →
        is_Some (dict_get (by_category (escalations rep)) c)) ∧
  (length (averages rep) ≤ length (by_category (escalations rep)))%nat ∧
  (length (by_category (escalations rep)) ≤ total_records (meta rep))%nat.
Proof.
  unfold generate_final_report. intros Hrun.
  destruct (get_average_resolution_by_category tickets) as [a|] eqn:Ha;
    [|done].
  destruct (get_escalation_rates tickets) as [e|] eqn:He; [|done].
  simpl in Hrun. injection Hrun as <-. cbn [averages escalations meta
    total_records].
  assert (∀ c, is_Some (dict_get a c) → is_Some (dict_get (by_category e) c))
    as Hsub.
  { intros c (t & Hin & Hcat & _)%(average_keys _ _ _ Ha).
    destruct (get_escalation_rates_run tickets) as (e' & He' & _ & Hby).
    assert (e' = e) as -> by congruence.
    rewrite dict_get_lookup_key, Hby.
    assert (category_group tickets (dict_key c) ≠ []) as Hne
      by (apply category_group_not_nil; eauto).
    destruct (category_group tickets (dict_key c)) as [|t' g]; [done|].
    cbv zeta.
    destruct (percentage_counts (critical_count (t' :: g))
                (Z.of_nat (length (t' :: g)))) as (f & -> & _);
      [apply critical_count_bounds|simpl length; lia|by eexists]. }
  split; [done|].
  destruct (by_category_keys_counts tickets e He)
    as (st & Hloop & Hkeys & Hnodup).
  split.
  - destruct (averages_keys_temp_stats tickets a Ha) as (_ & _ & _ & Hnodup_a).
    rewrite <- (length_fmap fst a), <- (length_fmap dict_key a.*1).
    rewrite <- (length_fmap fst (by_category e)),
      <- (length_fmap dict_key (by_category e).*1).
    apply submseteq_length, NoDup_submseteq; [done|].
    intros κ. rewrite <- !key_classes_keys, <- !lookup_key_Some.
    intros [v Hv]. destruct (lookup_key_elem_of _ _ _ Hv) as (k & _ & <-).
    rewrite <- !dict_get_lookup_key in *. apply Hsub. by eexists.
  - rewrite <- (length_fmap fst (by_category e)), Hkeys.
    apply escalation_loop_keys in Hloop. rewrite Hloop.
    etrans; [apply length_foldl_add_key|]. cbn [category_counts].
    rewrite !length_fmap. simpl. lia.
Qed.

Lemma report_categories_witness :
  (∀ c, is_Some (dict_get [(VStr "A", VFloat float_15)] c) →
        is_Some (dict_get [(VStr "A", VFloat float_zero)] c)) ∧
  (length [(VStr "A", VFloat float_15)]
   ≤ length [(VStr "A", VFloat float_zero)])%nat ∧
  (length [(VStr "A", VFloat float_zero)] ≤ 2)%nat.
Proof.
  apply (report_categories scenario_B
           {| meta := {| total_records := 2; status := "Success" |};
              averages := [(VStr "A", VFloat float_15)];
              escalations :=
                {| overall_rate := VFloat float_zero;
                   by_category := [(VStr "A", VFloat float_zero)] |} |}).
  vm_compute. reflexivity.
Defined.

Lemma find_invalid_resolutions_nil (tickets : list ticket) :
  find_invalid_resolutions tickets = [] →
  ∀ t, t ∈ tickets → resolution_integer t.
Proof.
  rewrite find_invalid_resolutions_omap, omap_eq_nil.
  intros Hall t [i Hi]%list_elem_of_lookup_1.
  apply elem_of_enumerate in Hi. by apply (keep_invalid_None i), Hall.
Qed.

Lemma int_sum_abs_bound (l : list pyval) (M : Z) :
  Forall (λ v, ∃ z, as_int v = Some z ∧ Z.abs z ≤ M) l →
  Z.abs (foldr Z.add 0 (omap as_int l)) ≤ M * Z.of_nat (length l).
Proof.
  induction l as [|v l IH]; intros Hall.
  - simpl. lia.
  - apply Forall_cons in Hall as [(z & Hz & Hzb) Hall].
    specialize (IH Hall). cbn [omap list_omap]. rewrite Hz.
    change (list_omap pyval Z as_int l) with (omap as_int l).
    cbn [foldr length]. lia.
Qed.

(** X21: the validator guards the report: when
    [find_invalid_resolutions] reports nothing and every integer is
    below [2 ^ 1024 - 2 ^ 970] in absolute value (it converts to a
    float), [generate_final_report] returns a report, with the number of
    tickets and the status ['Success']. *)
Theorem validated_tickets_reported (tickets : list ticket) :
  find_invalid_resolutions tickets = [] →
  (∀ t z, t ∈ tickets → t !! "resolution_minutes" = Some (VInt z) →
          Z.abs z < 2 ^ 1024 - 2 ^ 970) →
  ∃ rep, generate_final_report tickets = Some rep ∧
         meta rep = {| total_records := length tickets;
                       status := "Success" |}.
Proof.
  intros Hclean Hbound.
  pose proof (find_invalid_resolutions_nil _ Hclean) as Hint.
  assert (is_Some (get_average_resolution_by_category tickets)) as [a Ha].
  { apply averages_of_integers_defined.
    - intros t f Hin Hf. destruct (Hint t Hin) as [[z Hz]|[b Hb]]; congruence.
    - assert (1 < 2 ^ 1024 - 2 ^ 970) as Hone by reflexivity.
      revert Hbound Hone. generalize (2 ^ 1024 - 2 ^ 970).
      intros T Hbound Hone c Hpos. unfold group_int_sum, group_count in *.
      pose proof (int_sum_abs_bound
                    (group_contributions tickets (dict_key c)) (T - 1))
        as Hsum.
      assert (Z.abs (foldr Z.add 0
                       (omap as_int (group_contributions tickets (dict_key c))))
              ≤ (T - 1) * Z.of_nat (length (group_contributions tickets
                                              (dict_key c)))) as Hle.
      { apply Hsum. apply group_contributions_Forall.
        intros t Hin _. unfold get.
        destruct (Hint t Hin) as [[z Hz]|[b Hb]].
        - rewrite Hz. exists z. split; [done|].
          specialize (Hbound t z Hin Hz). lia.
        - rewrite Hb. exists (if b then 1 else 0). split; [done|].
          destruct b; lia. }
      lia. }
  destruct (get_escalation_rates_run tickets) as (e & He & _).
  unfold generate_final_report. rewrite Ha, He. simpl. by eexists.
Qed.

Lemma validated_tickets_reported_witness :
  ∃ rep, generate_final_report scenario_B = Some rep ∧
         meta rep = {| total_records := length scenario_B;
                       status := "Success" |}.
Proof.
  apply (validated_tickets_reported scenario_B).
  - vm_compute. reflexivity.
  - intros t z Hin Hz. unfold scenario_B in Hin.
    apply elem_of_cons in Hin as [->|Hin].
    { vm_compute in Hz. injection Hz as <-. reflexivity. }
    apply elem_of_cons in Hin as [->|Hin].
    { vm_compute in Hz. injection Hz as <-. reflexivity. }
    by apply elem_of_nil in Hin.
Defined.

(** ** The order of the tickets *)

Lemma int_sum_Permutation (l l' : list pyval) :
  l ≡ₚ l' →
  foldr Z.add 0 (omap as_int l) = foldr Z.add 0 (omap as_int l').
Proof.
  induction 1 as [|x l l' _ IH|x y l|l l' l'' _ IH1 _ IH2];
    [done| | |congruence].
  - cbn [omap list_omap].
    change (list_omap pyval Z as_int l) with (omap as_int l).
    change (list_omap pyval Z as_int l') with (omap as_int l').
    destruct (as_int x); cbn [foldr]; congruence.
  - cbn [omap list_omap].
    change (list_omap pyval Z as_int l) with (omap as_int l).
    destruct (as_int x), (as_int y); cbn [foldr]; lia.
Qed.

Lemma group_contributions_Permutation (l l' : list ticket) κ :
  l ≡ₚ l' → group_contributions l κ ≡ₚ group_contributions l' κ.
Proof. intros Hperm. unfold group_contributions. by rewrite Hperm. Qed.

(** X22: when no ticket holds a float, the averages do not depend on
    the order of the tickets: two inputs that are permutations of each
    other give the same average for every category, and the function
    returns on both or on neither. *)
Theorem averages_of_integers_permutation (tickets tickets' : list ticket) :
  tickets ≡ₚ tickets' →
  (∀ t f, t ∈ tickets → t !! "resolution_minutes" ≠ Some (VFloat f)) →
  (is_Some (get_average_resolution_by_category tickets) ↔
   is_Some (get_average_resolution_by_category tickets')) ∧
  ∀ averages averages',
    get_average_resolution_by_category tickets = Some averages →
    get_average_resolution_by_category tickets' = Some averages' →
    ∀ c, dict_get averages c = dict_get averages' c.
Proof.
  intros Hperm Hno.
  assert (∀ t f, t ∈ tickets' → t !! "resolution_minutes" ≠ Some (VFloat f))
    as Hno' by (intros t f Hin; apply Hno; by rewrite Hperm).
  assert (∀ κ,
    match group_contributions tickets κ with
    | [] => None
    | l => group_average l
    end =
    match group_contributions tickets' κ with
    | [] => None
    | l => group_average l
    end) as Hgroups.
  { intros κ.
    pose proof (group_contributions_Permutation _ _ κ Hperm) as Hg.
    pose proof (group_contributions_Forall (λ v, is_Some (as_int v))
                  tickets κ (no_float_integers _ Hno)) as Hints.
    pose proof (group_contributions_Forall (λ v, is_Some (as_int v))
                  tickets' κ (no_float_integers _ Hno')) as Hints'.
    destruct (group_contributions tickets κ) as [|w l],
      (group_contributions tickets' κ) as [|w' l'].
    - done.
    - by apply Permutation_nil_cons in Hg.
    - symmetry in Hg. by apply Permutation_nil_cons in Hg.
    - rewrite !group_average_integers by done.
      by rewrite (int_sum_Permutation _ _ Hg), (Permutation_length Hg). }
  assert (∀ κ, group_contributions tickets κ ≠ [] ↔
               group_contributions tickets' κ ≠ []) as Hne.
  { intros κ.
    pose proof (group_contributions_Permutation _ _ κ Hperm) as Hg.
    destruct (group_contributions tickets κ) as [|w l],
      (group_contributions tickets' κ) as [|w' l']; try done.
    - by apply Permutation_nil_cons in Hg.
    - symmetry in Hg. by apply Permutation_nil_cons in Hg. }
  split.
  - rewrite !(proj2 (averages_run _)). split.
    + intros Hall κ Hκ. specialize (Hgroups κ).
      pose proof (proj2 (Hne κ) Hκ) as Hκ'. specialize (Hall κ Hκ').
      destruct (group_contributions tickets κ) as [|w l],
        (group_contributions tickets' κ) as [|w' l']; try done.
      by rewrite <- Hgroups.
    + intros Hall κ Hκ. specialize (Hgroups κ).
      pose proof (proj1 (Hne κ) Hκ) as Hκ'. specialize (Hall κ Hκ').
      destruct (group_contributions tickets κ) as [|w l],
        (group_contributions tickets' κ) as [|w' l']; try done.
      by rewrite Hgroups.
  - intros averages averages' Hrun Hrun' c.
    rewrite !dict_get_lookup_key.
    rewrite (proj1 (averages_run tickets) _ _ Hrun).
    rewrite (proj1 (averages_run tickets') _ _ Hrun').
    apply Hgroups.
Qed.

Lemma averages_of_integers_permutation_witness :
  (is_Some (get_average_resolution_by_category scenario_B) ↔
   is_Some (get_average_resolution_by_category (reverse scenario_B))) ∧
  ∀ averages averages',
    get_average_resolution_by_category scenario_B = Some averages →
    get_average_resolution_by_category (reverse scenario_B)
    = Some averages' →
    ∀ c, dict_get averages c = dict_get averages' c.
Proof.
  apply (averages_of_integers_permutation scenario_B (reverse scenario_B)).
  - symmetry. apply reverse_Permutation.
  - intros t f Hin. unfold scenario_B in Hin.
    apply elem_of_cons in Hin as [->|Hin]; [by vm_compute|].
    apply elem_of_cons in Hin as [->|Hin]; [by vm_compute|].
    by apply elem_of_nil in Hin.
Defined.

(** ** The fields the functions read *)

Section loops_ext.
Context {A S : Type} (R : A → A → Prop).

Lemma foldl_enumerate_ext (body : S → nat * A → S) (l l' : list A) :
  Forall2 R l l' →
  (∀ acc i x x', R x x' → body acc (i, x) = body acc (i, x')) →
  ∀ start acc,
    foldl body acc (enumerate_from start l) =
    foldl body acc (enumerate_from start l').
Proof.
  intros Hl Hbody. induction Hl as [|x x' l l' Hx _ IH]; intros start acc.
  - done.
  - simpl. by rewrite (Hbody _ _ _ _ Hx), IH.
Qed.

Lemma for_each_ext (body : S → A → option S) (l l' : list A) :
  Forall2 R l l' →
  (∀ s x x', R x x' → body s x = body s x') →
  ∀ s, for_each body s l = for_each body s l'.
Proof.
  intros Hl Hbody. induction Hl as [|x x' l l' Hx _ IH]; intros s.
  - done.
  - simpl. rewrite (Hbody _ _ _ Hx). destruct (body s x'); simpl; [|done].
    apply IH.
Qed.
End loops_ext.

(** X23: every function reads only its own fields of a ticket: two
    inputs of the same length give the same result when their tickets
    have, position by position, the same keys (for [validate_keys]), the
    same ['resolution_minutes'] and ['ticket_id'] (for
    [find_invalid_resolutions]), the same ['category'] and
    ['resolution_minutes'] (for the averages), the same ['category'] and
    ['priority'] (for the escalation rates). *)
Theorem functions_read_their_fields (tickets tickets' : list ticket) :
  (Forall2 (λ t t' : ticket, dom t = dom t') tickets tickets' →
   ∀ required_keys,
     validate_keys tickets required_keys =
     validate_keys tickets' required_keys) ∧
  (Forall2 (λ t t' : ticket,
              t !! "resolution_minutes" = t' !! "resolution_minutes" ∧
              t !! "ticket_id" = t' !! "ticket_id") tickets tickets' →
   find_invalid_resolutions tickets = find_invalid_resolutions tickets') ∧
  (Forall2 (λ t t' : ticket,
              t !! "category" = t' !! "category" ∧
              t !! "resolution_minutes" = t' !! "resolution_minutes")
           tickets tickets' →
   get_average_resolution_by_category tickets =
   get_average_resolution_by_category tickets') ∧
  (Forall2 (λ t t' : ticket,
              t !! "category" = t' !! "category" ∧
              t !! "priority" = t' !! "priority") tickets tickets' →
   get_escalation_rates tickets = get_escalation_rates tickets').
Proof.
  split; [|split; [|split]].
  - intros Hall required_keys. unfold validate_keys, enumerate.
    apply (foldl_enumerate_ext _ _ _ _ Hall).
    intros acc i t t' Hdom. unfold issubset. by rewrite Hdom.
  - intros Hall. unfold find_invalid_resolutions, enumerate.
    apply (foldl_enumerate_ext _ _ _ _ Hall).
    intros acc i t t' [Hmins Hid]. unfold get. by rewrite Hmins, Hid.
  - intros Hall. unfold get_average_resolution_by_category.
    rewrite (for_each_ext _ average_step _ _ Hall); [done|].
    intros st t t' [Hcat Hmins]. unfold average_step, get.
    by rewrite Hcat, Hmins.
  - intros Hall. unfold get_escalation_rates.
    rewrite (for_each_ext _ escalation_step _ _ Hall); [done|].
    intros st t t' [Hcat Hpriority]. unfold escalation_step, get.
    by rewrite Hcat, Hpriority.
Qed.

Lemma functions_read_their_fields_witness :
  get_average_resolution_by_category [ticket_with_float] =
  get_average_resolution_by_category
    [ {[ "category" := VStr "A"; "resolution_minutes" := VFloat float_2_5 ]} ] ∧
  get_escalation_rates scenario_C =
  get_escalation_rates
    [ {[ "priority" := VStr "Critical"; "category" := VStr "X";
         "resolution_minutes" := VInt 10 ]};
      {[ "priority" := VStr "Low"; "category" := VStr "X";
         "ticket_id" := VStr "T2" ]} ].
Proof.
  split.
  - apply (functions_read_their_fields [ticket_with_float]).
    constructor; [|constructor]. split; vm_compute; reflexivity.
  - apply (functions_read_their_fields scenario_C).
    constructor; [|constructor; [|constructor]];
      split; vm_compute; reflexivity.
Defined.
